(** * jbgraph3: the heap ([jbheap.py]) and the network / rooted spanning
    tree ([jbgraph2.py]), embedded shallowly and verified.

    Python lists are Rocq lists read with stdpp's lookup [L !! i] and written
    with [<[i:=x]> L]; Python dicts are insertion-ordered association lists
    (the traversal of [RSTree] depends on the iteration order); exceptions are
    an explicit result type, and the mutable objects ([Heap._heap],
    [Network._net]) are threaded as explicit state. *)

From Stdlib Require Import ZArith QArith Lia String.
From stdpp Require Import base decidable option list.
From Equations Require Import Equations.

Local Open Scope nat_scope.

(** ** Exceptions and results *)

(** The three Python exceptions the code can raise. *)
Inductive exn : Type := IndexError | KeyError | TypeError.

(** Outcome of a Python expression or call. *)
Inductive res (T : Type) : Type :=
| Ok (t : T)
| Raise (e : exn).
Arguments Ok {T} t.
Arguments Raise {T} e.

#[global] Instance exn_eq_dec : EqDecision exn.
Proof. solve_decision. Defined.

(** ** Python list primitives used by the heap *)

Section PyList.
Context {A : Type}.

(** [L[i]] for a non-negative index. *)
Definition getitem (L : list A) (i : nat) : res A :=
  match L !! i with
  | Some x => Ok x
  | None => Raise IndexError
  end.

(** [L[i] = x] for a non-negative index: raises out of range. *)
Definition setitem (L : list A) (i : nat) (x : A) : res (list A) :=
  if decide (i < length L) then Ok (<[i:=x]> L) else Raise IndexError.

(** [L.pop()]: the last element and the shortened list. *)
Definition list_pop (L : list A) : res (A * list A) :=
  match last L with
  | Some x => Ok (x, removelast L)
  | None => Raise IndexError
  end.
End PyList.

(** ** [class Heap] *)

Module Heap.
Section Heap.
Context {A : Type}.

(** The ordering method: [Heap.is_less_than] or its override in
    [HeapOfTuples]; a comparison may raise. *)
Variable is_less_than : A -> A -> res bool.

Definition parent (i : nat) : nat := (i - 1) / 2.
Definition left_child (i : nat) : nat := 2 * i + 1.
Definition right_child (i : nat) : nat := 2 * i + 2.

(** What one turn of a repair loop decides. The exchanges carry the two
    elements read: [x] is [L[i]], [y] the parent or child it is exchanged
    with. *)
Inductive turn : Type :=
| SwapParent (x y : A)
| SwapLeft (x y : A)
| SwapRight (x y : A)
| Break
| Throw (e : exn).

(** [try: ... except IndexError: break] around a comparison. *)
Definition caught (r : res bool) (yes : turn) (no : turn) : turn :=
  match r with
  | Ok true => yes
  | Ok false => no
  | Raise IndexError => Break
  | Raise e => Throw e
  end.

(** Body of the [while] of [up_heapify]. *)
Definition up_body (L : list A) (i : nat) : turn :=
  match L !! i with
  | None => Break
  | Some x =>
    match L !! parent i with
    | None => Break
    | Some y => caught (is_less_than x y) (SwapParent x y) Break
    end
  end.

(** [up_heapify(i)]: the final list and whether an exception escaped. *)
Equations? up_heapify (L : list A) (i : nat) : list A * res unit by wf i lt :=
  up_heapify L 0 := (L, Ok tt);
  up_heapify L (S j) with up_body L (S j) := {
    | SwapParent x y :=
        up_heapify (<[parent (S j) := x]> (<[S j := y]> L)) (parent (S j));
    | Throw e := (L, Raise e);
    | _ := (L, Ok tt) }.
Proof.
  change (parent (S j) < S j). unfold parent.
  apply Nat.Div0.div_lt_upper_bound. lia.
Qed.

(** Body of the [while] of [down_heapify]; the loop guard
    [i < len(L) - 1] has already passed. *)
Definition down_body (L : list A) (i : nat) : turn :=
  match L !! left_child i with
  | None => Break
  | Some l =>
    match L !! i with
    | None => Break
    | Some x =>
      caught (is_less_than l x) (SwapLeft x l)
        (if decide (i < length L - 2) then
           match L !! right_child i with
           | None => Break
           | Some r => caught (is_less_than r x) (SwapRight x r) Break
           end
         else Break)
    end
  end.

(** [down_heapify(i)]. *)
Equations? down_heapify (L : list A) (i : nat) : list A * res unit
  by wf (length L - i) lt :=
  down_heapify L i with decide (i < length L - 1) := {
    | right _ := (L, Ok tt);
    | left Hlt with down_body L i := {
      | SwapLeft x y :=
          down_heapify (<[left_child i := x]> (<[i := y]> L)) (left_child i);
      | SwapRight x y :=
          down_heapify (<[right_child i := x]> (<[i := y]> L)) (right_child i);
      | Throw e := (L, Raise e);
      | _ := (L, Ok tt) } }.
Proof.
  all: rewrite !length_insert; unfold left_child, right_child; lia.
Qed.

(** [insert(element)]. *)
Definition insert (element : A) (L : list A) : list A * res unit :=
  let L1 := L ++ [element] in
  up_heapify L1 (length L1 - 1).

(** [pop()]: [Ok None] is Python's [None]. In the last branch
    [self._heap[0] = self._heap.pop()] evaluates the right-hand side
    first, then stores into the shortened list. *)
Definition pop (L : list A) : list A * res (option A) :=
  if decide (length L = 1) then
    match list_pop L with
    | Ok (x, L') => (L', Ok (Some x))
    | Raise e => (L, Raise e)
    end
  else if decide (length L = 0) then (L, Ok None)
  else
    match getitem L 0 with
    | Raise e => (L, Raise e)
    | Ok val =>
      match list_pop L with
      | Raise e => (L, Raise e)
      | Ok (x, L1) =>
        match setitem L1 0 x with
        | Raise e => (L1, Raise e)
        | Ok L2 =>
          match down_heapify L2 0 with
          | (L3, Ok _) => (L3, Ok (Some val))
          | (L3, Raise e) => (L3, Raise e)
          end
        end
      end
    end.

(** [for el in elements: self.insert(el)]. *)
Fixpoint insert_all (elements : list A) (L : list A) : list A * res unit :=
  match elements with
  | [] => (L, Ok tt)
  | el :: rest =>
    match insert el L with
    | (L', Ok _) => insert_all rest L'
    | (L', Raise e) => (L', Raise e)
    end
  end.

(** [__init__(elements, is_heap)]: the initial [_heap]. *)
Definition init (elements : option (list A)) (is_heap : bool)
  : list A * res unit :=
  match elements with
  | None => ([], Ok tt)
  | Some els => if is_heap then (els, Ok tt) else insert_all els []
  end.

(** [__len__] and [list]. *)
Definition len (L : list A) : nat := length L.
Definition list_ (L : list A) : list A := L.

(** A client's calls on one heap object. *)
Inductive call : Type :=
| Insert (element : A)
| Pop.

(** Runs the calls in order on the heap; the values the [pop]s returned
    are collected in order. An escaping exception ends the run. *)
Fixpoint run (calls : list call) (L : list A) (out : list (option A))
  : list A * res (list (option A)) :=
  match calls with
  | [] => (L, Ok out)
  | Insert x :: rest =>
    match insert x L with
    | (L', Ok _) => run rest L' out
    | (L', Raise e) => (L', Raise e)
    end
  | Pop :: rest =>
    match pop L with
    | (L', Ok v) => run rest L' (out ++ [v])
    | (L', Raise e) => (L', Raise e)
    end
  end.

(** [while len(heap) > 0: out.append(heap.pop())], with the number of
    turns bounded by [fuel]; [None] when the bound is reached first. *)
Fixpoint pop_all (fuel : nat) (L : list A) (out : list (option A))
  : option (list A * res (list (option A))) :=
  if decide (0 < len L) then
    match fuel with
    | 0 => None
    | S fuel' =>
      match pop L with
      | (L', Ok v) => pop_all fuel' L' (out ++ [v])
      | (L', Raise e) => Some (L', Raise e)
      end
    end
  else Some (L, Ok out).

(** The heap invariant of the data model: no child compares less than its
    parent. *)
Definition heap_ordered (L : list A) : Prop :=
  forall i x y, 0 < i -> L !! i = Some x -> L !! parent i = Some y ->
    is_less_than x y <> Ok true.

(** The same, computed. *)
Definition heap_orderedb (L : list A) : bool :=
  forallb (fun i =>
    match L !! i, L !! parent i with
    | Some x, Some y =>
      match is_less_than x y with Ok true => false | _ => true end
    | _, _ => true
    end) (seq 1 (length L - 1)).

(** The ordering raises nothing that the repair loops do not catch. *)
Definition catches_all : Prop :=
  forall a b e, is_less_than a b = Raise e -> e = IndexError.

(** What [index] gives: a position, or the [ValueError] of [list.index]. *)
Inductive index_result : Type :=
| At (i : nat)
| ValueError.

(** [index(element)]: [self._heap.index(element)], a scan from the front
    for the first value equal to [element]. *)
Fixpoint index `{EqDecision A} (L : list A) (element : A) : index_result :=
  match L with
  | [] => ValueError
  | x :: L' =>
    if decide (x = element) then At 0
    else match index L' element with
         | At i => At (S i)
         | ValueError => ValueError
         end
  end.

(** An ordering that always answers and is a strict weak order: [a < b]
    excludes [b < a], and "not less than" is transitive. *)
Record ordering_ok : Prop := {
  ord_total : forall a b, exists r, is_less_than a b = Ok r;
  ord_asym : forall a b,
    is_less_than a b = Ok true -> is_less_than b a = Ok false;
  ord_trans : forall a b c,
    is_less_than b a = Ok false -> is_less_than c b = Ok false ->
    is_less_than c a = Ok false
}.

(** The heap order everywhere but between position [k] and its parent,
    with the children of [k] already in order with the parent of [k]:
    what holds while [up_heapify] carries an element up. *)
Definition ordered_except (L : list A) (k : nat) : Prop :=
  (forall i x y, 0 < i -> i <> k ->
     L !! i = Some x -> L !! parent i = Some y ->
     is_less_than x y = Ok false) /\
  (forall i x g, 0 < k -> 0 < i -> parent i = k ->
     L !! i = Some x -> L !! parent k = Some g ->
     is_less_than x g = Ok false).
End Heap.
End Heap.

(** [Heap.is_less_than] on integers: [el1 < el2]. *)
Definition int_less_than (el1 el2 : Z) : res bool := Ok (el1 <? el2)%Z.

(** ** [class HeapOfTuples] *)

(** The Python values that occur in the tuples. *)
Inductive value : Type :=
| VInt (z : Z)
| VStr (s : string).

(** [v1 < v2]: integers by value, strings lexicographically, and a
    [TypeError] between an integer and a string. *)
Definition value_lt (v1 v2 : value) : res bool :=
  match v1, v2 with
  | VInt a, VInt b => Ok (a <? b)%Z
  | VStr a, VStr b => Ok (String.ltb a b)
  | _, _ => Raise TypeError
  end.

(** [el[i]] on a tuple, with Python's negative indices. *)
Definition tuple_getitem (el : list value) (i : Z) : res value :=
  let n := Z.of_nat (length el) in
  let j := if (i <? 0)%Z then (i + n)%Z else i in
  if (j <? 0)%Z then Raise IndexError else getitem el (Z.to_nat j).

Module HeapOfTuples.
(** The override: [el1[self.i_val] < el2[self.i_val]]. *)
Definition is_less_than (i_val : Z) (el1 el2 : list value) : res bool :=
  match tuple_getitem el1 i_val with
  | Raise e => Raise e
  | Ok k1 =>
    match tuple_getitem el2 i_val with
    | Raise e => Raise e
    | Ok k2 => value_lt k1 k2
    end
  end.

Definition insert (i_val : Z) := Heap.insert (is_less_than i_val).
Definition pop (i_val : Z) := Heap.pop (is_less_than i_val).
Definition run (i_val : Z) := Heap.run (is_less_than i_val).
Definition init (i_val : Z) := Heap.init (is_less_than i_val).
End HeapOfTuples.

(** ** Python dicts: association lists in insertion order *)

Section Dict.
Context {K V : Type} `{EqDecision K}.

(** The entry stored under [k], if any. *)
Fixpoint dict_get (d : list (K * V)) (k : K) : option V :=
  match d with
  | [] => None
  | (k', v) :: d' => if decide (k = k') then Some v else dict_get d' k
  end.

(** [k in d]. *)
Definition dict_in (k : K) (d : list (K * V)) : bool :=
  match dict_get d k with Some _ => true | None => false end.

(** [d[k]]. *)
Definition dict_getitem (d : list (K * V)) (k : K) : res V :=
  match dict_get d k with
  | Some v => Ok v
  | None => Raise KeyError
  end.

(** [d[k] = v]: an existing key keeps its place, a new one goes last. *)
Fixpoint dict_set (d : list (K * V)) (k : K) (v : V) : list (K * V) :=
  match d with
  | [] => [(k, v)]
  | (k', v') :: d' =>
    if decide (k = k') then (k', v) :: d' else (k', v') :: dict_set d' k v
  end.

(** [del d[k]]. *)
Definition dict_delitem (d : list (K * V)) (k : K) : res (list (K * V)) :=
  if dict_in k d
  then Ok (filter (fun kv => kv.1 <> k) d)
  else Raise KeyError.

(** Iteration over the dict, and [d.values()]. *)
Definition dict_keys (d : list (K * V)) : list K := d.*1.
Definition dict_values (d : list (K * V)) : list V := d.*2.
End Dict.

(** ** A state-and-exception monad for methods of a mutable object *)

Definition M (S T : Type) : Type := S -> res T * S.

Definition ret {S T} (t : T) : M S T := fun s => (Ok t, s).
Definition raise {S T} (e : exn) : M S T := fun s => (Raise e, s).
Definition bind {S T U} (c : M S T) (k : T -> M S U) : M S U :=
  fun s =>
    match c s with
    | (Ok t, s') => k t s'
    | (Raise e, s') => (Raise e, s')
    end.
Definition get {S} : M S S := fun s => (Ok s, s).
Definition put {S} (s : S) : M S unit := fun _ => (Ok tt, s).
Definition lift {S T} (r : res T) : M S T := fun s => (r, s).

Notation "x <- c1 ;; c2" := (bind c1 (fun x => c2))
  (at level 100, c1 at next level, right associativity).
Notation "c1 ;;; c2" := (bind c1 (fun _ => c2))
  (at level 100, right associativity).

(** Sequencing of results without state. *)
Definition rbind {T U} (r : res T) (k : T -> res U) : res U :=
  match r with
  | Ok t => k t
  | Raise e => Raise e
  end.

(** What the methods of [Network] return: [None] or an integer. *)
Inductive pyret : Type :=
| PyNone
| PyInt (z : Z).

(** Python truthiness, as [not] and [if] read it. *)
Definition truthy (r : pyret) : bool :=
  match r with
  | PyNone => false
  | PyInt z => negb (z =? 0)%Z
  end.

(** ** [class Network] *)

Module Network.
Section Network.
Context {N : Type} `{EqDecision N}.

(** [self._net]: node to (neighbor to weight). Each row is a dict of its
    own: two rows are never one shared object. *)
Definition net : Type := list (N * list (N * Z)).

(** [Network(fromDict)]. *)
Definition init (fromDict : option net) : net :=
  match fromDict with
  | None => []
  | Some d => d
  end.

(** [add_node(node)]: falls off the end, so returns [None]. *)
Definition add_node (node : N) : M net pyret :=
  self <- get ;;
  (if negb (dict_in node self)
   then put (dict_set self node [])
   else ret tt) ;;;
  ret PyNone.

(** [self._net[node1][node2] = w]. *)
Definition set_weight (node1 node2 : N) (w : Z) : M net unit :=
  self <- get ;;
  row <- lift (dict_getitem self node1) ;;
  put (dict_set self node1 (dict_set row node2 w)).

(** [del self._net[node1][node2]]. *)
Definition del_weight (node1 node2 : N) : M net unit :=
  self <- get ;;
  row <- lift (dict_getitem self node1) ;;
  row' <- lift (dict_delitem row node2) ;;
  put (dict_set self node1 row').

(** [add_link(node1, node2)]. *)
Definition add_link (node1 node2 : N) : M net pyret :=
  r1 <- add_node node1 ;;
  if negb (truthy r1) then ret (PyInt (-1)) else
  r2 <- add_node node2 ;;
  if negb (truthy r2) then ret (PyInt (-1)) else
  set_weight node1 node2 1 ;;;
  set_weight node2 node1 1 ;;;
  ret PyNone.

(** [del_link(node1, node2)]. *)
Definition del_link (node1 node2 : N) : M net pyret :=
  del_weight node1 node2 ;;;
  del_weight node2 node1 ;;;
  ret PyNone.

(** [find_neighbors(node)]. *)
Definition find_neighbors (node : N) : M net (list N) :=
  self <- get ;;
  row <- lift (dict_getitem self node) ;;
  ret (dict_keys row).

(** [sum(...)] of integers. *)
Definition sum (l : list Z) : Z := foldr Z.add 0%Z l.

(** [[sum(self._net[n].values()) for n in self._net]]. *)
Fixpoint row_sums (self : net) (ns : list N) : res (list Z) :=
  match ns with
  | [] => Ok []
  | n :: ns' =>
    rbind (dict_getitem self n) (fun row =>
    rbind (row_sums self ns') (fun rest =>
    Ok (sum (dict_values row) :: rest)))
  end.

(** [link_count]: [int(total / 2)] truncates toward zero; the float
    quotient is exact while the total is below [2^53]. *)
Definition link_count : M net Z :=
  self <- get ;;
  sums <- lift (row_sums self (dict_keys self)) ;;
  ret (Z.quot (sum sums) 2).

(** [node_count] and [nodes]. *)
Definition node_count : M net nat := self <- get ;; ret (length self).
Definition nodes : M net (list N) := self <- get ;; ret (dict_keys self).

(** The entry of [b] in the adjacency of [a]. *)
Definition weight (self : net) (a b : N) : option Z :=
  match dict_get self a with
  | Some row => dict_get row b
  | None => None
  end.

(** The symmetry invariant of the data model. *)
Definition symmetric (self : net) : Prop :=
  forall a b w, weight self a b = Some w <-> weight self b a = Some w.

(** The symmetry invariant, computed: every entry is compared with the
    entry in the opposite direction. *)
Definition symmetricb (self : net) : bool :=
  forallb (fun a =>
    match dict_get self a with
    | Some row =>
      forallb (fun b => bool_decide (weight self b a = weight self a b))
              (dict_keys row)
    | None => true
    end) (dict_keys self).

(** A client's calls on one network object. *)
Inductive call : Type :=
| AddNode (node : N)
| AddLink (node1 node2 : N)
| DelLink (node1 node2 : N).

Definition do_call (c : call) : M net pyret :=
  match c with
  | AddNode n => add_node n
  | AddLink a b => add_link a b
  | DelLink a b => del_link a b
  end.

(** Runs the calls in order; an exception ends the run. *)
Fixpoint run (calls : list call) : M net unit :=
  match calls with
  | [] => ret tt
  | c :: rest => do_call c ;;; run rest
  end.
End Network.
End Network.

(** ** [class RSTree] *)

(** The edge tags ['green'] (tree edge) and ['red'] (non-tree edge). *)
Inductive color : Type := green | red.

#[global] Instance color_eq_dec : EqDecision color.
Proof. solve_decision. Defined.

Module RSTree.
Section RSTree.
Context {N : Type} `{EqDecision N}.

Local Abbreviation net := (@Network.net N).

(** The dict [tree]: node to (neighbor to tag). *)
Definition tree_t : Type := list (N * list (N * color)).

(** The object: [root], [network], the four maps that [__init__] sets to
    [None], and [_tree]. *)
Record t : Type := {
  root : N;
  network : net;
  _po_map : option unit;
  _max_po_map : option unit;
  _desc_map : option unit;
  _min_po_map : option unit;
  _tree : tree_t
}.

(** The local variables of [__init__]. *)
Record locals : Type := {
  tree : tree_t;
  marked : list N;
  open_list : list N
}.

(** The inner function [add_link(node1, node2, color)] on [tree]. *)
Definition add_link (tree : tree_t) (node1 node2 : N) (c : color)
  : res tree_t :=
  let tree1 := if negb (dict_in node1 tree) then dict_set tree node1 [] else tree in
  let tree2 := if negb (dict_in node2 tree1) then dict_set tree1 node2 [] else tree1 in
  rbind (dict_getitem tree2 node1) (fun row1 =>
  let tree3 := dict_set tree2 node1 (dict_set row1 node2 c) in
  if decide (c = red) then
    rbind (dict_getitem tree3 node2) (fun row2 =>
    Ok (dict_set tree3 node2 (dict_set row2 node1 red)))
  else Ok tree3).

(** Body of [for neighbor in neighbors]. The [elif] reads
    [tree[current]] first and [tree[neighbor]] only when [neighbor] is not
    in it. *)
Definition visit (current neighbor : N) (st : locals) : res locals :=
  if negb (bool_decide (neighbor ∈ marked st)) then
    rbind (add_link (tree st) current neighbor green) (fun tree' =>
    Ok {| tree := tree';
          marked := marked st ++ [neighbor];
          open_list := open_list st ++ [neighbor] |})
  else
    rbind (dict_getitem (tree st) current) (fun row_c =>
    if negb (dict_in neighbor row_c) then
      rbind (dict_getitem (tree st) neighbor) (fun row_n =>
      if negb (dict_in current row_n) then
        rbind (add_link (tree st) current neighbor red) (fun tree' =>
        Ok {| tree := tree'; marked := marked st; open_list := open_list st |})
      else Ok st)
    else Ok st).

(** [for neighbor in neighbors: ...]. *)
Fixpoint for_neighbors (current : N) (neighbors : list N) (st : locals)
  : res locals :=
  match neighbors with
  | [] => Ok st
  | neighbor :: rest =>
    rbind (visit current neighbor st) (for_neighbors current rest)
  end.

(** [while open_list != []: ...], at most [fuel] turns; [None] when the
    bound is reached with nodes still open. The state of the monad is the
    network object, which the loop reaches through [find_neighbors]. *)
Fixpoint while_open (fuel : nat) (st : locals) : M net (option locals) :=
  match open_list st with
  | [] => ret (Some st)
  | current :: rest =>
    match fuel with
    | 0 => ret None
    | S fuel' =>
      neighbors <- Network.find_neighbors current ;;
      st' <- lift (for_neighbors current neighbors
                     {| tree := tree st; marked := marked st; open_list := rest |}) ;;
      while_open fuel' st'
    end
  end.

(** [RSTree(network, root)]: [self.network] is the network object itself,
    so the field reads the state the object is in. *)
Definition init (fuel : nat) (root : N) : M net (option t) :=
  r <- while_open fuel {| tree := [(root, [])]; marked := [root]; open_list := [root] |} ;;
  network <- get ;;
  ret (match r with
       | Some st =>
         Some {| root := root; network := network;
                 _po_map := None; _max_po_map := None;
                 _desc_map := None; _min_po_map := None;
                 _tree := tree st |}
       | None => None
       end).

(** Every neighbor entry of the network, row after row. *)
Definition entries (self : net) : list N :=
  self ≫= (fun r => dict_keys r.2).

(** Turns that always suffice: each turn closes one node, and a node is
    opened at most once, being the root or a neighbor entry. *)
Definition enough (self : net) : nat := S (length (entries self)).

(** The tag of [b] in the row of [a]. *)
Definition tag (tr : tree_t) (a b : N) : option color :=
  match dict_get tr a with
  | Some row => dict_get row b
  | None => None
  end.

(** How the tree records the edge between [a] and [b]: once as a tree
    edge, in one direction, or twice as a non-tree edge. *)
Definition classified (tr : tree_t) (a b : N) : Prop :=
  (tag tr a b = Some green /\ tag tr b a = None) \/
  (tag tr b a = Some green /\ tag tr a b = None) \/
  (tag tr a b = Some red /\ tag tr b a = Some red).

(** [b] can be reached from [a] along links. *)
Inductive reachable (self : net) (a : N) : N -> Prop :=
| reach_refl : reachable self a a
| reach_step b c w :
    reachable self a b -> Network.weight self b c = Some w ->
    reachable self a c.

(** Every node of the network can be reached from [root]. *)
Definition connected_from (self : net) (root : N) : Prop :=
  forall n, dict_in n self = true -> reachable self root n.

(** No node is its own neighbor. *)
Definition no_self_links (self : net) : Prop :=
  forall a, Network.weight self a a = None.

(** The same, computed. *)
Definition no_self_linksb (self : net) : bool :=
  forallb (fun a => bool_decide (Network.weight self a a = None))
          (dict_keys self).
End RSTree.
End RSTree.

(** ** [class NetworkFactory]: the hypercube *)

Module NetworkFactory.

(** [nn = 1; while nn <= size: nn = nn*2]: [nn] runs through the powers
    of two. *)
Equations? double_past (size : Z) (nn : positive) : positive
  by wf (Z.to_nat (size + 1 - Z.pos nn)) lt :=
  double_past size nn with decide (Z.pos nn <= size)%Z := {
    | left _ := double_past size (2 * nn)%positive;
    | right _ := nn }.
Proof. lia. Qed.

(** [int(x)] of a quotient: the digits after the point are cut off. *)
Definition py_int (x : Q) : Z := Z.quot (Qnum x) (Z.pos (Qden x)).

(** [network[node1 + m][node2 + m] = 1]. *)
Definition set_shifted (m node1 : Z) (network : @Network.net Z) (node2 : Z)
  : res (@Network.net Z) :=
  rbind (dict_getitem network (node1 + m)%Z) (fun row =>
  Ok (dict_set network (node1 + m)%Z (dict_set row (node2 + m)%Z 1%Z))).

(** [for node2 in network1[node1]: ...]. *)
Fixpoint for_node2 (m node1 : Z) (node2s : list Z) (network : @Network.net Z)
  : res (@Network.net Z) :=
  match node2s with
  | [] => Ok network
  | node2 :: rest =>
    rbind (set_shifted m node1 network node2) (for_node2 m node1 rest)
  end.

(** Body of [for node1 in network1]. The row stored under [node1] is the
    row object of [network1] itself; it is written only in the last two
    statements, after [network1[node1]] has been read for the last time. *)
Definition copy_node (m : Z) (network1 network : @Network.net Z) (node1 : Z)
  : res (@Network.net Z) :=
  rbind (dict_getitem network1 node1) (fun row1 =>
  let network_a := dict_set network node1 row1 in
  let network_b := dict_set network_a (node1 + m)%Z [] in
  rbind (dict_getitem network1 node1) (fun row1' =>
  rbind (for_node2 m node1 (dict_keys row1') network_b) (fun network_c =>
  rbind (dict_getitem network_c node1) (fun row =>
  let network_d := dict_set network_c node1 (dict_set row (node1 + m)%Z 1%Z) in
  rbind (dict_getitem network_d (node1 + m)%Z) (fun row' =>
  Ok (dict_set network_d (node1 + m)%Z (dict_set row' node1 1%Z))))))).

(** [for node1 in network1: ...]. *)
Fixpoint for_node1 (m : Z) (network1 : @Network.net Z) (node1s : list Z)
    (network : @Network.net Z) : res (@Network.net Z) :=
  match node1s with
  | [] => Ok network
  | node1 :: rest =>
    rbind (copy_node m network1 network node1) (for_node1 m network1 rest)
  end.

(** [_rec_build_hc_net(n)] with at most [depth] calls inside one another;
    [None] is the [RecursionError] of the interpreter. [n] is the float
    handed down by [build_hypercube_network] or the integer [m]. *)
Fixpoint _rec_build_hc_net (depth : nat) (n : Q)
  : option (res (@Network.net Z)) :=
  match depth with
  | 0 => None
  | S depth' =>
    if Qeq_bool n 1 then Some (Ok [(0%Z, [])])
    else
      let m := py_int (n / 2) in
      match _rec_build_hc_net depth' (inject_Z m) with
      | Some (Ok network1) =>
        Some (for_node1 m network1 (dict_keys network1) [])
      | other => other
      end
  end.

(** [build_hypercube_network(size)] for an integer [size]; [nn = nn/2] is
    a true division. Its float is a power of two or one half, which a
    rational holds exactly as long as [size < 2**1024]; from there on the
    division raises [OverflowError], so the properties below are stated
    for sizes under that bound. *)
Definition build_hypercube_network (depth : nat) (size : Z)
  : option (res (@Network.net Z)) :=
  let nn := double_past size 1 in
  let nn' := (inject_Z (Z.pos nn) / 2)%Q in
  match _rec_build_hc_net depth nn' with
  | Some (Ok network) => Some (Ok (Network.init (Some network)))
  | other => other
  end.

(** The rows that one level of the recursion makes of the row of
    [node1]. *)
Definition double_row (m : Z) (r : Z * list (Z * Z))
  : list (Z * list (Z * Z)) :=
  [(r.1, r.2 ++ [((r.1 + m)%Z, 1%Z)]);
   ((r.1 + m)%Z, ((fun e => ((e.1 + m)%Z, 1%Z)) <$> r.2) ++ [(r.1, 1%Z)])].

(** The network that one level of the recursion makes of [network1]. *)
Definition double_net (m : Z) (network1 : list (Z * list (Z * Z)))
  : list (Z * list (Z * Z)) :=
  network1 ≫= double_row m.

(** The hypercube of dimension [k], level by level. *)
Fixpoint cube (k : nat) : @Network.net Z :=
  match k with
  | 0 => [(0%Z, [])]
  | S k' => double_net (2 ^ Z.of_nat k') (cube k')
  end.

(** Nodes and neighbors are below [m], and no key occurs twice. *)
Definition below (m : Z) (network1 : @Network.net Z) : Prop :=
  NoDup (dict_keys network1) /\
  Forall (fun r => (0 <= r.1 < m)%Z /\ NoDup (dict_keys r.2) /\
                   Forall (fun b => (0 <= b < m)%Z) (dict_keys r.2))
         network1.

(** [a] and [b] are nodes of the cube of dimension [k] that differ in
    exactly one binary digit. *)
Definition adjacent (k : nat) (a b : Z) : Prop :=
  (0 <= a < 2 ^ Z.of_nat k)%Z /\
  exists j, (0 <= j < Z.of_nat k)%Z /\ b = Z.lxor a (2 ^ j).
End NetworkFactory.

(** ** Predicates about the build of the tree *)

Section RSTreePredicates.
Context {N : Type} `{EqDecision N}.
Variable self : @Network.net N.
Variable root : N.
Implicit Types (st : @RSTree.locals N) (tr : @RSTree.tree_t N).
Implicit Types (a b c n : N) (d : list N).

(** [if not node in tree: tree[node] = {}]. *)
Definition ensure_row tr a : RSTree.tree_t :=
  if negb (dict_in a tr) then dict_set tr a [] else tr.

(** [b] is in the row of [a]. *)
Definition linked (a b : N) : Prop := is_Some (Network.weight self a b).

(** Every neighbor entry names a node of the network. *)
Definition closed : Prop :=
  forall a b, linked a b -> dict_in b self = true.

(** Neighbor entries not yet marked, plus the open nodes: this number
    goes down by one or more with every turn of the [while]. *)
Definition turns_left st : nat :=
  length (filter (fun n => n ∉ RSTree.marked st) (RSTree.entries self))
  + length (RSTree.open_list st).

(** What keeps the dict lookups of the loop from failing: a marked node
    has a row in [tree] and is a node of the network. *)
Definition rows_ok st : Prop :=
  (forall n, n ∈ RSTree.marked st ->
     dict_in n (RSTree.tree st) = true /\ dict_in n self = true) /\
  (forall n, n ∈ RSTree.open_list st -> n ∈ RSTree.marked st).

(** A node is closed once its turn of the [while] is over: it is marked
    and no longer open. *)
Definition closed_node st a : Prop :=
  a ∈ RSTree.marked st /\ a ∉ RSTree.open_list st.

(** The invariant of both loops; [hd] says which pairs of nodes have been
    looked at, [cl] which nodes have had all their neighbors visited. *)
Record inv (hd : N -> N -> Prop) (cl : N -> Prop) st : Prop := {
  inv_root : root ∈ RSTree.marked st;
  inv_open : forall n, n ∈ RSTree.open_list st -> n ∈ RSTree.marked st;
  inv_nodup : NoDup (RSTree.open_list st);
  inv_rows : forall n, n ∈ RSTree.marked st ->
               dict_in n (RSTree.tree st) = true;
  inv_reach : forall n, n ∈ RSTree.marked st -> RSTree.reachable self root n;
  inv_class : forall a b, linked a b -> hd a b ->
                RSTree.classified (RSTree.tree st) a b;
  inv_tags : forall a b, is_Some (RSTree.tag (RSTree.tree st) a b) ->
               linked a b /\ hd a b;
  inv_nbrs : forall a b, cl a -> linked a b -> b ∈ RSTree.marked st
}.

(** Between two turns of the [while]. *)
Definition between st : Prop :=
  inv (fun a b => closed_node st a \/ closed_node st b) (closed_node st) st.

(** During the turn of [c], with the neighbors [d] visited so far. *)
Definition handled c d st a b : Prop :=
  (closed_node st a /\ a <> c) \/ (closed_node st b /\ b <> c) \/
  (a = c /\ b ∈ d) \/ (b = c /\ a ∈ d).

Definition during c d st : Prop :=
  c ∈ RSTree.marked st /\ (c ∉ RSTree.open_list st) /\
  (forall n, n ∈ d -> n ∈ RSTree.marked st /\ linked c n) /\
  inv (handled c d st) (fun a => closed_node st a /\ a <> c) st.

(** The tree edges point from parent to child: a node has at most one
    tree edge coming in, the root has none, and every other marked node has
    one. *)
Record parents st : Prop := {
  par_unique : forall a a' b,
    RSTree.tag (RSTree.tree st) a b = Some green ->
    RSTree.tag (RSTree.tree st) a' b = Some green -> a = a';
  par_root : forall a, RSTree.tag (RSTree.tree st) a root <> Some green;
  par_exists : forall n, n ∈ RSTree.marked st -> n <> root ->
    exists a, RSTree.tag (RSTree.tree st) a n = Some green
}.
(** The rows of [tree] that the loop reads are there: every marked node
    has one, and the open nodes are marked. *)
Definition tree_rows st : Prop :=
  (forall n, n ∈ RSTree.marked st -> dict_in n (RSTree.tree st) = true) /\
  (forall n, n ∈ RSTree.open_list st -> n ∈ RSTree.marked st).

(** What the loop has found out so far, on any network: the marked nodes
    can be reached from the root, and a closed node is a node of the
    network all of whose neighbors are marked. *)
Definition explored st : Prop :=
  root ∈ RSTree.marked st /\
  (forall n, n ∈ RSTree.marked st -> RSTree.reachable self root n) /\
  (forall a, closed_node st a ->
     dict_in a self = true /\
     forall b, linked a b -> b ∈ RSTree.marked st).

(** The root, or a node reached from it along neighbor entries, is not a
    node of the network. *)
Definition reaches_missing : Prop :=
  exists n, RSTree.reachable self root n /\ dict_in n self = false.
End RSTreePredicates.

(** ** The four-node ring 0 - 1 - 2 - 3 - 0 as an adjacency dict *)

Definition ring4 : @Network.net Z :=
  [(0, [(1, 1); (3, 1)]); (1, [(0, 1); (2, 1)]);
   (2, [(1, 1); (3, 1)]); (3, [(2, 1); (0, 1)])]%Z.

(** ** Dicts that [Network(fromDict)] takes and that are no graphs *)

(** A link recorded one way only: 1 is in the row of 0, not 0 in that of
    1. *)
Definition one_way : @Network.net Z := [(0, [(1, 1)]); (1, [])]%Z.

(** A neighbor with no row of its own. *)
Definition dangling : @Network.net Z := [(0, [(1, 1)])]%Z.

(** ** Two separate parts, 0 - 1 with a self-link at 0, and 2 - 3 *)

Definition two_parts : @Network.net Z :=
  [(0, [(1, 1); (0, 1)]); (1, [(0, 1)]); (2, [(3, 1)]); (3, [(2, 1)])]%Z.

(** * Properties of the heap *)

Section ListFacts.
Context {A : Type}.
Implicit Types L : list A.

Lemma insert_cons_perm L j x y :
  L !! j = Some y -> y :: <[j:=x]> L ≡ₚ x :: L.
Proof.
  revert j. induction L as [|a L IH]; intros [|j] Hj; simplify_eq/=.
  - apply perm_swap.
  - rewrite (perm_swap a y), (IH _ Hj). apply perm_swap.
Qed.

(** Exchanging two positions keeps the contents. *)
Lemma exchange_perm L i j x y :
  L !! i = Some x -> L !! j = Some y ->
  <[j:=x]> (<[i:=y]> L) ≡ₚ L.
Proof.
  revert i j. induction L as [|a L IH]; intros [|i] [|j] Hi Hj; simplify_eq/=.
  - done.
  - by apply insert_cons_perm.
  - by apply insert_cons_perm.
  - f_equiv. by apply IH.
Qed.

Lemma list_pop_snoc L x : list_pop (L ++ [x]) = Ok (x, L).
Proof. unfold list_pop. by rewrite last_snoc, removelast_last. Qed.

Lemma list_pop_Ok L x L' : list_pop L = Ok (x, L') -> L = L' ++ [x].
Proof.
  unfold list_pop. destruct (last L) as [y|] eqn:E; [|done].
  intros [= <- <-]. apply last_Some in E as [L' ->].
  by rewrite removelast_last.
Qed.
End ListFacts.

Section HeapFacts.
Context {A : Type}.
Variable is_less_than : A -> A -> res bool.
Implicit Types L : list A.

Local Abbreviation up_heapify := (Heap.up_heapify is_less_than).
Local Abbreviation down_heapify := (Heap.down_heapify is_less_than).
Local Abbreviation up_body := (Heap.up_body is_less_than).
Local Abbreviation down_body := (Heap.down_body is_less_than).
Local Abbreviation catches_all := (Heap.catches_all is_less_than).

Lemma up_body_swap L i x y :
  up_body L i = Heap.SwapParent x y ->
  L !! i = Some x /\ L !! Heap.parent i = Some y /\
  is_less_than x y = Ok true.
Proof.
  unfold Heap.up_body.
  destruct (L !! i) as [x'|]; [|done].
  destruct (L !! Heap.parent i) as [y'|]; [|done].
  destruct (is_less_than x' y') as [[]|[]] eqn:E; simpl; try done.
  by intros [= <- <-].
Qed.

Lemma down_body_left L i x y :
  down_body L i = Heap.SwapLeft x y ->
  L !! i = Some x /\ L !! Heap.left_child i = Some y /\
  is_less_than y x = Ok true.
Proof.
  unfold Heap.down_body.
  destruct (L !! Heap.left_child i) as [l|]; [|done].
  destruct (L !! i) as [x'|]; [|done].
  destruct (is_less_than l x') as [[]|[]] eqn:E; simpl; try done.
  - by intros [= <- <-].
  - case_decide; [|done].
    destruct (L !! Heap.right_child i) as [r|]; [|done].
    by destruct (is_less_than r x') as [[]|[]].
Qed.

Lemma down_body_right L i x y :
  down_body L i = Heap.SwapRight x y ->
  L !! i = Some x /\ L !! Heap.right_child i = Some y /\
  is_less_than y x = Ok true /\
  exists l, L !! Heap.left_child i = Some l /\ is_less_than l x = Ok false.
Proof.
  unfold Heap.down_body.
  destruct (L !! Heap.left_child i) as [l|]; [|done].
  destruct (L !! i) as [x'|]; [|done].
  destruct (is_less_than l x') as [[]|[]] eqn:El; simpl; try done.
  case_decide; [|done].
  destruct (L !! Heap.right_child i) as [r|]; [|done].
  destruct (is_less_than r x') as [[]|[]] eqn:Er; simpl; try done.
  intros [= <- <-]. repeat split; eauto.
Qed.

Lemma up_body_throw L i e :
  up_body L i = Heap.Throw e ->
  exists a b, is_less_than a b = Raise e /\ e <> IndexError.
Proof.
  unfold Heap.up_body.
  destruct (L !! i) as [x'|]; [|done].
  destruct (L !! Heap.parent i) as [y'|]; [|done].
  destruct (is_less_than x' y') as [[]|[]] eqn:E; simpl; try done;
    intros [= <-]; exists x', y'; by rewrite E.
Qed.

Lemma down_body_throw L i e :
  down_body L i = Heap.Throw e ->
  exists a b, is_less_than a b = Raise e /\ e <> IndexError.
Proof.
  unfold Heap.down_body.
  destruct (L !! Heap.left_child i) as [l|]; [|done].
  destruct (L !! i) as [x'|]; [|done].
  destruct (is_less_than l x') as [[]|[]] eqn:El; simpl; try done;
    try (intros [= <-]; exists l, x'; by rewrite El).
  case_decide; [|done].
  destruct (L !! Heap.right_child i) as [r|]; [|done].
  destruct (is_less_than r x') as [[]|[]] eqn:Er; simpl; try done;
    intros [= <-]; exists r, x'; by rewrite Er.
Qed.

(** The upward repair only exchanges elements. *)
Lemma up_heapify_perm L i : (up_heapify L i).1 ≡ₚ L.
Proof.
  funelim (Heap.up_heapify is_less_than L i);
    try rewrite <- Heqcall; simpl; try done.
  match goal with IH : _ ≡ₚ _ |- _ => rewrite IH end.
  match goal with E : Heap.up_body _ _ _ = _ |- _ =>
    apply up_body_swap in E as (Hx & Hy & _) end.
  by apply exchange_perm.
Qed.

(** The downward repair only exchanges elements. *)
Lemma down_heapify_perm L i : (down_heapify L i).1 ≡ₚ L.
Proof.
  funelim (Heap.down_heapify is_less_than L i);
    try rewrite <- Heqcall; simpl; try done.
  - match goal with IH : _ ≡ₚ _ |- _ => rewrite IH end.
    match goal with E : Heap.down_body _ _ _ = _ |- _ =>
      apply down_body_left in E as (Hx & Hy & _) end.
    by apply exchange_perm.
  - match goal with IH : _ ≡ₚ _ |- _ => rewrite IH end.
    match goal with E : Heap.down_body _ _ _ = _ |- _ =>
      apply down_body_right in E as (Hx & Hy & _) end.
    by apply exchange_perm.
Qed.

(** With a comparison that raises nothing uncaught, the repairs return. *)
Lemma up_heapify_returns L i :
  catches_all -> (up_heapify L i).2 = Ok tt.
Proof.
  intros Hc.
  funelim (Heap.up_heapify is_less_than L i);
    try rewrite <- Heqcall; simpl; auto.
  match goal with E : Heap.up_body _ _ _ = _ |- _ =>
    apply up_body_throw in E as (a & b & Hab & Hne) end.
  by apply Hc in Hab.
Qed.

Lemma down_heapify_returns L i :
  catches_all -> (down_heapify L i).2 = Ok tt.
Proof.
  intros Hc.
  funelim (Heap.down_heapify is_less_than L i);
    try rewrite <- Heqcall; simpl; auto.
  match goal with E : Heap.down_body _ _ _ = _ |- _ =>
    apply down_body_throw in E as (a & b & Hab & Hne) end.
  by apply Hc in Hab.
Qed.

(** [insert] adds its argument to the contents, whatever the order. *)
Lemma insert_perm L x : (Heap.insert is_less_than x L).1 ≡ₚ x :: L.
Proof.
  unfold Heap.insert. rewrite up_heapify_perm.
  by rewrite Permutation_app_comm.
Qed.

Lemma insert_returns L x :
  catches_all -> (Heap.insert is_less_than x L).2 = Ok tt.
Proof. intros Hc. by apply up_heapify_returns. Qed.

(** [pop] on a non-empty heap: the root is taken out and what is left is
    rearranged. *)
Lemma pop_perm L :
  L <> [] ->
  exists v : A, L !! 0 = Some v /\ L ≡ₚ v :: (Heap.pop is_less_than L).1 /\
    (catches_all -> (Heap.pop is_less_than L).2 = Ok (Some v)).
Proof.
  intros Hne. destruct L as [|v L]; [done|]. exists v. split; [done|].
  unfold Heap.pop. case_decide as H1.
  - destruct L; [|done]. simpl. done.
  - case_decide as H0; [done|]. simpl getitem. cbv iota.
    destruct (list_pop (v :: L)) as [[x L1]|e] eqn:Ep.
    + apply list_pop_Ok in Ep.
      destruct L1 as [|v' L1]; [by destruct L|].
      simpl in Ep. injection Ep as <- ->.
      unfold setitem. simpl. 
      pose proof (down_heapify_perm (x :: L1) 0) as Hp.
      pose proof (down_heapify_returns (x :: L1) 0) as Hr.
      change (<[0:=x]> (v :: L1)) with (x :: L1).
      destruct (down_heapify (x :: L1) 0) as [L3 r]. simpl in *.
      split.
      * destruct r; simpl; f_equiv; rewrite Hp; symmetry;
          apply Permutation_cons_append.
      * intros Hc. by rewrite (Hr Hc).
    + unfold list_pop in Ep.
      destruct (last (v :: L)) eqn:El; [done|]. by apply last_None in El.
Qed.
(** An exception that escapes from the downward repair was raised by the
    comparison of two stored elements, and it is not an [IndexError]. *)
Lemma down_body_throw_elem L i e :
  down_body L i = Heap.Throw e ->
  e <> IndexError /\
  exists a b, a ∈ L /\ b ∈ L /\ is_less_than a b = Raise e.
Proof.
  unfold Heap.down_body.
  destruct (L !! Heap.left_child i) as [l|] eqn:Hl; [|done].
  destruct (L !! i) as [x'|] eqn:Hx; [|done].
  apply list_elem_of_lookup_2 in Hl, Hx.
  destruct (is_less_than l x') as [[]|[]] eqn:El; simpl; try done;
    try (intros [= <-]; split; [done|]; exists l, x'; by rewrite El).
  case_decide; [|done].
  destruct (L !! Heap.right_child i) as [r|] eqn:Hr; [|done].
  apply list_elem_of_lookup_2 in Hr.
  destruct (is_less_than r x') as [[]|[]] eqn:Er; simpl; try done;
    intros [= <-]; (split; [done|]); exists r, x'; by rewrite Er.
Qed.

Lemma down_heapify_raises L i :
  forall e, (down_heapify L i).2 = Raise e ->
  e <> IndexError /\
  exists a b, a ∈ L /\ b ∈ L /\ is_less_than a b = Raise e.
Proof.
  funelim (Heap.down_heapify is_less_than L i);
    try rewrite <- Heqcall; simpl; try done; intros e' He'.
  - match goal with E : Heap.down_body _ _ _ = _ |- _ =>
      apply down_body_left in E as (Hx & Hy & _) end.
    match goal with IH : forall e, _ -> _ |- _ =>
      destruct (IH e' He') as (Hne & a & b & Ha & Hb & Hab) end.
    split; [done|]. exists a, b.
    rewrite (exchange_perm L i (Heap.left_child i) x y Hx Hy) in Ha, Hb.
    done.
  - match goal with E : Heap.down_body _ _ _ = _ |- _ =>
      apply down_body_right in E as (Hx & Hy & _) end.
    match goal with IH : forall e, _ -> _ |- _ =>
      destruct (IH e' He') as (Hne & a & b & Ha & Hb & Hab) end.
    split; [done|]. exists a, b.
    rewrite (exchange_perm L i (Heap.right_child i) x y Hx Hy) in Ha, Hb.
    done.
  - injection He' as <-. by eapply down_body_throw_elem.
Qed.

(** [pop] on a non-empty heap takes the root out, whatever the ordering
    does; it returns the root unless a comparison of two stored elements
    raises something else than [IndexError], which then escapes. *)
Lemma pop_cons v L :
  v :: L ≡ₚ v :: (Heap.pop is_less_than (v :: L)).1 /\
  match (Heap.pop is_less_than (v :: L)).2 with
  | Ok r => r = Some v
  | Raise e =>
    e <> IndexError /\
    exists a b, a ∈ v :: L /\ b ∈ v :: L /\ is_less_than a b = Raise e
  end.
Proof.
  destruct (pop_perm (v :: L)) as (v' & [= <-] & Hp & _); [done|].
  split; [done|]. clear Hp.
  unfold Heap.pop. case_decide as H1.
  - destruct L; [|done]. done.
  - case_decide as H0; [done|]. simpl getitem. cbv iota.
    destruct (list_pop (v :: L)) as [[x L1]|e] eqn:Ep.
    + apply list_pop_Ok in Ep.
      destruct L1 as [|v' L1]; [by destruct L|].
      simpl in Ep. injection Ep as <- ->.
      unfold setitem. simpl.
      change (<[0:=x]> (v :: L1)) with (x :: L1).
      pose proof (down_heapify_raises (x :: L1) 0) as Hr.
      destruct (down_heapify (x :: L1) 0) as [L3 [[]|e]]; simpl in *; [done|].
      destruct (Hr e eq_refl) as (Hne & a & b & Ha & Hb & Hab).
      split; [done|]. exists a, b.
      assert (Hsub : forall c, c ∈ x :: L1 -> c ∈ v :: L1 ++ [x]).
      { intros c [->|Hc]%elem_of_cons.
        - right. apply elem_of_app. right. left.
        - right. apply elem_of_app. by left. }
      auto.
    + unfold list_pop in Ep.
      destruct (last (v :: L)) eqn:El; [done|]. by apply last_None in El.
Qed.
End HeapFacts.

(** C10, as amended: [insert(x)] makes the contents the old contents plus
    [x], whatever the ordering does. [pop] on the empty heap returns
    [None]; on a non-empty heap it takes the root [v] out, so that the
    contents afterwards are the old ones less one occurrence of [v], and
    it returns [v], unless the comparison of two stored elements raises
    something else than [IndexError]: that exception escapes and no value
    is returned. Contents are compared as multisets (permutations). *)
Theorem heap_contents_insert_pop {A : Type}
    (is_less_than : A -> A -> res bool) (L : list A) (x : A) :
  (Heap.insert is_less_than x L).1 ≡ₚ x :: L /\
  match L with
  | [] => Heap.pop is_less_than L = ([], Ok None)
  | v :: _ =>
    v ∈ L /\ L ≡ₚ v :: (Heap.pop is_less_than L).1 /\
    match (Heap.pop is_less_than L).2 with
    | Ok r => r = Some v
    | Raise e =>
      e <> IndexError /\
      exists a b, a ∈ L /\ b ∈ L /\ is_less_than a b = Raise e
    end
  end.
Proof.
  split; [apply insert_perm|].
  destruct L as [|v L]; [done|].
  destruct (pop_cons is_less_than v L) as [Hp Hr].
  split; [left|]. by split.
Qed.

(** C10, as stated, fails between elements that cannot be compared: the
    list [[1, 'a', 2]] is what the inserts of [1], ['a'] and [2] leave
    (the second one raises after the append), and [pop] on it raises
    [TypeError] with the root 1 already taken out, so that no value is
    returned. *)
Lemma heap_pop_incomparable_counterexample :
  (Heap.insert value_lt (VInt 2)
     (Heap.insert value_lt (VStr "a")
        (Heap.insert value_lt (VInt 1) []).1).1).1
  = [VInt 1; VStr "a"; VInt 2] /\
  Heap.pop value_lt [VInt 1; VStr "a"; VInt 2]
  = ([VInt 2; VStr "a"], Raise TypeError) /\
  ~ (exists v, v ∈ [VInt 1; VStr "a"; VInt 2] /\
       (Heap.pop value_lt [VInt 1; VStr "a"; VInt 2]).2 = Ok (Some v)).
Proof.
  assert (Hpop : Heap.pop value_lt [VInt 1; VStr "a"; VInt 2]
                 = ([VInt 2; VStr "a"], Raise TypeError))
    by (vm_compute; reflexivity).
  split; [vm_compute; reflexivity|]. split; [done|].
  rewrite Hpop. by intros (v & _ & ?).
Qed.

(** C8: the tuples [(3,'x')], [(1,'y')], [(2,'z')] inserted into an empty
    [HeapOfTuples] ordered on position 0; two pops return [(1,'y')] and then
    [(2,'z')]. *)
Theorem keyed_heap_example :
  HeapOfTuples.run 0
    [Heap.Insert [VInt 3; VStr "x"]; Heap.Insert [VInt 1; VStr "y"];
     Heap.Insert [VInt 2; VStr "z"]; Heap.Pop; Heap.Pop] [] []
  = ([[VInt 3; VStr "x"]],
     Ok [Some [VInt 1; VStr "y"]; Some [VInt 2; VStr "z"]]).
Proof. vm_compute. reflexivity. Qed.

(** C3, at the failing input: 0, 2, 1, 3 inserted into an empty [Heap] and
    popped until empty come out as 0, 2, 1, 3, which is not ascending; the
    second pop returns 2 while 1 is stored. After the first pop the last
    element 3 is at the root, [down_heapify] finds the left child 2 smaller
    and exchanges with it without looking at the right child 1. *)
Theorem pop_order_failing_input :
  Heap.insert_all int_less_than [0; 2; 1; 3]%Z [] = ([0; 2; 1; 3]%Z, Ok tt) /\
  Heap.pop_all int_less_than 4 [0; 2; 1; 3]%Z []
    = Some ([], Ok [Some 0; Some 2; Some 1; Some 3]%Z) /\
  Heap.pop int_less_than [2; 3; 1]%Z = ([1; 3]%Z, Ok (Some 2%Z)).
Proof. vm_compute. auto. Qed.

(** C4, at the failing input: after inserting 0, 2, 1, 3 and popping once
    the list is [2, 3, 1], where position 2 holds 1 below its parent 2 at
    position 0. *)
Theorem heap_invariant_failing_input :
  Heap.run int_less_than
    [Heap.Insert 0; Heap.Insert 2; Heap.Insert 1; Heap.Insert 3; Heap.Pop]%Z
    [] []
  = ([2; 3; 1]%Z, Ok [Some 0%Z]) /\
  ~ Heap.heap_ordered int_less_than [2; 3; 1]%Z /\
  Heap.heap_orderedb int_less_than [2; 3; 1]%Z = false.
Proof.
  split; [by vm_compute|]. split; [|by vm_compute].
  intros Hord. by apply (Hord 2 1%Z 2%Z); [lia| | |].
Qed.

(** * Properties of dicts *)

Section DictFacts.
Context {K V : Type} `{EqDecision K}.
Implicit Types d : list (K * V).

Lemma dict_get_set_eq d k v : dict_get (dict_set d k v) k = Some v.
Proof.
  induction d as [|[k' v'] d IH]; simpl.
  - by rewrite decide_True.
  - destruct (decide (k = k')) as [->|Hne]; simpl.
    + by rewrite decide_True.
    + by rewrite decide_False.
Qed.

Lemma dict_get_set_ne d k k' v :
  k <> k' -> dict_get (dict_set d k v) k' = dict_get d k'.
Proof.
  intros Hne. induction d as [|[k0 v0] d IH]; simpl.
  - by rewrite decide_False.
  - destruct (decide (k = k0)) as [->|Hne0]; simpl.
    + by rewrite !decide_False.
    + destruct (decide (k' = k0)); auto.
Qed.

Lemma dict_get_set d k k' v :
  dict_get (dict_set d k v) k' =
  if decide (k = k') then Some v else dict_get d k'.
Proof.
  case_decide as E.
  - subst. apply dict_get_set_eq.
  - by apply dict_get_set_ne.
Qed.

Lemma dict_get_remove d k k' :
  dict_get (filter (fun kv => kv.1 <> k) d) k' =
  if decide (k' = k) then None else dict_get d k'.
Proof.
  induction d as [|[k0 v0] d IH]; simpl.
  - by case_decide.
  - rewrite filter_cons. simpl.
    destruct (decide (k0 <> k)) as [Hne|Heq]; simpl.
    + rewrite IH. repeat case_decide; congruence.
    + apply dec_stable in Heq. subst k0. rewrite IH.
      repeat case_decide; congruence.
Qed.

Lemma dict_in_true k d : dict_in k d = true <-> is_Some (dict_get d k).
Proof.
  unfold dict_in. destruct (dict_get d k); split; try done; eauto.
Qed.

Lemma dict_in_false k d : dict_in k d = false <-> dict_get d k = None.
Proof. unfold dict_in. by destruct (dict_get d k). Qed.

Lemma dict_get_Some_elem d k v : dict_get d k = Some v -> (k, v) ∈ d.
Proof.
  induction d as [|[k0 v0] d IH]; simpl; [done|].
  case_decide as E.
  - intros [= ->]. subst. left.
  - intros Hg. right. auto.
Qed.

Lemma dict_get_None_keys d k : dict_get d k = None <-> k ∉ dict_keys d.
Proof.
  unfold dict_keys. induction d as [|[k0 v0] d IH]; simpl.
  - split; [intros _; apply not_elem_of_nil | done].
  - rewrite not_elem_of_cons. case_decide as E; [|tauto].
    split; [done|]. intros [Hne _]. done.
Qed.

Lemma dict_in_keys d k : dict_in k d = true <-> k ∈ dict_keys d.
Proof.
  destruct (dict_in k d) eqn:E.
  - split; [intros _|done].
    destruct (decide (k ∈ dict_keys d)) as [|Hn]; [done|].
    apply dict_get_None_keys, dict_in_false in Hn. congruence.
  - split; [done|]. intros Hin.
    apply dict_in_false, dict_get_None_keys in E. done.
Qed.
End DictFacts.

(** * Properties of the network *)

Section NetworkFacts.
Context {N : Type} `{EqDecision N}.
Implicit Types self : @Network.net N.

Local Ltac run_monad :=
  unfold Network.add_link, Network.del_link, Network.add_node,
    Network.set_weight, Network.del_weight, Network.find_neighbors,
    bind, get, put, lift, ret; simpl.

(** [add_node] returns [None]; a new node gets an empty row at the end. *)
Lemma add_node_eq node self :
  Network.add_node node self =
  (Ok PyNone, if dict_in node self then self else dict_set self node []).
Proof. run_monad. by destruct (dict_in node self). Qed.

(** [add_link] stops at its first test: [add_node] returned [None], so
    [not self.add_node(node1)] holds and the method returns [-1]. *)
Lemma add_link_eq node1 node2 self :
  Network.add_link node1 node2 self =
  (Ok (PyInt (-1)), (Network.add_node node1 self).2).
Proof. run_monad. by destruct (dict_in node1 self). Qed.

Lemma weight_add_node node self a b :
  Network.weight (Network.add_node node self).2 a b = Network.weight self a b.
Proof.
  rewrite add_node_eq. simpl.
  destruct (dict_in node self) eqn:E; [done|].
  apply dict_in_false in E. unfold Network.weight.
  rewrite dict_get_set. case_decide as Ea; [|done].
  subst. by rewrite E.
Qed.

(** What a successful [del self._net[a][b]] does to the weights. *)
Lemma weight_del_weight a b self self' x y :
  Network.del_weight a b self = (Ok tt, self') ->
  is_Some (Network.weight self a b) /\
  Network.weight self' x y =
    if decide (x = a /\ y = b) then None else Network.weight self x y.
Proof.
  run_monad. unfold dict_getitem, dict_delitem, Network.weight.
  destruct (dict_get self a) as [row|] eqn:Ea; simpl; [|done].
  destruct (dict_in b row) eqn:Eb; simpl; [|done].
  intros [= <-]. split; [by apply dict_in_true|].
  rewrite dict_get_set. destruct (decide (a = x)) as [<-|Hne].
  - rewrite Ea, dict_get_remove.
    destruct (decide (y = b)) as [->|Hy].
    + by rewrite decide_True.
    + rewrite decide_False; [done|]. by intros [_ ?].
  - rewrite decide_False; [done|]. by intros [-> _].
Qed.

Lemma del_link_Ok a b self r self' :
  Network.del_link a b self = (Ok r, self') ->
  exists self1,
    Network.del_weight a b self = (Ok tt, self1) /\
    Network.del_weight b a self1 = (Ok tt, self').
Proof.
  unfold Network.del_link, bind at 1.
  destruct (Network.del_weight a b self) as [[[]|e] self1] eqn:E1; [|done].
  unfold bind at 1.
  destruct (Network.del_weight b a self1) as [[[]|e] self2] eqn:E2; [|done].
  unfold ret. intros [= <- <-]. eauto.
Qed.

(** Each call that returns keeps the adjacency symmetric. *)
Lemma do_call_symmetric c self r self' :
  Network.do_call c self = (Ok r, self') ->
  Network.symmetric self -> Network.symmetric self'.
Proof.
  intros Hc Hs a b w. destruct c as [n|n1 n2|n1 n2]; simpl in Hc.
  - assert (self' = (Network.add_node n self).2) as -> by by rewrite Hc.
    rewrite !weight_add_node. apply Hs.
  - rewrite add_link_eq in Hc. injection Hc as _ <-.
    rewrite !weight_add_node. apply Hs.
  - apply del_link_Ok in Hc as (self1 & H1 & H2).
    destruct (weight_del_weight _ _ _ _ a b H2) as [[w2 Hw2] Hab].
    destruct (weight_del_weight _ _ _ _ b a H2) as [_ Hba].
    rewrite Hab, Hba.
    destruct (weight_del_weight _ _ _ _ a b H1) as [_ Hab1].
    destruct (weight_del_weight _ _ _ _ b a H1) as [_ Hba1].
    destruct (weight_del_weight _ _ _ _ n2 n1 H1) as [_ H21].
    rewrite Hab1, Hba1. rewrite H21 in Hw2.
    repeat case_decide; try apply Hs; try done; destruct_and?; subst; tauto.
Qed.

(** A run that returns keeps the adjacency symmetric. *)
Lemma run_symmetric calls self self' :
  Network.run calls self = (Ok tt, self') ->
  Network.symmetric self -> Network.symmetric self'.
Proof.
  revert self. induction calls as [|c calls IH]; intros self; simpl.
  - by intros [= <-].
  - unfold bind at 1.
    destruct (Network.do_call c self) as [[r|e] self1] eqn:Ec; [|done].
    intros Hrun Hs. apply (IH _ Hrun). by eapply do_call_symmetric.
Qed.

Lemma symmetric_empty : Network.symmetric (Network.init (N:=N) None).
Proof. intros a b w. done. Qed.

(** No call makes a link where there was none: [add_link] stops before it
    writes, and [del_link] needs a link to return. *)
Lemma do_call_no_link c self r self' :
  Network.do_call c self = (Ok r, self') ->
  (forall a b, Network.weight self a b = None) ->
  forall a b, Network.weight self' a b = None.
Proof.
  intros Hc Hnone a b. destruct c as [n|n1 n2|n1 n2]; simpl in Hc.
  - assert (self' = (Network.add_node n self).2) as -> by by rewrite Hc.
    by rewrite weight_add_node.
  - rewrite add_link_eq in Hc. injection Hc as _ <-.
    by rewrite weight_add_node.
  - apply del_link_Ok in Hc as (self1 & H1 & _).
    destruct (weight_del_weight _ _ _ _ a b H1) as [[w Hw] _].
    by rewrite Hnone in Hw.
Qed.

(** A network built from empty through the three methods has no link. *)
Lemma run_no_link calls self :
  Network.run calls (Network.init None) = (Ok tt, self) ->
  forall a b, Network.weight self a b = None.
Proof.
  assert (Hgen : forall self0,
    (forall a b, Network.weight self0 a b = None) ->
    Network.run calls self0 = (Ok tt, self) ->
    forall a b, Network.weight self a b = None).
  { induction calls as [|c calls IH]; intros self0 Hnone; simpl.
    - by intros [= <-].
    - unfold bind at 1.
      destruct (Network.do_call c self0) as [[r|e] self1] eqn:Ec; [|done].
      apply IH. by eapply do_call_no_link. }
  intros Hrun. by apply (Hgen (Network.init None)).
Qed.

Lemma weight_Some_keys self a b w :
  Network.weight self a b = Some w ->
  a ∈ dict_keys self /\
  exists row, dict_get self a = Some row /\ b ∈ dict_keys row.
Proof.
  unfold Network.weight. destruct (dict_get self a) as [row|] eqn:Ea; [|done].
  intros Hb. split.
  - apply dict_in_keys, dict_in_true. eauto.
  - exists row. split; [done|]. apply dict_in_keys, dict_in_true. eauto.
Qed.

Lemma symmetricb_sound self :
  Network.symmetricb self = true -> Network.symmetric self.
Proof.
  intros Hb.
  assert (Hhalf : forall a b w,
    Network.weight self a b = Some w -> Network.weight self b a = Some w).
  { intros a b w Hw.
    destruct (weight_Some_keys _ _ _ _ Hw) as (Ha & row & Hrow & Hb').
    unfold Network.symmetricb in Hb.
    rewrite forallb_forall in Hb.
    apply list_elem_of_In, Hb in Ha. rewrite Hrow in Ha.
    rewrite forallb_forall in Ha.
    apply list_elem_of_In, Ha, bool_decide_eq_true in Hb'. congruence. }
  intros a b w. split; apply Hhalf.
Qed.

Lemma no_self_linksb_sound self :
  RSTree.no_self_linksb self = true -> RSTree.no_self_links self.
Proof.
  intros Hb a. unfold RSTree.no_self_linksb in Hb.
  rewrite forallb_forall in Hb.
  destruct (Network.weight self a a) as [w|] eqn:Hw; [|done].
  destruct (weight_Some_keys _ _ _ _ Hw) as (Ha & _).
  apply list_elem_of_In, Hb, bool_decide_eq_true in Ha. congruence.
Qed.
End NetworkFacts.

(** C6: a network built from empty by [add_node], [add_link] and [del_link]
    calls that all returned has a symmetric adjacency: [a] is in the row of
    [b] with weight [w] exactly when [b] is in the row of [a] with weight
    [w]. *)
Theorem network_symmetry {N : Type} `{EqDecision N}
    (calls : list (@Network.call N)) (self : Network.net) :
  Network.run calls (Network.init None) = (Ok tt, self) ->
  forall a b w,
    Network.weight self b a = Some w <-> Network.weight self a b = Some w.
Proof.
  intros Hrun a b w.
  apply (run_symmetric _ _ _ Hrun symmetric_empty).
Qed.

Lemma network_symmetry_witness :
  Network.run [Network.AddNode 1%Z; Network.AddLink 1%Z 2%Z; Network.AddNode 3%Z]
    (Network.init None) = (Ok tt, [(1%Z, []); (3%Z, [])]) /\
  forall a b w,
    Network.weight [(1%Z, []); (3%Z, [])] b a = Some w <->
    Network.weight [(1%Z, []); (3%Z, [])] a b = Some w.
Proof.
  assert (Hrun : Network.run
    [Network.AddNode 1%Z; Network.AddLink 1%Z 2%Z; Network.AddNode 3%Z]
    (Network.init None) = (Ok tt, [(1%Z, []); (3%Z, [])])) by reflexivity.
  exact (conj Hrun (network_symmetry _ _ Hrun)).
Defined.

(** C1, at the failing input: [add_link(1, 2)] on the empty network returns
    [-1] after creating node 1 only; node 2 does not exist and neither row
    maps the other to a weight. *)
Theorem add_link_failing_input :
  Network.add_link 1%Z 2%Z (Network.init None) = (Ok (PyInt (-1)), [(1%Z, [])]) /\
  dict_in 2%Z (Network.add_link 1%Z 2%Z (Network.init None)).2 = false /\
  Network.weight (Network.add_link 1%Z 2%Z (Network.init None)).2 1%Z 2%Z = None /\
  Network.weight (Network.add_link 1%Z 2%Z (Network.init None)).2 2%Z 1%Z = None.
Proof. by vm_compute. Qed.

(** C2, at the failing input: after the one call [add_link(0, 1)] on the
    empty network [link_count] is 0, not 1. *)
Theorem link_count_failing_input :
  (Network.run [Network.AddLink 0%Z 1%Z] ;;; Network.link_count)
    (Network.init None) = (Ok 0%Z, [(0%Z, [])]).
Proof. by vm_compute. Qed.

(** * Properties of the rooted spanning tree *)

Section RSTreeFacts.
Context {N : Type} `{EqDecision N}.
Implicit Types (self : @Network.net N) (tr : @RSTree.tree_t N).
Implicit Types (st : @RSTree.locals N) (a b c n : N).

(** ** Unfolding the loops *)

Lemma find_neighbors_eq n self :
  Network.find_neighbors n self =
  match dict_get self n with
  | Some row => (Ok (dict_keys row), self)
  | None => (Raise KeyError, self)
  end.
Proof.
  unfold Network.find_neighbors, bind, get, lift, ret, dict_getitem.
  by destruct (dict_get self n).
Qed.

Lemma while_open_nil fuel st self :
  RSTree.open_list st = [] ->
  RSTree.while_open fuel st self = (Ok (Some st), self).
Proof. intros E. destruct fuel; simpl; by rewrite E. Qed.

Lemma while_open_cons fuel st self c rest :
  RSTree.open_list st = c :: rest ->
  RSTree.while_open (S fuel) st self =
  match dict_get self c with
  | None => (Raise KeyError, self)
  | Some row =>
    match RSTree.for_neighbors c (dict_keys row)
            {| RSTree.tree := RSTree.tree st;
               RSTree.marked := RSTree.marked st;
               RSTree.open_list := rest |} with
    | Ok st' => RSTree.while_open fuel st' self
    | Raise e => (Raise e, self)
    end
  end.
Proof.
  intros E. simpl. rewrite E. unfold bind at 1. rewrite find_neighbors_eq.
  destruct (dict_get self c) as [row|]; [|done].
  unfold bind, lift.
  by destruct (RSTree.for_neighbors _ _ _).
Qed.

Lemma for_neighbors_app c l1 l2 st :
  RSTree.for_neighbors c (l1 ++ l2) st =
  rbind (RSTree.for_neighbors c l1 st) (RSTree.for_neighbors c l2).
Proof.
  revert st. induction l1 as [|n l1 IH]; intros st; simpl; [done|].
  destruct (RSTree.visit c n st); simpl; auto.
Qed.

(** ** The network is only read *)

Lemma while_open_state fuel st self :
  (RSTree.while_open fuel st self).2 = self.
Proof.
  revert st. induction fuel as [|fuel IH]; intros st.
  - simpl. by destruct (RSTree.open_list st).
  - destruct (RSTree.open_list st) as [|c rest] eqn:E.
    + by rewrite while_open_nil.
    + rewrite (while_open_cons _ _ _ _ _ E).
      destruct (dict_get self c); [|done].
      destruct (RSTree.for_neighbors _ _ _); [apply IH | done].
Qed.

Lemma init_eq fuel root self :
  RSTree.init fuel root self =
  let st0 := {| RSTree.tree := [(root, [])]; RSTree.marked := [root];
                RSTree.open_list := [root] |} in
  match (RSTree.while_open fuel st0 self).1 with
  | Ok (Some st) =>
    (Ok (Some {| RSTree.root := root; RSTree.network := self;
                 RSTree._po_map := None; RSTree._max_po_map := None;
                 RSTree._desc_map := None; RSTree._min_po_map := None;
                 RSTree._tree := RSTree.tree st |}), self)
  | Ok None => (Ok None, self)
  | Raise e => (Raise e, self)
  end.
Proof.
  unfold RSTree.init, bind, get, ret. simpl.
  pose proof (while_open_state fuel
    {| RSTree.tree := [(root, [])]; RSTree.marked := [root];
       RSTree.open_list := [root] |} self) as Hs.
  destruct (RSTree.while_open _ _ _) as [[[st|]|e] self']; simpl in *;
    by subst.
Qed.
End RSTreeFacts.

(** C9: building an [RSTree] leaves the adjacency of the network as it was,
    whether the build returns or raises, and the [network] field of the new
    object is that unchanged network. *)
Theorem rstree_reads_only {N : Type} `{EqDecision N}
    (fuel : nat) (root : N) (self : Network.net) :
  (RSTree.init fuel root self).2 = self /\
  match (RSTree.init fuel root self).1 with
  | Ok (Some t) => RSTree.network t = self
  | _ => True
  end.
Proof.
  rewrite init_eq. simpl.
  by destruct (RSTree.while_open _ _ _).1 as [[st|]|e].
Qed.

Section TreeFacts.
Context {N : Type} `{EqDecision N}.
Implicit Types (tr : @RSTree.tree_t N) (a b x y : N).

Lemma dict_in_set {V : Type} (d : list (N * V)) a v x :
  dict_in x (dict_set d a v) = true <-> x = a \/ dict_in x d = true.
Proof.
  rewrite !dict_in_true, dict_get_set. case_decide as E.
  - subst. split; eauto.
  - split; [auto|]. intros [->|]; [done|auto].
Qed.

Lemma tag_set_row tr a row b col x y :
  dict_get tr a = Some row ->
  RSTree.tag (dict_set tr a (dict_set row b col)) x y =
  if decide (x = a /\ y = b) then Some col else RSTree.tag tr x y.
Proof.
  intros Ha. unfold RSTree.tag. rewrite dict_get_set.
  destruct (decide (a = x)) as [<-|Hne].
  - rewrite Ha, dict_get_set.
    destruct (decide (b = y)) as [<-|Hne].
    + by rewrite decide_True.
    + rewrite decide_False; [done|]. by intros [_ ->].
  - rewrite decide_False; [done|]. by intros [-> _].
Qed.

Lemma tag_new_row tr a x y :
  dict_in a tr = false ->
  RSTree.tag (dict_set tr a []) x y = RSTree.tag tr x y.
Proof.
  intros Ha. apply dict_in_false in Ha. unfold RSTree.tag.
  rewrite dict_get_set. case_decide as E; [|done].
  subst. by rewrite Ha.
Qed.

Lemma tag_ensure_row tr a x y :
  RSTree.tag (ensure_row tr a) x y = RSTree.tag tr x y.
Proof.
  unfold ensure_row. destruct (dict_in a tr) eqn:E; simpl; [done|].
  by apply tag_new_row.
Qed.

Lemma dict_in_ensure_row tr a x :
  dict_in x (ensure_row tr a) = true <-> x = a \/ dict_in x tr = true.
Proof.
  unfold ensure_row. destruct (dict_in a tr) eqn:E; simpl.
  - split; [auto|]. by intros [->|].
  - apply dict_in_set.
Qed.

(** The inner [add_link] always returns; it writes the tag in one
    direction, and for ['red'] in the other too. *)
Lemma tree_add_link_spec tr a b col :
  exists tr', RSTree.add_link tr a b col = Ok tr' /\
    (forall x y, RSTree.tag tr' x y =
       if decide ((x = a /\ y = b) \/ (col = red /\ x = b /\ y = a))
       then Some col else RSTree.tag tr x y) /\
    (forall x, dict_in x tr' = true <->
       x = a \/ x = b \/ dict_in x tr = true).
Proof.
  unfold RSTree.add_link.
  change (if negb (dict_in a tr) then dict_set tr a [] else tr)
    with (ensure_row tr a).
  set (tr1 := ensure_row tr a).
  change (if negb (dict_in b tr1) then dict_set tr1 b [] else tr1)
    with (ensure_row tr1 b).
  set (tr2 := ensure_row tr1 b).
  assert (Hin2 : forall x, dict_in x tr2 = true <->
            x = a \/ x = b \/ dict_in x tr = true).
  { intros x. unfold tr2, tr1. rewrite !dict_in_ensure_row. tauto. }
  assert (Htag2 : forall x y, RSTree.tag tr2 x y = RSTree.tag tr x y).
  { intros x y. unfold tr2, tr1. by rewrite !tag_ensure_row. }
  destruct (dict_get tr2 a) as [row1|] eqn:E1; cycle 1.
  { apply dict_in_false in E1. specialize (Hin2 a).
    rewrite E1 in Hin2. destruct Hin2 as [_ Hin2].
    discriminate Hin2. by left. }
  unfold dict_getitem at 1. rewrite E1. simpl.
  set (tr3 := dict_set tr2 a (dict_set row1 b col)).
  assert (Hin3 : forall x, dict_in x tr3 = true <->
            x = a \/ x = b \/ dict_in x tr = true).
  { intros x. unfold tr3. rewrite dict_in_set, Hin2. tauto. }
  assert (Htag3 : forall x y, RSTree.tag tr3 x y =
            if decide (x = a /\ y = b) then Some col else RSTree.tag tr x y).
  { intros x y. unfold tr3. rewrite (tag_set_row _ _ _ _ _ _ _ E1).
    by rewrite Htag2. }
  destruct (decide (col = red)) as [->|Hcol].
  - destruct (dict_get tr3 b) as [row2|] eqn:E2; cycle 1.
    { apply dict_in_false in E2. specialize (Hin3 b).
      rewrite E2 in Hin3. destruct Hin3 as [_ Hin3].
      discriminate Hin3. auto. }
    unfold dict_getitem. rewrite E2. simpl. eexists. split; [done|]. split.
    + intros x y. rewrite (tag_set_row _ _ _ _ _ _ _ E2), Htag3.
      repeat case_decide; try done; exfalso; intuition congruence.
    + intros x. rewrite dict_in_set, Hin3. tauto.
  - exists tr3. split; [done|]. split; [|done].
    intros x y. rewrite Htag3.
    repeat case_decide; try done; exfalso; intuition congruence.
Qed.
End TreeFacts.

Section RSTreeRuns.
Context {N : Type} `{EqDecision N}.
Variable self : @Network.net N.
Implicit Types (st : @RSTree.locals N) (a b c n : N).

Local Abbreviation linked := (linked self).
Local Abbreviation turns_left := (turns_left self).

Lemma linked_keys c row n :
  dict_get self c = Some row -> n ∈ dict_keys row <-> linked c n.
Proof.
  intros Hc. unfold linked, Network.weight. rewrite Hc.
  by rewrite <- dict_in_keys, dict_in_true.
Qed.

Lemma linked_entries a b : linked a b -> b ∈ RSTree.entries self.
Proof.
  unfold linked, Network.weight.
  destruct (dict_get self a) as [row|] eqn:Ea; [|by intros [? ?]].
  intros Hb. apply dict_in_true, dict_in_keys in Hb.
  apply list_elem_of_bind. exists (a, row). split; [done|].
  by apply dict_get_Some_elem.
Qed.

Lemma unmarked_shrinks (marked : list N) n (U : list N) :
  n ∈ U -> n ∉ marked ->
  length (filter (fun x => x ∉ marked ++ [n]) U)
  < length (filter (fun x => x ∉ marked) U).
Proof.
  intros HU Hn.
  rewrite (list_filter_iff (fun x => x ∉ marked ++ [n])
             (fun x => x <> n /\ x ∉ marked)); cycle 1.
  { intros x. rewrite not_elem_of_app, list_elem_of_singleton. tauto. }
  rewrite <- list_filter_filter.
  apply (length_filter_lt _ _ n).
  - by apply list_elem_of_filter.
  - by intros [].
Qed.

Lemma visit_turns_left c n st st' :
  RSTree.visit c n st = Ok st' -> n ∈ RSTree.entries self ->
  turns_left st' <= turns_left st.
Proof.
  unfold RSTree.visit, turns_left. intros Hv HU.
  destruct (bool_decide (n ∈ RSTree.marked st)) eqn:Em; simpl in Hv.
  - assert (RSTree.marked st' = RSTree.marked st /\
            RSTree.open_list st' = RSTree.open_list st) as [-> ->]; [|done].
    destruct (dict_getitem (RSTree.tree st) c) as [row_c|]; simpl in Hv; [|done].
    destruct (dict_in n row_c); simpl in Hv; [by injection Hv as <-|].
    destruct (dict_getitem (RSTree.tree st) n) as [row_n|]; simpl in Hv; [|done].
    destruct (dict_in c row_n); simpl in Hv; [by injection Hv as <-|].
    destruct (RSTree.add_link _ _ _ _); simpl in Hv; [|done].
    by injection Hv as <-.
  - apply bool_decide_eq_false in Em.
    destruct (RSTree.add_link _ _ _ _); simpl in Hv; [|done].
    injection Hv as <-. simpl. rewrite length_app. simpl.
    pose proof (unmarked_shrinks _ _ _ HU Em). lia.
Qed.

Lemma for_neighbors_turns_left c l st st' :
  RSTree.for_neighbors c l st = Ok st' ->
  (forall n, n ∈ l -> n ∈ RSTree.entries self) ->
  turns_left st' <= turns_left st.
Proof.
  revert st. induction l as [|n l IH]; intros st; simpl.
  - by intros [= <-].
  - destruct (RSTree.visit c n st) as [st1|] eqn:Ev; simpl; [|done].
    intros Hl HU. etrans; [eapply IH; eauto|].
    + intros m Hm. apply HU. by right.
    + eapply visit_turns_left; [done|]. apply HU. by left.
Qed.

(** With as many turns allowed as are left, the loop ends by itself. *)
Lemma while_open_fuel fuel st :
  turns_left st <= fuel ->
  (RSTree.while_open fuel st self).1 <> Ok None.
Proof.
  revert st. induction fuel as [|fuel IH]; intros st Hle.
  - destruct (RSTree.open_list st) as [|c rest] eqn:E.
    + by rewrite while_open_nil.
    + unfold turns_left in Hle. rewrite E in Hle. simpl in Hle. lia.
  - destruct (RSTree.open_list st) as [|c rest] eqn:E.
    + by rewrite while_open_nil.
    + rewrite (while_open_cons _ _ _ _ _ E).
      destruct (dict_get self c) as [row|] eqn:Ec; [|done].
      destruct (RSTree.for_neighbors _ _ _) as [st'|] eqn:Ef; [|done].
      apply IH. apply for_neighbors_turns_left in Ef.
      * unfold turns_left in *. rewrite E in Hle. simpl in *. lia.
      * intros n Hn. eapply linked_entries, linked_keys; eauto.
Qed.

Lemma turns_left_init root :
  turns_left {| RSTree.tree := [(root, [])]; RSTree.marked := [root];
                RSTree.open_list := [root] |} <= RSTree.enough self.
Proof.
  unfold turns_left, RSTree.enough. simpl.
  pose proof (length_filter (fun n => n ∉ [root]) (RSTree.entries self)).
  lia.
Qed.
End RSTreeRuns.

Section RSTreeReturns.
Context {N : Type} `{EqDecision N}.
Variable self : @Network.net N.
Implicit Types (st : @RSTree.locals N) (a b c n : N).

Local Abbreviation closed := (closed self).
Local Abbreviation rows_ok := (rows_ok self).

Lemma symmetric_closed : Network.symmetric self -> closed.
Proof.
  intros Hs a b [w Hw]. apply Hs in Hw. apply dict_in_true.
  unfold Network.weight in Hw. by destruct (dict_get self b).
Qed.

Lemma visit_returns c n st :
  rows_ok st -> c ∈ RSTree.marked st -> dict_in n self = true ->
  exists st', RSTree.visit c n st = Ok st' /\ rows_ok st' /\
    c ∈ RSTree.marked st'.
Proof.
  intros [Hrows Hopen] Hc Hn. unfold RSTree.visit.
  destruct (bool_decide (n ∈ RSTree.marked st)) eqn:Em; simpl.
  - apply bool_decide_eq_true in Em.
    destruct (Hrows c Hc) as [Hc1 _]. destruct (Hrows n Em) as [Hn1 _].
    apply dict_in_true in Hc1 as [row_c Hc1].
    apply dict_in_true in Hn1 as [row_n Hn1].
    unfold dict_getitem. rewrite Hc1. simpl.
    destruct (dict_in n row_c); simpl; [by exists st|].
    rewrite Hn1. simpl.
    destruct (dict_in c row_n); simpl; [by exists st|].
    destruct (tree_add_link_spec (RSTree.tree st) c n red)
      as (tr' & -> & _ & Hin).
    simpl. eexists. split; [done|]. split; [|done].
    split; simpl; [|done].
    intros m Hm. destruct (Hrows m Hm). split; [|done].
    apply Hin. auto.
  - apply bool_decide_eq_false in Em.
    destruct (tree_add_link_spec (RSTree.tree st) c n green)
      as (tr' & -> & _ & Hin).
    simpl. eexists. split; [done|]. split.
    + split; simpl.
      * intros m [Hm| ->%list_elem_of_singleton]%elem_of_app.
        -- destruct (Hrows m Hm). split; [|done]. apply Hin. auto.
        -- split; [|done]. apply Hin. auto.
      * intros m [Hm| ->%list_elem_of_singleton]%elem_of_app;
          apply elem_of_app; auto. right. by apply list_elem_of_singleton.
    + simpl. apply elem_of_app. auto.
Qed.

Lemma for_neighbors_returns c l st :
  rows_ok st -> c ∈ RSTree.marked st ->
  (forall n, n ∈ l -> dict_in n self = true) ->
  exists st', RSTree.for_neighbors c l st = Ok st' /\ rows_ok st'.
Proof.
  revert st. induction l as [|n l IH]; intros st Hok Hc Hl; simpl.
  - by exists st.
  - destruct (visit_returns c n st Hok Hc) as (st1 & -> & Hok1 & Hc1).
    { apply Hl. by left. }
    simpl. apply IH; auto. intros m Hm. apply Hl. by right.
Qed.

(** On a closed network the loop raises nothing. *)
Lemma while_open_returns fuel st :
  closed -> rows_ok st ->
  exists r, (RSTree.while_open fuel st self).1 = Ok r.
Proof.
  intros Hcl. revert st. induction fuel as [|fuel IH]; intros st Hok.
  - simpl. destruct (RSTree.open_list st); eauto.
  - destruct (RSTree.open_list st) as [|c rest] eqn:E.
    + rewrite while_open_nil by done. eauto.
    + rewrite (while_open_cons _ _ _ _ _ E).
      destruct Hok as [Hrows Hopen].
      assert (Hc : c ∈ RSTree.marked st) by (apply Hopen; rewrite E; left).
      destruct (Hrows c Hc) as [_ [row Hrow]%dict_in_true].
      rewrite Hrow.
      destruct (for_neighbors_returns c (dict_keys row)
        {| RSTree.tree := RSTree.tree st; RSTree.marked := RSTree.marked st;
           RSTree.open_list := rest |}) as (st' & -> & Hok'); auto.
      * split; simpl; [done|]. intros n Hn. apply Hopen. rewrite E. by right.
      * intros n Hn. apply (Hcl c). by eapply linked_keys.
Qed.

(** The build returns a tree when the root is a node, and raises
    [KeyError] at the first [find_neighbors] when it is not. *)
Lemma init_returns fuel root :
  closed -> RSTree.enough self <= fuel -> dict_in root self = true ->
  exists st,
    (RSTree.while_open fuel
       {| RSTree.tree := [(root, [])]; RSTree.marked := [root];
          RSTree.open_list := [root] |} self).1 = Ok (Some st).
Proof.
  intros Hcl Hfuel Hroot.
  set (st0 := {| RSTree.tree := [(root, [])]; RSTree.marked := [root];
                 RSTree.open_list := [root] |}).
  assert (Hok : rows_ok st0).
  { split; simpl; [|done]. intros n ->%list_elem_of_singleton.
    split; [|done]. unfold dict_in. simpl. by rewrite decide_True. }
  destruct (while_open_returns fuel st0 Hcl Hok) as [[st|] Hr]; [eauto|].
  exfalso. revert Hr. apply while_open_fuel.
  etrans; [apply turns_left_init | done].
Qed.

Lemma init_raises fuel root :
  dict_in root self = false ->
  (RSTree.init (S fuel) root self).1 = Raise KeyError.
Proof.
  intros Hroot%dict_in_false. rewrite init_eq. cbv zeta.
  rewrite (while_open_cons fuel
    {| RSTree.tree := [(root, [])]; RSTree.marked := [root];
       RSTree.open_list := [root] |} self root [] eq_refl).
  by rewrite Hroot.
Qed.
End RSTreeReturns.

(** ** When the build fails, on any network *)

Section RSTreeFailure.
Context {N : Type} `{EqDecision N}.
Variable self : @Network.net N.
Variable root : N.
Implicit Types (st : @RSTree.locals N) (a b c n m : N).

Local Abbreviation linked := (linked self).
Local Abbreviation explored := (explored self root).

(** One neighbor: the lookups in [tree] find their rows, the neighbor is
    marked afterwards, and a node marked in this step is open. *)
Lemma visit_explores c n st :
  tree_rows st -> c ∈ RSTree.marked st ->
  exists st', RSTree.visit c n st = Ok st' /\ tree_rows st' /\
    (forall m, m ∈ RSTree.marked st -> m ∈ RSTree.marked st') /\
    (forall m, m ∈ RSTree.open_list st -> m ∈ RSTree.open_list st') /\
    n ∈ RSTree.marked st' /\
    (forall m, m ∈ RSTree.marked st' ->
       m ∈ RSTree.marked st \/ (m = n /\ m ∈ RSTree.open_list st')).
Proof.
  intros [Hrows Hopen] Hc. unfold RSTree.visit.
  destruct (bool_decide (n ∈ RSTree.marked st)) eqn:Em; simpl.
  - apply bool_decide_eq_true in Em.
    destruct (proj1 (dict_in_true _ _) (Hrows c Hc)) as [row_c Hc1].
    destruct (proj1 (dict_in_true _ _) (Hrows n Em)) as [row_n Hn1].
    unfold dict_getitem. rewrite Hc1. simpl.
    destruct (dict_in n row_c); simpl.
    { exists st. split_and!; auto. by split. }
    rewrite Hn1. simpl.
    destruct (dict_in c row_n); simpl.
    { exists st. split_and!; auto. by split. }
    destruct (tree_add_link_spec (RSTree.tree st) c n red)
      as (tr' & -> & _ & Hin).
    simpl. eexists. split; [done|]. simpl. split_and!; auto.
    split; simpl; [|done]. intros m Hm. apply Hin. auto.
  - apply bool_decide_eq_false in Em.
    destruct (tree_add_link_spec (RSTree.tree st) c n green)
      as (tr' & -> & _ & Hin).
    simpl. eexists. split; [done|]. simpl. split_and!.
    + split; simpl.
      * intros m [Hm| ->%list_elem_of_singleton]%elem_of_app;
          apply Hin; auto.
      * intros m [Hm| ->%list_elem_of_singleton]%elem_of_app;
          apply elem_of_app; auto. right. by apply list_elem_of_singleton.
    + intros m Hm. apply elem_of_app. auto.
    + intros m Hm. apply elem_of_app. auto.
    + apply elem_of_app. right. by apply list_elem_of_singleton.
    + intros m [Hm| ->%list_elem_of_singleton]%elem_of_app; [auto|].
      right. split; [done|]. apply elem_of_app. right.
      by apply list_elem_of_singleton.
Qed.

Lemma for_neighbors_explores c l st :
  tree_rows st -> c ∈ RSTree.marked st ->
  exists st', RSTree.for_neighbors c l st = Ok st' /\ tree_rows st' /\
    (forall m, m ∈ RSTree.marked st -> m ∈ RSTree.marked st') /\
    (forall m, m ∈ RSTree.open_list st -> m ∈ RSTree.open_list st') /\
    (forall n, n ∈ l -> n ∈ RSTree.marked st') /\
    (forall m, m ∈ RSTree.marked st' ->
       m ∈ RSTree.marked st \/ (m ∈ l /\ m ∈ RSTree.open_list st')).
Proof.
  revert st. induction l as [|n l IH]; intros st Hrows Hc; simpl.
  - exists st. split_and!; auto. by intros n ?%elem_of_nil.
  - destruct (visit_explores c n st Hrows Hc)
      as (st1 & -> & Hrows1 & Hm1 & Ho1 & Hn1 & Hnew1).
    simpl.
    destruct (IH st1 Hrows1 (Hm1 c Hc))
      as (st' & -> & Hrows' & Hm' & Ho' & Hl' & Hnew').
    exists st'. split_and!; auto.
    + intros m [->|Hm]%elem_of_cons; auto.
    + intros m Hm. destruct (Hnew' m Hm) as [Hm1'|[Hml Hmo]].
      * destruct (Hnew1 m Hm1') as [?|[-> Hmo]]; [by left|].
        right. split; [left|auto].
      * right. split; [by right|done].
Qed.

(** The loop on any network: when it ends, everything that was to be
    explored has been; when it raises, it is the [KeyError] of
    [find_neighbors] at a node that was reached and is no node. *)
Lemma while_open_explored fuel st :
  tree_rows st -> explored st ->
  match (RSTree.while_open fuel st self).1 with
  | Ok (Some st') => explored st' /\ RSTree.open_list st' = []
  | Ok None => True
  | Raise e => e = KeyError /\ reaches_missing self root
  end.
Proof.
  revert st. induction fuel as [|fuel IH]; intros st Hrows Hex.
  - simpl. by destruct (RSTree.open_list st) eqn:E.
  - destruct (RSTree.open_list st) as [|c rest] eqn:E.
    + by rewrite while_open_nil.
    + rewrite (while_open_cons _ _ _ _ _ E).
      destruct Hex as (Hroot & Hreach & Hcl).
      destruct Hrows as [Hrows Hopen].
      assert (Hc : c ∈ RSTree.marked st) by (apply Hopen; rewrite E; left).
      destruct (dict_get self c) as [row|] eqn:Ec; simpl.
      2:{ split; [done|]. exists c. split; [auto|]. by apply dict_in_false. }
      set (st1 := {| RSTree.tree := RSTree.tree st;
                     RSTree.marked := RSTree.marked st;
                     RSTree.open_list := rest |}).
      destruct (for_neighbors_explores c (dict_keys row) st1)
        as (st' & -> & Hrows' & Hm' & Ho' & Hl' & Hnew'); [|done|].
      { split; simpl; [done|]. intros n Hn. apply Hopen. rewrite E. by right. }
      apply IH; [done|]. split_and!.
      * by apply Hm'.
      * intros n Hn. destruct (Hnew' n Hn) as [?|[Hl _]]; [auto|].
        apply (linked_keys self c row n Ec) in Hl as [w Hw].
        apply (RSTree.reach_step self root c n w); auto.
      * intros a [Ha Hao].
        destruct (Hnew' a Ha) as [Ha0|[_ ?]]; [|done]. simpl in Ha0.
        destruct (decide (a = c)) as [->|Hac].
        -- split; [apply dict_in_true; eauto|].
           intros b Hb. apply Hl'. by apply (linked_keys self c row b Ec).
        -- assert (Hclosed : closed_node st a).
           { split; [done|]. rewrite E. intros [?|Har]%elem_of_cons; [done|].
             apply Hao, Ho'. done. }
           destruct (Hcl a Hclosed) as [Hin Hnb]. split; [done|].
           intros b Hb. apply Hm'. simpl. auto.
Qed.

(** Once nothing is open, every node that can be reached has been
    closed: it is a node of the network. *)
Lemma explored_end st n :
  explored st -> RSTree.open_list st = [] ->
  RSTree.reachable self root n ->
  n ∈ RSTree.marked st /\ dict_in n self = true.
Proof.
  intros (Hroot & _ & Hcl) E Hn.
  assert (Hclosed : forall a, a ∈ RSTree.marked st -> closed_node st a).
  { intros a Ha. split; [done|]. rewrite E. apply not_elem_of_nil. }
  induction Hn as [|b c w _ [IHm _] Hw].
  - split; [done|]. by apply Hcl, Hclosed.
  - assert (Hc : c ∈ RSTree.marked st).
    { apply (Hcl b (Hclosed b IHm)). by exists w. }
    split; [done|]. by apply Hcl, Hclosed.
Qed.

Lemma explored_init :
  tree_rows {| RSTree.tree := [(root, [])]; RSTree.marked := [root];
               RSTree.open_list := [root] |} /\
  explored {| RSTree.tree := [(root, [])]; RSTree.marked := [root];
              RSTree.open_list := [root] |}.
Proof.
  split.
  - split; simpl; [|done].
    intros n ->%list_elem_of_singleton. unfold dict_in. simpl.
    by rewrite decide_True.
  - unfold explored. simpl. split; [left|]. split.
    + intros n ->%list_elem_of_singleton. constructor.
    + intros a [Ha Hno]. simpl in *. done.
Qed.

(** The build, on any network and with the turns that always suffice:
    it returns a tree or raises [KeyError], and it raises exactly when a
    node that is reached is no node of the network. *)
Lemma init_outcome fuel :
  RSTree.enough self <= fuel ->
  match (RSTree.init fuel root self).1 with
  | Ok (Some t) =>
    RSTree.root t = root /\ RSTree.network t = self /\
    ~ reaches_missing self root
  | Ok None => False
  | Raise e => e = KeyError /\ reaches_missing self root
  end.
Proof.
  intros Hfuel. rewrite init_eq. cbv zeta.
  destruct explored_init as [Hrows Hex].
  pose proof (while_open_explored fuel _ Hrows Hex) as Hw.
  pose proof (while_open_fuel self fuel _
    (Nat.le_trans _ _ _ (turns_left_init self root) Hfuel)) as Hf.
  destruct (RSTree.while_open fuel _ self).1 as [[st|]|e]; simpl; [|done|done].
  destruct Hw as [Hex' E]. split_and!; [done|done|].
  intros (n & Hn & Hmiss).
  destruct (explored_end st n Hex' E Hn) as [_ Hin]. congruence.
Qed.
End RSTreeFailure.

(** C7, as amended: with the turns that always suffice, building an
    [RSTree] fails exactly when the root, or a node that is reached from
    the root along neighbor entries, is not a node of the network, and then
    with [KeyError]; so on a network all of whose neighbor entries name
    nodes it fails exactly when the root is not a node. Otherwise it
    returns the object, whose accessors [root], [network] and [_tree] are
    plain fields. *)
Theorem rstree_fails_iff_root_missing {N : Type} `{EqDecision N}
    (self : Network.net) (root : N) (fuel : nat) :
  RSTree.enough self <= fuel ->
  ((exists e, (RSTree.init fuel root self).1 = Raise e) <->
     reaches_missing self root) /\
  match (RSTree.init fuel root self).1 with
  | Ok (Some t) => RSTree.root t = root /\ RSTree.network t = self
  | Ok None => False
  | Raise e => e = KeyError
  end /\
  (closed self ->
     ((RSTree.init fuel root self).1 = Raise KeyError <->
        dict_in root self = false)).
Proof.
  intros Hfuel. pose proof (init_outcome self root fuel Hfuel) as Ho.
  assert (Hroot : dict_in root self = false -> reaches_missing self root).
  { intros Hr. exists root. split; [constructor|done]. }
  destruct (RSTree.init fuel root self).1 as [[t|]|e]; [|done|].
  - destruct Ho as (Hr & Hn & Hno). split; [|split; [done|]].
    + split; [by intros [e ?]|done].
    + intros _. split; [done|]. intros Hmiss. by destruct Hno; apply Hroot.
  - destruct Ho as [-> Hmiss]. split; [|split; [done|]].
    + split; [done|eauto].
    + intros Hcl. split; [|done]. intros _.
      destruct Hmiss as (n & Hn & Hmiss).
      destruct Hn as [|b c w _ Hw]; [done|].
      rewrite (Hcl b c) in Hmiss; [done|by exists w].
Qed.

Section RSTreeClassified.
Context {N : Type} `{EqDecision N}.
Variable self : @Network.net N.
Variable root : N.
Hypothesis Hsym : Network.symmetric self.
Implicit Types (st : @RSTree.locals N) (tr : @RSTree.tree_t N).
Implicit Types (a b c n : N) (d : list N).

Local Abbreviation linked := (linked self).
Local Abbreviation inv := (inv self root).
Local Abbreviation between := (between self root).
Local Abbreviation during := (during self root).
Local Abbreviation parents := (parents root).

Lemma linked_sym a b : linked a b -> linked b a.
Proof. intros [w Hw]. exists w. by apply Hsym. Qed.

Lemma classified_sym tr a b :
  RSTree.classified tr a b -> RSTree.classified tr b a.
Proof. unfold RSTree.classified. tauto. Qed.

Lemma classified_some tr a b :
  RSTree.classified tr a b ->
  is_Some (RSTree.tag tr a b) \/ is_Some (RSTree.tag tr b a).
Proof. intros [[-> _]|[[-> _]|[-> _]]]; eauto. Qed.

Lemma classified_ext tr tr' a b :
  RSTree.tag tr' a b = RSTree.tag tr a b ->
  RSTree.tag tr' b a = RSTree.tag tr b a ->
  RSTree.classified tr a b -> RSTree.classified tr' a b.
Proof. unfold RSTree.classified. by intros -> ->. Qed.

Lemma handled_snoc c d st a b n :
  handled c (d ++ [n]) st a b <->
  handled c d st a b \/ (a = c /\ b = n) \/ (b = c /\ a = n).
Proof.
  unfold handled. rewrite !elem_of_app, !list_elem_of_singleton. tauto.
Qed.

(** The turn of [c] begins. *)
Lemma between_during st c rest :
  between st -> RSTree.open_list st = c :: rest ->
  during c [] {| RSTree.tree := RSTree.tree st;
                 RSTree.marked := RSTree.marked st;
                 RSTree.open_list := rest |}.
Proof.
  intros [Hroot Hopen Hnd Hrows Hreach Hclass Htags Hnbrs] E.
  rewrite E in Hnd. apply NoDup_cons in Hnd as [Hc Hnd].
  assert (Hcl : forall a,
    closed_node {| RSTree.tree := RSTree.tree st;
                   RSTree.marked := RSTree.marked st;
                   RSTree.open_list := rest |} a /\ a <> c <->
    closed_node st a).
  { intros a. unfold closed_node. simpl. rewrite E, not_elem_of_cons. tauto. }
  split_and!; simpl.
  - apply Hopen. rewrite E. left.
  - done.
  - intros n Hn. by apply elem_of_nil in Hn.
  - split; simpl; try done.
    + intros n Hn. apply Hopen. rewrite E. by right.
    + intros a b Hab Hh. apply Hclass; [done|].
      destruct Hh as [?%Hcl|[?%Hcl|[[_ Hn]|[_ Hn]]]]; auto;
        by apply elem_of_nil in Hn.
    + intros a b Ht. destruct (Htags a b Ht) as [Hab Hh].
      split; [done|]. unfold handled.
      destruct Hh as [?%Hcl|?%Hcl]; auto.
    + intros a b Ha%Hcl. by apply Hnbrs.
Qed.

(** The turn of [c] ends: all its neighbors have been visited. *)
Lemma during_between c d st :
  during c d st -> (forall n, linked c n -> n ∈ d) -> between st.
Proof.
  intros (Hcm & Hco & Hd & [Hroot Hopen Hnd Hrows Hreach Hclass Htags Hnbrs]) Hall.
  assert (Hcl : forall a,
    closed_node st a <-> (closed_node st a /\ a <> c) \/ a = c).
  { intros a. unfold closed_node. destruct (decide (a = c)) as [->|]; tauto. }
  split; try done.
  - intros a b Hab Hh. apply Hclass; [done|]. unfold handled.
    destruct Hh as [[?| ->]%Hcl|[?| ->]%Hcl]; auto.
    + right; right; left. auto.
    + right; right; right. split; [done|]. by apply Hall, linked_sym.
  - intros a b Ht. destruct (Htags a b Ht) as [Hab Hh].
    split; [done|].
    destruct Hh as [Ha|[Hb|[[-> _]|[-> _]]]].
    + left. apply Hcl. auto.
    + right. apply Hcl. auto.
    + left. apply Hcl. auto.
    + right. apply Hcl. auto.
  - intros a b [Ha| ->]%Hcl Hab.
    + by eapply Hnbrs.
    + by apply Hd, Hall.
Qed.
Lemma closed_node_eq st st' a :
  RSTree.marked st' = RSTree.marked st ->
  RSTree.open_list st' = RSTree.open_list st ->
  closed_node st' a <-> closed_node st a.
Proof. unfold closed_node. by intros -> ->. Qed.

Lemma handled_eq c d st st' a b :
  RSTree.marked st' = RSTree.marked st ->
  RSTree.open_list st' = RSTree.open_list st ->
  handled c d st' a b <-> handled c d st a b.
Proof. unfold handled, closed_node. by intros -> ->. Qed.

(** [neighbor] is marked and the edge is already in the tree: nothing
    to do. *)
Lemma during_skip c d st n :
  during c d st -> linked c n -> n ∈ RSTree.marked st ->
  RSTree.classified (RSTree.tree st) c n ->
  during c (d ++ [n]) st.
Proof.
  intros (Hcm & Hco & Hd & [Hroot Hopen Hnd Hrows Hreach Hclass Htags Hnbrs])
    Hcn Hn Hcl.
  split_and!; try done.
  - intros m [Hm| ->%list_elem_of_singleton]%elem_of_app; auto.
  - split; try done.
    + intros a b Hab [Hh|[[-> ->]|[-> ->]]]%handled_snoc; auto.
      by apply classified_sym.
    + intros a b Ht. destruct (Htags a b Ht). split; [done|].
      apply handled_snoc. auto.
Qed.

(** [neighbor] is marked and the edge is in the tree in neither
    direction: it becomes a non-tree edge, both ways. *)
Lemma during_red c d st n tr' :
  during c d st -> linked c n -> n ∈ RSTree.marked st ->
  RSTree.tag (RSTree.tree st) c n = None ->
  RSTree.tag (RSTree.tree st) n c = None ->
  (forall x y, RSTree.tag tr' x y =
     if decide ((x = c /\ y = n) \/ (red = red /\ x = n /\ y = c))
     then Some red else RSTree.tag (RSTree.tree st) x y) ->
  (forall x, dict_in x tr' = true <->
     x = c \/ x = n \/ dict_in x (RSTree.tree st) = true) ->
  during c (d ++ [n])
    {| RSTree.tree := tr'; RSTree.marked := RSTree.marked st;
       RSTree.open_list := RSTree.open_list st |}.
Proof.
  intros (Hcm & Hco & Hd & [Hroot Hopen Hnd Hrows Hreach Hclass Htags Hnbrs])
    Hcn Hn Hcn0 Hnc0 Htag Hin.
  assert (Hold : forall a b,
    RSTree.classified (RSTree.tree st) a b ->
    RSTree.tag tr' a b = RSTree.tag (RSTree.tree st) a b).
  { intros a b Hc. rewrite Htag. rewrite decide_False; [done|].
    apply classified_some in Hc.
    intros [[-> ->]|(_ & -> & ->)]; rewrite Hcn0, Hnc0 in Hc;
      by destruct Hc as [[? ?]|[? ?]]. }
  split_and!; simpl; try done.
  - intros m [Hm| ->%list_elem_of_singleton]%elem_of_app; auto.
  - split; simpl; try done.
    + intros m Hm. apply Hin. auto.
    + intros a b Hab Hh. apply handled_snoc in Hh.
      rewrite (handled_eq c d st) in Hh by done.
      destruct Hh as [Hh|[[-> ->]|[-> ->]]].
      * apply (classified_ext (RSTree.tree st)); auto.
        apply Hold, classified_sym. auto.
      * right; right. rewrite !Htag, !decide_True; auto.
      * right; right. rewrite !Htag, !decide_True; auto.
    + intros a b Ht. rewrite Htag in Ht.
      rewrite handled_snoc, (handled_eq c d st) by done.
      destruct (decide _) as [[[-> ->]|(_ & -> & ->)]|_].
      * auto.
      * split; [by apply linked_sym | auto].
      * destruct (Htags a b Ht). auto.
Qed.

(** [neighbor] is new: it is marked and opened, and the edge becomes a
    tree edge from [current] to it. *)
Lemma during_green c d st n tr' :
  during c d st -> linked c n -> n ∉ RSTree.marked st ->
  (forall x y, RSTree.tag tr' x y =
     if decide ((x = c /\ y = n) \/ (green = red /\ x = n /\ y = c))
     then Some green else RSTree.tag (RSTree.tree st) x y) ->
  (forall x, dict_in x tr' = true <->
     x = c \/ x = n \/ dict_in x (RSTree.tree st) = true) ->
  during c (d ++ [n])
    {| RSTree.tree := tr'; RSTree.marked := RSTree.marked st ++ [n];
       RSTree.open_list := RSTree.open_list st ++ [n] |}.
Proof.
  intros (Hcm & Hco & Hd & [Hroot Hopen Hnd Hrows Hreach Hclass Htags Hnbrs])
    Hcn Hn Htag Hin.
  set (st' := {| RSTree.tree := tr'; RSTree.marked := RSTree.marked st ++ [n];
                 RSTree.open_list := RSTree.open_list st ++ [n] |}).
  assert (Hne : c <> n) by (by intros ->).
  assert (Hcl : forall a, closed_node st' a <-> closed_node st a).
  { intros a. unfold closed_node. simpl.
    rewrite elem_of_app, not_elem_of_app, !list_elem_of_singleton.
    split.
    - intros [[?| ->] [? ?]]; [tauto|done].
    - intros [? ?]. split_and!; [tauto|done|by intros ->]. }
  assert (Hhd : forall a b, handled c d st' a b <-> handled c d st a b).
  { intros a b. unfold handled. by rewrite !Hcl. }
  assert (Hnew : forall a b, handled c d st a b ->
    ~ ((a = c /\ b = n) \/ (a = n /\ b = c))).
  { intros a b Hh Hab. apply Hn.
    destruct Hab as [[-> ->]|[-> ->]].
    - destruct Hh as [[_ ?]|[[[? _] _]|[[_ Hm]|[-> _]]]];
        [done|done|by apply Hd|done].
    - destruct Hh as [[[? _] _]|[[_ ?]|[[-> _]|[_ Hm]]]];
        [done|done|done|by apply Hd]. }
  assert (Hold : forall a b, handled c d st a b ->
    RSTree.tag tr' a b = RSTree.tag (RSTree.tree st) a b).
  { intros a b Hh%Hnew. rewrite Htag, decide_False; [done|].
    intros [?|(? & _)]; [tauto|done]. }
  assert (Hnone : forall a b, ~ handled c d st a b ->
    RSTree.tag (RSTree.tree st) a b = None).
  { intros a b Hh. apply eq_None_not_Some. intros Ht.
    by destruct (Htags a b Ht). }
  split_and!; simpl.
  - apply elem_of_app. auto.
  - apply not_elem_of_app. split; [done|].
    by intros ?%list_elem_of_singleton.
  - intros m [[? ?]%Hd| ->%list_elem_of_singleton]%elem_of_app;
      (split; [apply elem_of_app|]; auto).
    right. by apply list_elem_of_singleton.
  - split; simpl.
    + apply elem_of_app. auto.
    + intros m [?| ?]%elem_of_app; apply elem_of_app; auto.
    + apply NoDup_app. split_and!; [done| |apply NoDup_singleton].
      intros m Hm ->%list_elem_of_singleton. by apply Hn, Hopen.
    + intros m [?| ->%list_elem_of_singleton]%elem_of_app; apply Hin; auto.
    + intros m [?| ->%list_elem_of_singleton]%elem_of_app; [auto|].
      destruct Hcn as [w Hw].
      apply (RSTree.reach_step self root c n w); [by apply Hreach | done].
    + intros a b Hab Hh. apply handled_snoc in Hh. rewrite Hhd in Hh.
      assert (Hcn0 : RSTree.tag tr' c n = Some green).
      { rewrite Htag, decide_True; auto. }
      assert (Hnc0 : RSTree.tag tr' n c = None).
      { rewrite Htag, decide_False.
        - apply Hnone. intros Hh'. apply (Hnew _ _ Hh'). auto.
        - intros [[? ?]|[? _]]; [by subst|done]. }
      destruct Hh as [Hh|[[-> ->]|[-> ->]]].
      * apply (classified_ext (RSTree.tree st)); auto.
        apply Hold. unfold handled in *. tauto.
      * left. auto.
      * right; left. auto.
    + intros a b Ht. rewrite Htag in Ht.
      rewrite handled_snoc, Hhd.
      destruct (decide _) as [[[-> ->]|(? & _)]|_]; [auto|done|].
      destruct (Htags a b Ht). auto.
    + intros a b [Ha%Hcl ?] Hab. apply elem_of_app. left.
      by apply (Hnbrs a b).
Qed.
Lemma tag_row tr c row n :
  dict_get tr c = Some row ->
  dict_in n row = true <-> is_Some (RSTree.tag tr c n).
Proof. intros Hc. unfold RSTree.tag. rewrite Hc. apply dict_in_true. Qed.

Lemma tag_row_None tr c row n :
  dict_get tr c = Some row ->
  dict_in n row = false -> RSTree.tag tr c n = None.
Proof. intros Hc. unfold RSTree.tag. rewrite Hc. apply dict_in_false. Qed.

(** One turn of the [for] keeps the invariant. *)
Lemma visit_during c d st n st' :
  during c d st -> linked c n -> RSTree.visit c n st = Ok st' ->
  during c (d ++ [n]) st'.
Proof.
  intros Hdur Hcn Hv. unfold RSTree.visit in Hv.
  pose proof Hdur as (_ & _ & _ & [_ _ _ _ _ Hclass Htags _]).
  destruct (bool_decide (n ∈ RSTree.marked st)) eqn:Em; simpl in Hv.
  - apply bool_decide_eq_true in Em.
    unfold dict_getitem in Hv.
    destruct (dict_get (RSTree.tree st) c) as [row_c|] eqn:Ec;
      simpl in Hv; [|done].
    destruct (dict_in n row_c) eqn:En; simpl in Hv.
    { injection Hv as <-. apply during_skip; auto.
      apply (tag_row _ _ _ _ Ec), Htags in En as [_ Hh]. auto. }
    destruct (dict_get (RSTree.tree st) n) as [row_n|] eqn:En';
      simpl in Hv; [|done].
    destruct (dict_in c row_n) eqn:Ec'; simpl in Hv.
    { injection Hv as <-. apply during_skip; auto.
      apply (tag_row _ _ _ _ En'), Htags in Ec' as [Hnc Hh].
      apply classified_sym. auto. }
    destruct (tree_add_link_spec (RSTree.tree st) c n red)
      as (tr' & Ha & Htag & Hin).
    rewrite Ha in Hv. simpl in Hv. injection Hv as <-.
    apply during_red; auto; eapply tag_row_None; eauto.
  - apply bool_decide_eq_false in Em.
    destruct (tree_add_link_spec (RSTree.tree st) c n green)
      as (tr' & Ha & Htag & Hin).
    rewrite Ha in Hv. simpl in Hv. injection Hv as <-.
    by apply during_green.
Qed.

Lemma for_neighbors_during c l d st st' :
  during c d st -> (forall n, n ∈ l -> linked c n) ->
  RSTree.for_neighbors c l st = Ok st' ->
  during c (d ++ l) st'.
Proof.
  revert d st. induction l as [|n l IH]; intros d st Hdur Hl; simpl.
  - intros [= <-]. by rewrite app_nil_r.
  - destruct (RSTree.visit c n st) as [st1|] eqn:Ev; simpl; [|done].
    intros Hf. rewrite cons_middle, app_assoc.
    apply (IH _ st1); [|by intros m Hm; apply Hl; right|done].
    eapply visit_during; eauto. apply Hl. by left.
Qed.

(** When the [while] ends, the invariant holds and nothing is open. *)
Lemma while_open_between fuel st st' :
  between st ->
  (RSTree.while_open fuel st self).1 = Ok (Some st') ->
  between st' /\ RSTree.open_list st' = [].
Proof.
  revert st. induction fuel as [|fuel IH]; intros st Hb.
  - simpl. destruct (RSTree.open_list st) eqn:E; [|done].
    by intros [= <-].
  - destruct (RSTree.open_list st) as [|c rest] eqn:E.
    + rewrite while_open_nil by done. by intros [= <-].
    + rewrite (while_open_cons _ _ _ _ _ E).
      destruct (dict_get self c) as [row|] eqn:Ec; [|done].
      destruct (RSTree.for_neighbors _ _ _) as [st1|] eqn:Ef; [|done].
      apply IH.
      apply (for_neighbors_during c _ []) in Ef.
      * apply (during_between c _ _ Ef).
        intros n Hn. by apply (linked_keys self c row).
      * by apply between_during.
      * intros n Hn. by apply (linked_keys self c row).
Qed.

Lemma between_init :
  between {| RSTree.tree := [(root, [])]; RSTree.marked := [root];
             RSTree.open_list := [root] |}.
Proof.
  assert (Hcl : forall a,
    ~ closed_node {| RSTree.tree := [(root, [])]; RSTree.marked := [root];
                     RSTree.open_list := [root] |} a).
  { intros a [? ?]. done. }
  split; simpl.
  - by left.
  - done.
  - apply NoDup_singleton.
  - intros n ->%list_elem_of_singleton. unfold dict_in. simpl.
    by rewrite decide_True.
  - intros n ->%list_elem_of_singleton. constructor.
  - intros a b _ [?%Hcl|?%Hcl]; done.
  - intros a b [col Ht]. unfold RSTree.tag in Ht. simpl in Ht.
    by case_decide.
  - by intros a b ?%Hcl.
Qed.

(** At the end every node that can be reached is marked, every edge at a
    marked node is classified, and every tag is on an edge. *)
Lemma between_end st a b :
  between st -> RSTree.open_list st = [] ->
  RSTree.reachable self root a -> linked a b ->
  RSTree.classified (RSTree.tree st) a b.
Proof.
  intros [Hroot Hopen Hnd Hrows Hreach Hclass Htags Hnbrs] E Ha Hab.
  assert (Hall : forall n, RSTree.reachable self root n ->
                   n ∈ RSTree.marked st).
  { intros n Hn. induction Hn as [|m k w Hm IH Hw]; [done|].
    apply (Hnbrs m k); [|by exists w].
    split; [done|]. rewrite E. apply not_elem_of_nil. }
  apply Hclass; [done|]. left. split; [auto|].
  rewrite E. apply not_elem_of_nil.
Qed.
Lemma tagged_marked c d st a b :
  during c d st -> is_Some (RSTree.tag (RSTree.tree st) a b) ->
  b ∈ RSTree.marked st.
Proof.
  intros (Hcm & Hco & Hd & [Hroot Hopen Hnd Hrows Hreach Hclass Htags Hnbrs]) Ht.
  destruct (Htags a b Ht) as [Hab [Ha|[[[Hb _] _]|[[_ Hb]|[-> _]]]]].
  - by apply (Hnbrs a b).
  - done.
  - by apply Hd.
  - done.
Qed.

Lemma visit_parents c d st n st' :
  during c d st -> linked c n -> parents st ->
  RSTree.visit c n st = Ok st' -> parents st'.
Proof.
  intros Hdur Hcn [Huniq Hnoroot Hex] Hv. unfold RSTree.visit in Hv.
  destruct (bool_decide (n ∈ RSTree.marked st)) eqn:Em; simpl in Hv.
  - apply bool_decide_eq_true in Em.
    unfold dict_getitem in Hv.
    destruct (dict_get (RSTree.tree st) c) as [row_c|] eqn:Ec;
      simpl in Hv; [|done].
    destruct (dict_in n row_c) eqn:En; simpl in Hv;
      [by injection Hv as <-|].
    destruct (dict_get (RSTree.tree st) n) as [row_n|] eqn:En';
      simpl in Hv; [|done].
    destruct (dict_in c row_n) eqn:Ec'; simpl in Hv;
      [by injection Hv as <-|].
    destruct (tree_add_link_spec (RSTree.tree st) c n red)
      as (tr' & Ha & Htag & _).
    rewrite Ha in Hv. simpl in Hv. injection Hv as <-.
    apply (tag_row_None _ _ _ _ Ec) in En.
    apply (tag_row_None _ _ _ _ En') in Ec'.
    assert (Hgreen : forall a b, RSTree.tag tr' a b = Some green <->
              RSTree.tag (RSTree.tree st) a b = Some green).
    { intros a b. rewrite Htag.
      destruct (decide _) as [[[-> ->]|(_ & -> & ->)]|_];
        [rewrite En|rewrite Ec'|]; done. }
    split; simpl.
    + intros a a' b ?%Hgreen ?%Hgreen. eauto.
    + intros a ?%Hgreen. by eapply Hnoroot.
    + intros m Hm Hne. destruct (Hex m Hm Hne) as [a Ha'].
      exists a. by apply Hgreen.
  - apply bool_decide_eq_false in Em.
    destruct (tree_add_link_spec (RSTree.tree st) c n green)
      as (tr' & Ha & Htag & _).
    rewrite Ha in Hv. simpl in Hv. injection Hv as <-.
    assert (Hinto : forall a, RSTree.tag tr' a n = Some green -> a = c).
    { intros a. rewrite Htag.
      destruct (decide _) as [[[-> _]|(? & _)]|_]; [done|done|].
      intros Ht. destruct Em. eapply tagged_marked; eauto. }
    assert (Hother : forall a b, b <> n ->
              RSTree.tag tr' a b = RSTree.tag (RSTree.tree st) a b).
    { intros a b Hb. rewrite Htag, decide_False; [done|].
      intros [[_ ?]|(? & _)]; done. }
    pose proof Hdur as (_ & _ & _ & [Hroot _ _ _ _ _ _ _]).
    split; simpl.
    + intros a a' b. destruct (decide (b = n)) as [->|Hb].
      * intros ->%Hinto ->%Hinto. done.
      * rewrite !Hother by done. eauto.
    + intros a. rewrite Hother; [apply Hnoroot|]. by intros <-.
    + intros m [Hm| ->%list_elem_of_singleton]%elem_of_app Hne.
      * destruct (Hex m Hm Hne) as [a Ha'].
        exists a. rewrite Hother; [done|]. by intros ->.
      * exists c. rewrite Htag, decide_True; auto.
Qed.

Lemma for_neighbors_parents c l d st st' :
  during c d st -> parents st -> (forall n, n ∈ l -> linked c n) ->
  RSTree.for_neighbors c l st = Ok st' -> parents st'.
Proof.
  revert d st. induction l as [|n l IH]; intros d st Hdur Hp Hl; simpl.
  - by intros [= <-].
  - destruct (RSTree.visit c n st) as [st1|] eqn:Ev; simpl; [|done].
    assert (Hn : linked c n) by (apply Hl; by left).
    apply (IH (d ++ [n]) st1).
    + by eapply visit_during.
    + by eapply visit_parents.
    + intros m Hm. apply Hl. by right.
Qed.

Lemma while_open_parents fuel st st' :
  between st -> parents st ->
  (RSTree.while_open fuel st self).1 = Ok (Some st') -> parents st'.
Proof.
  revert st. induction fuel as [|fuel IH]; intros st Hb Hp.
  - simpl. destruct (RSTree.open_list st) eqn:E; [|done].
    by intros [= <-].
  - destruct (RSTree.open_list st) as [|c rest] eqn:E.
    + rewrite while_open_nil by done. by intros [= <-].
    + rewrite (while_open_cons _ _ _ _ _ E).
      destruct (dict_get self c) as [row|] eqn:Ec; [|done].
      destruct (RSTree.for_neighbors _ _ _) as [st1|] eqn:Ef; [|done].
      assert (Hl : forall n, n ∈ dict_keys row -> linked c n).
      { intros n Hn. by apply (linked_keys self c row). }
      pose proof (between_during _ _ _ Hb E) as Hdur.
      apply IH.
      * apply (for_neighbors_during c _ []) in Ef; [|done|done].
        apply (during_between c _ _ Ef).
        intros n Hn. by apply (linked_keys self c row).
      * apply (for_neighbors_parents c (dict_keys row) [] _ _ Hdur);
          [|done|done].
        by destruct Hp.
Qed.

Lemma parents_init :
  parents {| RSTree.tree := [(root, [])]; RSTree.marked := [root];
             RSTree.open_list := [root] |}.
Proof.
  assert (Hnone : forall a b, RSTree.tag [(root, [])] a b = None).
  { intros a b. unfold RSTree.tag. simpl. by case_decide. }
  split; simpl.
  - intros a a' b. by rewrite Hnone.
  - intros a. by rewrite Hnone.
  - by intros n ->%list_elem_of_singleton.
Qed.

Lemma between_marked st n :
  between st -> RSTree.open_list st = [] ->
  RSTree.reachable self root n -> n ∈ RSTree.marked st.
Proof.
  intros [Hroot Hopen Hnd Hrows Hreach Hclass Htags Hnbrs] E Hn.
  induction Hn as [|m k w Hm IH Hw]; [done|].
  apply (Hnbrs m k); [|by exists w].
  split; [done|]. rewrite E. apply not_elem_of_nil.
Qed.
End RSTreeClassified.

(** C5: on a network with a symmetric adjacency and no self-link, whose
    nodes can all be reached from the root, the build returns a tree that
    records every edge in exactly one of three ways: tagged ['green'] from
    [a] to [b] and absent from [b] to [a], the same with [a] and [b]
    exchanged, or tagged ['red'] in both directions. No edge is left out,
    and the tree has no tag where the network has no edge. The tree edges
    run from parent to child: no node has two of them coming in, the root
    has none, and every other node has one. *)
Theorem rstree_classifies_every_edge {N : Type} `{EqDecision N}
    (self : Network.net) (root : N) (fuel : nat) :
  Network.symmetric self -> RSTree.no_self_links self ->
  dict_in root self = true -> RSTree.connected_from self root ->
  RSTree.enough self <= fuel ->
  exists t, (RSTree.init fuel root self).1 = Ok (Some t) /\
    (forall a b w, Network.weight self a b = Some w ->
       a <> b /\ RSTree.classified (RSTree._tree t) a b) /\
    (forall a b, is_Some (RSTree.tag (RSTree._tree t) a b) ->
       is_Some (Network.weight self a b)) /\
    (forall a a' b, RSTree.tag (RSTree._tree t) a b = Some green ->
       RSTree.tag (RSTree._tree t) a' b = Some green -> a = a') /\
    (forall a, RSTree.tag (RSTree._tree t) a root <> Some green) /\
    (forall n, dict_in n self = true -> n <> root ->
       exists a, RSTree.tag (RSTree._tree t) a n = Some green).
Proof.
  intros Hsym Hnsl Hroot Hconn Hfuel.
  destruct (init_returns self fuel root (symmetric_closed self Hsym)
              Hfuel Hroot) as [st Hst].
  destruct (while_open_between self root Hsym _ _ _
              (between_init self root) Hst) as [Hb Hopen].
  destruct (while_open_parents self root Hsym _ _ _
              (between_init self root) (parents_init root) Hst)
    as [Huniq Hnoroot Hex].
  rewrite init_eq. cbv zeta. rewrite Hst. simpl.
  eexists. split; [done|]. simpl. split_and!; try done.
  - intros a b w Hw. split; [intros ->; by rewrite Hnsl in Hw|].
    apply (between_end self root st a b Hb Hopen); [|by exists w].
    apply Hconn, dict_in_true. unfold Network.weight in Hw.
    by destruct (dict_get self a).
  - intros a b Ht. by apply (inv_tags self root _ _ _ Hb).
  - intros n Hn. apply Hex.
    by apply (between_marked self root st n Hb Hopen), Hconn.
Qed.

Lemma ring4_connected : RSTree.connected_from ring4 0%Z.
Proof.
  assert (H1 : RSTree.reachable ring4 0%Z 1%Z).
  { by apply (RSTree.reach_step _ _ 0%Z 1%Z 1%Z); [constructor|]. }
  intros n Hn%dict_in_keys.
  repeat (apply elem_of_cons in Hn as [->|Hn]).
  - constructor.
  - done.
  - by apply (RSTree.reach_step _ _ 1%Z 2%Z 1%Z).
  - by apply (RSTree.reach_step _ _ 0%Z 3%Z 1%Z); [constructor|].
  - by apply elem_of_nil in Hn.
Qed.

Lemma rstree_fails_iff_root_missing_witness :
  RSTree.enough one_way <= 2 /\
  ((exists e, (RSTree.init 2 0%Z one_way).1 = Raise e) <->
     reaches_missing one_way 0%Z) /\
  match (RSTree.init 2 0%Z one_way).1 with
  | Ok (Some t) => RSTree.root t = 0%Z /\ RSTree.network t = one_way
  | Ok None => False
  | Raise e => e = KeyError
  end /\
  (closed one_way ->
     ((RSTree.init 2 0%Z one_way).1 = Raise KeyError <->
        dict_in 0%Z one_way = false)).
Proof.
  assert (Hf : RSTree.enough one_way <= 2) by (vm_compute; lia).
  exact (conj Hf (rstree_fails_iff_root_missing one_way 0%Z 2 Hf)).
Defined.

Lemma rstree_classifies_every_edge_witness :
  Network.symmetric ring4 /\ RSTree.no_self_links ring4 /\
  dict_in 0%Z ring4 = true /\ RSTree.connected_from ring4 0%Z /\
  RSTree.enough ring4 <= 9 /\
  exists t, (RSTree.init 9 0%Z ring4).1 = Ok (Some t) /\
    (forall a b w, Network.weight ring4 a b = Some w ->
       a <> b /\ RSTree.classified (RSTree._tree t) a b) /\
    (forall a b, is_Some (RSTree.tag (RSTree._tree t) a b) ->
       is_Some (Network.weight ring4 a b)) /\
    (forall a a' b, RSTree.tag (RSTree._tree t) a b = Some green ->
       RSTree.tag (RSTree._tree t) a' b = Some green -> a = a') /\
    (forall a, RSTree.tag (RSTree._tree t) a 0%Z <> Some green) /\
    (forall n, dict_in n ring4 = true -> n <> 0%Z ->
       exists a, RSTree.tag (RSTree._tree t) a n = Some green).
Proof.
  assert (Hs : Network.symmetric ring4)
    by (apply symmetricb_sound; vm_compute; reflexivity).
  assert (Hn : RSTree.no_self_links ring4)
    by (apply no_self_linksb_sound; vm_compute; reflexivity).
  assert (Hr : dict_in 0%Z ring4 = true) by reflexivity.
  assert (Hf : RSTree.enough ring4 <= 9) by (vm_compute; lia).
  exact (conj Hs (conj Hn (conj Hr (conj ring4_connected (conj Hf
    (rstree_classifies_every_edge ring4 0%Z 9 Hs Hn Hr ring4_connected Hf)))))).
Defined.

(** The ring scenario: from root 0 the tree edges are 0-1, 0-3 and 1-2, and
    the edge 3-2 that closes the cycle is the one non-tree edge, recorded
    both ways. *)
Example rstree_ring4 :
  (RSTree.init 9 0%Z ring4).1 =
  Ok (Some {| RSTree.root := 0%Z; RSTree.network := ring4;
              RSTree._po_map := None; RSTree._max_po_map := None;
              RSTree._desc_map := None; RSTree._min_po_map := None;
              RSTree._tree :=
                [(0, [(1, green); (3, green)]); (1, [(2, green)]);
                 (3, [(2, red)]); (2, [(3, red)])]%Z |}).
Proof. vm_compute. reflexivity. Qed.

(** C7, as stated, fails on a dict handed to [Network(fromDict)] that
    lists a neighbor with no row of its own: the root is a node, and the
    build raises [KeyError] when it reaches the neighbor. *)
Lemma rstree_dangling_neighbor_counterexample :
  dict_in 0%Z dangling = true /\
  (RSTree.init (RSTree.enough dangling) 0%Z dangling).1 = Raise KeyError /\
  ~ ((exists e, (RSTree.init (RSTree.enough dangling) 0%Z dangling).1
                = Raise e) <->
     dict_in 0%Z dangling = false).
Proof.
  assert (Hr : (RSTree.init (RSTree.enough dangling) 0%Z dangling).1
               = Raise KeyError) by (vm_compute; reflexivity).
  split; [done|]. split; [done|].
  intros [Hiff _]. by specialize (Hiff (ex_intro _ KeyError Hr)).
Qed.

(** * Further properties of the heap *)

Section HeapOrder.
Context {A : Type}.
Variable is_less_than : A -> A -> res bool.
Hypothesis Hord : Heap.ordering_ok is_less_than.
Implicit Types L : list A.

Local Abbreviation up_heapify := (Heap.up_heapify is_less_than).
Local Abbreviation heap_ordered := (Heap.heap_ordered is_less_than).
Local Abbreviation ordered_except := (Heap.ordered_except is_less_than).

Lemma ordering_catches_all : Heap.catches_all is_less_than.
Proof.
  intros a b e He. destruct (Heap.ord_total _ Hord a b) as [r Hr]. congruence.
Qed.

Lemma not_less_false a b :
  is_less_than a b <> Ok true -> is_less_than a b = Ok false.
Proof.
  intros Hn. destruct (Heap.ord_total _ Hord a b) as [[] Hr]; congruence.
Qed.

Lemma ord_refl a : is_less_than a a = Ok false.
Proof.
  apply not_less_false. intros Ht.
  pose proof (Heap.ord_asym _ Hord a a Ht). congruence.
Qed.

Lemma parent_lt i : 0 < i -> Heap.parent i < i.
Proof.
  intros Hi. unfold Heap.parent. apply Nat.Div0.div_lt_upper_bound. lia.
Qed.

Lemma exchange_lookup L k p x y i :
  L !! k = Some x -> L !! p = Some y -> p <> k ->
  <[p:=x]> (<[k:=y]> L) !! i =
  if decide (i = p) then Some x
  else if decide (i = k) then Some y else L !! i.
Proof.
  intros Hk Hp Hne.
  apply lookup_lt_Some in Hk. apply lookup_lt_Some in Hp.
  destruct (decide (i = p)) as [->|Hip].
  - apply list_lookup_insert_eq. by rewrite length_insert.
  - rewrite list_lookup_insert_ne by done.
    destruct (decide (i = k)) as [->|Hik].
    + by apply list_lookup_insert_eq.
    + by rewrite list_lookup_insert_ne.
Qed.

(** One exchange of [up_heapify] moves the exception to the parent. *)
Lemma ordered_except_up L k x y :
  0 < k -> Heap.up_body is_less_than L k = Heap.SwapParent x y ->
  ordered_except L k ->
  ordered_except (<[Heap.parent k := x]> (<[k := y]> L)) (Heap.parent k).
Proof.
  intros Hk Hb [Hin Hgr].
  apply up_body_swap in Hb as (Hx & Hy & Hlt).
  pose proof (parent_lt k Hk) as Hpk.
  assert (Hxy : is_less_than y x = Ok false) by by apply (Heap.ord_asym _ Hord).
  set (p := Heap.parent k) in *.
  assert (Hlook := exchange_lookup L k p x y).
  split.
  - intros i xi yi Hi Hip. rewrite !Hlook by (done || lia).
    rewrite (decide_False (P := i = p)) by done.
    destruct (decide (i = k)) as [->|Hik].
    + fold p. rewrite decide_True by done. by intros [= <-] [= <-].
    + intros Hxi. pose proof (parent_lt i Hi).
      destruct (decide (Heap.parent i = p)) as [Ep|Ep].
      * intros [= <-]. rewrite <- Ep in Hy.
        pose proof (Hin i xi y Hi Hik Hxi Hy) as Hyxi.
        by apply (Heap.ord_trans _ Hord x y xi).
      * destruct (decide (Heap.parent i = k)) as [Ek|Ek].
        -- intros [= <-]. by apply (Hgr i xi y).
        -- by apply Hin.
  - intros i xi g Hp Hi Hpi. pose proof (parent_lt p Hp).
    rewrite !Hlook by (done || lia).
    rewrite (decide_False (P := Heap.parent p = p)) by lia.
    rewrite (decide_False (P := Heap.parent p = k)) by lia.
    pose proof (parent_lt i Hi).
    rewrite (decide_False (P := i = p)) by lia.
    assert (Hgy : forall g, L !! Heap.parent p = Some g ->
              is_less_than y g = Ok false).
    { intros g' Hg. apply (Hin p y g'); (done || lia). }
    destruct (decide (i = k)) as [->|Hik].
    + intros [= <-] Hg. by apply Hgy.
    + intros Hxi Hg. apply (Heap.ord_trans _ Hord g y xi); [by apply Hgy|].
      apply (Hin i xi y); try done. by rewrite Hpi.
Qed.

Lemma up_body_stop L k :
  (forall x y, Heap.up_body is_less_than L k <> Heap.SwapParent x y) ->
  forall x y, L !! k = Some x -> L !! Heap.parent k = Some y ->
    is_less_than x y <> Ok true.
Proof.
  intros Hne x y Hx Hy Ht. apply (Hne x y).
  unfold Heap.up_body. by rewrite Hx, Hy, Ht.
Qed.

Lemma ordered_except_stop L k :
  ordered_except L k ->
  (forall x y, L !! k = Some x -> L !! Heap.parent k = Some y ->
     is_less_than x y <> Ok true) ->
  heap_ordered L.
Proof.
  intros [Hin _] Hk i x y Hi Hx Hy.
  destruct (decide (i = k)) as [->|Hik]; [by apply Hk|].
  by rewrite (Hin i x y).
Qed.

(** [up_heapify] ends with the heap order restored. *)
Lemma up_heapify_ordered L k :
  ordered_except L k -> heap_ordered (up_heapify L k).1.
Proof.
  funelim (Heap.up_heapify is_less_than L k);
    try rewrite <- Heqcall; simpl; intros Hex.
  2: { match goal with IH : _ -> Heap.heap_ordered _ _ |- _ => apply IH end.
       apply ordered_except_up; (done || lia). }
  - intros i x y Hi Hx Hy. destruct Hex as [Hin _].
    rewrite (Hin i x y) by (done || lia). done.
  - apply (ordered_except_stop L (S j) Hex), up_body_stop. congruence.
  - apply (ordered_except_stop L (S j) Hex), up_body_stop. congruence.
  - apply (ordered_except_stop L (S j) Hex), up_body_stop. congruence.
  - apply (ordered_except_stop L (S j) Hex), up_body_stop. congruence.
Qed.

(** Appending to an ordered heap leaves only the new element to place. *)
Lemma ordered_except_snoc L x :
  heap_ordered L -> ordered_except (L ++ [x]) (length L).
Proof.
  intros Ho. split.
  - intros i xi yi Hi Hne Hxi Hyi. pose proof (parent_lt i Hi).
    assert (i < length L).
    { apply lookup_lt_Some in Hxi. rewrite length_app in Hxi. simpl in Hxi. lia. }
    rewrite lookup_app_l in Hxi, Hyi by lia.
    apply not_less_false. by apply (Ho i).
  - intros i xi g _ Hi Hpi Hxi _. pose proof (parent_lt i Hi).
    apply lookup_lt_Some in Hxi. rewrite length_app in Hxi. simpl in Hxi. lia.
Qed.

Lemma insert_ordered L x :
  heap_ordered L -> heap_ordered (Heap.insert is_less_than x L).1.
Proof.
  intros Ho. unfold Heap.insert. cbv zeta.
  rewrite length_app. simpl.
  replace (length L + 1 - 1) with (length L) by lia.
  by apply up_heapify_ordered, ordered_except_snoc.
Qed.

Lemma insert_all_spec els L :
  heap_ordered L ->
  (Heap.insert_all is_less_than els L).2 = Ok tt /\
  heap_ordered (Heap.insert_all is_less_than els L).1 /\
  (Heap.insert_all is_less_than els L).1 ≡ₚ L ++ els.
Proof.
  revert L. induction els as [|el els IH]; intros L Ho; simpl.
  - by rewrite app_nil_r.
  - pose proof (insert_returns is_less_than L el ordering_catches_all) as Hr.
    pose proof (insert_perm is_less_than L el) as Hp.
    pose proof (insert_ordered L el Ho) as Ho'.
    destruct (Heap.insert is_less_than el L) as [L' r]. simpl in *. subst r.
    destruct (IH L' Ho') as (H1 & H2 & H3). split_and!; try done.
    rewrite H3, Hp. by rewrite (Permutation_middle L els el).
Qed.

(** In an ordered heap nothing is less than the root. *)
Lemma root_least L r :
  heap_ordered L -> L !! 0 = Some r ->
  forall x, x ∈ L -> is_less_than x r = Ok false.
Proof.
  intros Ho Hr x [i Hi]%list_elem_of_lookup. revert x Hi.
  induction i as [i IH] using lt_wf_ind. intros x Hi.
  destruct (decide (i = 0)) as [->|Hne].
  - rewrite Hr in Hi. injection Hi as <-. apply ord_refl.
  - assert (Hpos : 0 < i) by lia. pose proof (parent_lt i Hpos) as Hp.
    destruct (lookup_lt_is_Some_2 L (Heap.parent i)) as [y Hy].
    { apply lookup_lt_Some in Hi. lia. }
    apply (Heap.ord_trans _ Hord r y x); [by apply (IH _ Hp)|].
    apply not_less_false. by apply (Ho i).
Qed.
End HeapOrder.

Lemma int_ordering_ok : Heap.ordering_ok int_less_than.
Proof.
  unfold int_less_than. split.
  - intros a b. eauto.
  - intros a b [= Hab]. f_equal. lia.
  - intros a b c [= Hba] [= Hcb]. f_equal. lia.
Qed.

Lemma heap_orderedb_sound {A : Type} (is_less_than : A -> A -> res bool)
    (L : list A) :
  Heap.heap_orderedb is_less_than L = true -> Heap.heap_ordered is_less_than L.
Proof.
  unfold Heap.heap_orderedb. rewrite forallb_forall. intros Hb i x y Hi Hx Hy.
  assert (Hin : In i (seq 1 (length L - 1))).
  { apply in_seq. apply lookup_lt_Some in Hx. lia. }
  apply Hb in Hin. rewrite Hx, Hy in Hin.
  intros Ht. by rewrite Ht in Hin.
Qed.

(** X1: with an ordering that always answers and is a strict weak order,
    [insert] on an ordered heap returns and leaves the heap ordered. *)
Theorem insert_keeps_heap_order {A : Type}
    (is_less_than : A -> A -> res bool) (L : list A) (x : A) :
  Heap.ordering_ok is_less_than -> Heap.heap_ordered is_less_than L ->
  (Heap.insert is_less_than x L).2 = Ok tt /\
  Heap.heap_ordered is_less_than (Heap.insert is_less_than x L).1.
Proof.
  intros Hord Ho. split.
  - by apply insert_returns, ordering_catches_all.
  - by apply insert_ordered.
Qed.

Lemma insert_keeps_heap_order_witness :
  Heap.ordering_ok int_less_than /\
  Heap.heap_ordered int_less_than [1; 3; 2]%Z /\
  (Heap.insert int_less_than 0%Z [1; 3; 2]%Z).2 = Ok tt /\
  Heap.heap_ordered int_less_than (Heap.insert int_less_than 0%Z [1; 3; 2]%Z).1.
Proof.
  assert (Ho : Heap.heap_ordered int_less_than [1; 3; 2]%Z)
    by (apply heap_orderedb_sound; vm_compute; reflexivity).
  exact (conj int_ordering_ok (conj Ho
    (insert_keeps_heap_order int_less_than [1; 3; 2]%Z 0%Z int_ordering_ok Ho))).
Defined.

(** X2: [Heap(elements)] without [is_heap] returns, and its list is the
    elements rearranged into heap order. *)
Theorem init_builds_ordered_heap {A : Type}
    (is_less_than : A -> A -> res bool) (elements : list A) :
  Heap.ordering_ok is_less_than ->
  (Heap.init is_less_than (Some elements) false).2 = Ok tt /\
  Heap.heap_ordered is_less_than
    (Heap.init is_less_than (Some elements) false).1 /\
  (Heap.init is_less_than (Some elements) false).1 ≡ₚ elements.
Proof.
  intros Hord. simpl.
  apply (insert_all_spec is_less_than Hord elements []).
  by intros i x y _ Hx.
Qed.

Lemma init_builds_ordered_heap_witness :
  Heap.ordering_ok int_less_than /\
  (Heap.init int_less_than (Some [5; 1; 4; 2]%Z) false).2 = Ok tt /\
  Heap.heap_ordered int_less_than
    (Heap.init int_less_than (Some [5; 1; 4; 2]%Z) false).1 /\
  (Heap.init int_less_than (Some [5; 1; 4; 2]%Z) false).1 ≡ₚ [5; 1; 4; 2]%Z.
Proof.
  exact (conj int_ordering_ok
    (init_builds_ordered_heap int_less_than [5; 1; 4; 2]%Z int_ordering_ok)).
Defined.

(** X3: on an ordered, non-empty heap [pop] returns a least element:
    it is stored in the heap and no stored element is less than it. *)
Theorem pop_ordered_returns_least {A : Type}
    (is_less_than : A -> A -> res bool) (L : list A) :
  Heap.ordering_ok is_less_than -> Heap.heap_ordered is_less_than L ->
  L <> [] ->
  exists v : A, (Heap.pop is_less_than L).2 = Ok (Some v) /\ v ∈ L /\
    forall x, x ∈ L -> is_less_than x v = Ok false.
Proof.
  intros Hord Ho Hne.
  destruct (pop_perm is_less_than L Hne) as (v & H0 & _ & Hr).
  exists v. split_and!.
  - by apply Hr, ordering_catches_all.
  - apply list_elem_of_lookup. eauto.
  - by apply (root_least is_less_than Hord L v).
Qed.

Lemma pop_ordered_returns_least_witness :
  Heap.ordering_ok int_less_than /\
  Heap.heap_ordered int_less_than [1; 3; 2]%Z /\ [1; 3; 2]%Z <> [] /\
  exists v : Z, (Heap.pop int_less_than [1; 3; 2]%Z).2 = Ok (Some v) /\
    v ∈ [1; 3; 2]%Z /\
    forall x, x ∈ [1; 3; 2]%Z -> int_less_than x v = Ok false.
Proof.
  assert (Ho : Heap.heap_ordered int_less_than [1; 3; 2]%Z)
    by (apply heap_orderedb_sound; vm_compute; reflexivity).
  assert (Hne : [1; 3; 2]%Z <> []) by discriminate.
  exact (conj int_ordering_ok (conj Ho (conj Hne
    (pop_ordered_returns_least int_less_than [1; 3; 2]%Z
       int_ordering_ok Ho Hne)))).
Defined.

Section HeapEdges.
Context {A : Type}.
Variable is_less_than : A -> A -> res bool.
Implicit Types L : list A.

Lemma up_heapify_no_index_error L i :
  (Heap.up_heapify is_less_than L i).2 <> Raise IndexError.
Proof.
  funelim (Heap.up_heapify is_less_than L i);
    try rewrite <- Heqcall; simpl; try done.
  match goal with E : Heap.up_body _ _ _ = _ |- _ =>
    apply up_body_throw in E as (a & b & _ & Hne) end.
  congruence.
Qed.

Lemma down_heapify_no_index_error L i :
  (Heap.down_heapify is_less_than L i).2 <> Raise IndexError.
Proof.
  funelim (Heap.down_heapify is_less_than L i);
    try rewrite <- Heqcall; simpl; try done.
  match goal with E : Heap.down_body _ _ _ = _ |- _ =>
    apply down_body_throw in E as (a & b & _ & Hne) end.
  congruence.
Qed.

(** What [pop] returns on a non-empty heap: the root, unless an exception
    other than [IndexError] escapes from a comparison. *)
Lemma pop_result L v :
  L !! 0 = Some v ->
  (Heap.pop is_less_than L).2 = Ok (Some v) \/
  exists e, (Heap.pop is_less_than L).2 = Raise e /\ e <> IndexError.
Proof.
  intros Hv. destruct L as [|v' L]; [done|]. injection Hv as ->.
  unfold Heap.pop. case_decide as H1.
  - destruct L; [|done]. simpl. auto.
  - case_decide as H0; [done|]. simpl getitem. cbv iota.
    destruct (list_pop (v :: L)) as [[x L1]|e] eqn:Ep.
    + apply list_pop_Ok in Ep.
      destruct L1 as [|v' L1]; [by destruct L|].
      unfold setitem. simpl.
      pose proof (down_heapify_no_index_error (x :: L1) 0) as Hn.
      change (<[0:=x]> (v' :: L1)) with (x :: L1).
      destruct (Heap.down_heapify is_less_than (x :: L1) 0) as [L3 [[]|e]];
        simpl in *; [by left|].
      right. exists e. split; [done|]. congruence.
    + unfold list_pop in Ep.
      destruct (last (v :: L)) eqn:El; [done|]. by apply last_None in El.
Qed.

(** An exception of the first comparison of [insert]: the element stays at
    the end, an [IndexError] is swallowed and anything else escapes. *)
Lemma up_heapify_first_raises L k x y e :
  0 < k -> L !! k = Some x -> L !! Heap.parent k = Some y ->
  is_less_than x y = Raise e ->
  Heap.up_heapify is_less_than L k =
  (L, if decide (e = IndexError) then Ok tt else Raise e).
Proof.
  intros Hk Hx Hy He. destruct k as [|j]; [lia|].
  assert (Hb : Heap.up_body is_less_than L (S j) =
               if decide (e = IndexError) then Heap.Break else Heap.Throw e).
  { unfold Heap.up_body. rewrite Hx, Hy, He. simpl. by destruct e. }
  funelim (Heap.up_heapify is_less_than L (S j));
    try rewrite <- Heqcall; rewrite Hb in *; case_decide; try done.
  congruence.
Qed.
End HeapEdges.

(** [list.index] finds a value that is stored. *)
Lemma index_found {A : Type} `{EqDecision A} (L : list A) (element : A) :
  element ∈ L ->
  exists i, Heap.index L element = Heap.At i /\ L !! i = Some element.
Proof.
  induction L as [|x L IH]; [by intros ?%elem_of_nil|].
  simpl. case_decide as E.
  - subst. by exists 0.
  - intros [?|Hin]%elem_of_cons; [done|].
    destruct (IH Hin) as (i & -> & Hi). by exists (S i).
Qed.

(** X4: [index(element)] returns the first position that holds a value
    equal to [element], and raises [ValueError] exactly when no position
    does. *)
Theorem index_first_occurrence {A : Type} `{EqDecision A}
    (L : list A) (element : A) :
  match Heap.index L element with
  | Heap.At i =>
    L !! i = Some element /\ forall j, j < i -> L !! j <> Some element
  | Heap.ValueError => element ∉ L
  end.
Proof.
  induction L as [|x L IH]; simpl.
  - apply not_elem_of_nil.
  - case_decide as E.
    + subst. split; [done|]. intros j Hj. lia.
    + destruct (Heap.index L element) as [i|].
      * destruct IH as [Hi Hfirst]. split; [done|].
        intros [|j] Hj; simpl; [congruence|]. apply Hfirst. lia.
      * apply not_elem_of_cons. auto.
Qed.

(** X5: after [insert(x)], [index(x)] finds [x], whatever the ordering
    does, also when a comparison raised. *)
Theorem index_after_insert {A : Type} `{EqDecision A}
    (is_less_than : A -> A -> res bool) (L : list A) (x : A) :
  exists i, Heap.index (Heap.insert is_less_than x L).1 x = Heap.At i /\
    (Heap.insert is_less_than x L).1 !! i = Some x.
Proof.
  apply index_found. rewrite (insert_perm is_less_than L x). left.
Qed.

(** X6: [pop] at the edges. On the empty heap it returns [None] and leaves
    the heap empty. Whenever it returns, what it returns is the element
    that was at position 0; it takes exactly one element out, also when a
    comparison raises, and it never raises [IndexError]. [insert] adds
    exactly one element, also when a comparison raises. *)
Theorem pop_insert_edges {A : Type}
    (is_less_than : A -> A -> res bool) (L : list A) (x : A) :
  Heap.pop is_less_than [] = ([], Ok None) /\
  match (Heap.pop is_less_than L).2 with
  | Ok r => r = L !! 0
  | Raise e => e <> IndexError
  end /\
  Heap.len (Heap.pop is_less_than L).1 = Heap.len L - 1 /\
  Heap.len (Heap.insert is_less_than x L).1 = S (Heap.len L).
Proof.
  unfold Heap.len. split; [done|].
  assert (Hins : length (Heap.insert is_less_than x L).1 = S (length L)).
  { by rewrite (insert_perm is_less_than L x). }
  destruct L as [|v L]; [by split_and!|].
  destruct (pop_perm is_less_than (v :: L)) as (v' & [= <-] & Hp & _); [done|].
  destruct (pop_result is_less_than (v :: L) v eq_refl) as [Hr|(e & Hr & He)];
    rewrite Hr; split_and!; try done.
  all: apply Permutation_length in Hp; simpl in *; lia.
Qed.

(** X7: when the comparison of the new element with its parent raises,
    [insert] leaves the element at the end without any repair; an
    [IndexError] is swallowed and [insert] returns, any other exception
    escapes. *)
Theorem insert_comparison_raises {A : Type}
    (is_less_than : A -> A -> res bool) (L : list A) (x y : A) (e : exn) :
  L !! Heap.parent (length L) = Some y -> is_less_than x y = Raise e ->
  Heap.insert is_less_than x L =
  (L ++ [x], if decide (e = IndexError) then Ok tt else Raise e).
Proof.
  intros Hy He. unfold Heap.insert. cbv zeta.
  rewrite length_app. simpl.
  replace (length L + 1 - 1) with (length L) by lia.
  assert (0 < length L) by (apply lookup_lt_Some in Hy; lia).
  apply (up_heapify_first_raises is_less_than _ _ x y); try done.
  - by rewrite lookup_app_r, Nat.sub_diag.
  - rewrite lookup_app_l; [done|].
    unfold Heap.parent. apply Nat.Div0.div_lt_upper_bound. lia.
Qed.

Lemma insert_comparison_raises_witness :
  [[VInt 1; VStr "a"]] !! Heap.parent (length [[VInt 1; VStr "a"]])
    = Some [VInt 1; VStr "a"] /\
  HeapOfTuples.is_less_than 1 [VInt 0] [VInt 1; VStr "a"] = Raise IndexError /\
  Heap.insert (HeapOfTuples.is_less_than 1) [VInt 0] [[VInt 1; VStr "a"]] =
  ([[VInt 1; VStr "a"]] ++ [[VInt 0]],
   if decide (IndexError = IndexError) then Ok tt else Raise IndexError).
Proof.
  assert (Hy : [[VInt 1; VStr "a"]] !! Heap.parent (length [[VInt 1; VStr "a"]])
               = Some [VInt 1; VStr "a"]) by reflexivity.
  assert (He : HeapOfTuples.is_less_than 1 [VInt 0] [VInt 1; VStr "a"]
               = Raise IndexError) by reflexivity.
  exact (conj Hy (conj He
    (insert_comparison_raises (HeapOfTuples.is_less_than 1)
       [[VInt 1; VStr "a"]] [VInt 0] [VInt 1; VStr "a"] IndexError Hy He))).
Defined.

Lemma pop_all_spec {A : Type} (is_less_than : A -> A -> res bool) (n : nat) :
  Heap.catches_all is_less_than ->
  forall (L : list A) out, length L = n ->
    exists vs, Heap.pop_all is_less_than n L out
                 = Some ([], Ok (out ++ (Some <$> vs))) /\ vs ≡ₚ L.
Proof.
  intros Hc. induction n as [|n IH]; intros L out Hlen.
  - destruct L; [|done]. exists []. simpl. by rewrite app_nil_r.
  - assert (Hne : L <> []) by (by intros ->).
    destruct (pop_perm is_less_than L Hne) as (v & _ & Hp & Hr).
    specialize (Hr Hc). simpl. unfold Heap.len.
    rewrite decide_True by lia.
    destruct (Heap.pop is_less_than L) as [L' r]. simpl in *. subst r.
    destruct (IH L' (out ++ [Some v])) as (vs & Hrun & Hvs).
    { apply Permutation_length in Hp. simpl in Hp. lia. }
    exists (v :: vs). split.
    + rewrite Hrun. by rewrite <- app_assoc.
    + by rewrite Hvs.
Qed.

(** X8: popping until the heap is empty takes as many pops as there are
    elements, and the values returned are the stored elements, each once (in
    some order). *)
Theorem pops_return_every_element {A : Type}
    (is_less_than : A -> A -> res bool) (L : list A) :
  Heap.catches_all is_less_than ->
  exists vs, Heap.pop_all is_less_than (length L) L []
               = Some ([], Ok (Some <$> vs)) /\ vs ≡ₚ L.
Proof.
  intros Hc.
  destruct (pop_all_spec is_less_than (length L) Hc L [] eq_refl)
    as (vs & Hrun & Hvs).
  eauto.
Qed.

Lemma pops_return_every_element_witness :
  Heap.catches_all int_less_than /\
  exists vs, Heap.pop_all int_less_than (length [0; 2; 1; 3]%Z) [0; 2; 1; 3]%Z []
               = Some ([], Ok (Some <$> vs)) /\ vs ≡ₚ [0; 2; 1; 3]%Z.
Proof.
  assert (Hc : Heap.catches_all int_less_than) by (intros a b e; discriminate).
  exact (conj Hc (pops_return_every_element int_less_than [0; 2; 1; 3]%Z Hc)).
Defined.

(** * Further properties of dicts and of the network *)

Section DictMore.
Context {K V : Type} `{EqDecision K}.
Implicit Types d : list (K * V).

Lemma dict_set_fresh d k v :
  dict_get d k = None -> dict_set d k v = d ++ [(k, v)].
Proof.
  induction d as [|[k' v'] d IH]; simpl; [done|].
  case_decide as E; [done|]. intros Hd. by rewrite IH.
Qed.


Lemma dict_getitem_keys d k :
  k ∈ dict_keys d -> exists v, dict_getitem d k = Ok v /\ (k, v) ∈ d.
Proof.
  intros [v Hv]%dict_in_keys%dict_in_true. exists v.
  unfold dict_getitem. rewrite Hv. split; [done|].
  by apply dict_get_Some_elem.
Qed.

Lemma dict_get_NoDup d k v :
  NoDup (dict_keys d) -> (k, v) ∈ d -> dict_get d k = Some v.
Proof.
  unfold dict_keys. induction d as [|[k' v'] d IH]; simpl.
  - by intros _ ?%elem_of_nil.
  - intros [Hk Hd]%NoDup_cons [[= -> ->]|Hin]%elem_of_cons.
    + by rewrite decide_True.
    + rewrite decide_False; [auto|]. intros ->. apply Hk.
      apply list_elem_of_fmap. by exists (k', v).
Qed.
End DictMore.

Section NetworkMore.
Context {N : Type} `{EqDecision N}.
Implicit Types self : @Network.net N.

Lemma del_weight_eq a b self :
  Network.del_weight a b self =
  match dict_get self a with
  | Some row =>
    if dict_in b row
    then (Ok tt, dict_set self a (filter (fun kv => kv.1 <> b) row))
    else (Raise KeyError, self)
  | None => (Raise KeyError, self)
  end.
Proof.
  unfold Network.del_weight, bind, get, put, lift, dict_getitem, dict_delitem.
  destruct (dict_get self a) as [row|]; simpl; [|done].
  by destruct (dict_in b row).
Qed.

Lemma del_weight_returns a b self :
  (exists self', Network.del_weight a b self = (Ok tt, self')) <->
  is_Some (Network.weight self a b).
Proof.
  rewrite del_weight_eq. unfold Network.weight.
  destruct (dict_get self a) as [row|].
  - rewrite <- dict_in_true. destruct (dict_in b row); split; eauto.
    + by intros [? ?].
    + done.
  - split; [by intros [? ?]|by intros [? ?]].
Qed.

Lemma del_weight_raises a b self :
  Network.weight self a b = None ->
  Network.del_weight a b self = (Raise KeyError, self).
Proof.
  rewrite del_weight_eq. unfold Network.weight.
  destruct (dict_get self a) as [row|]; [|done].
  intros Hb%dict_in_false. by rewrite Hb.
Qed.



Lemma row_sums_keys self (rows : list (N * list (N * Z))) :
  (forall n row, (n, row) ∈ rows -> dict_get self n = Some row) ->
  Network.row_sums self (dict_keys rows) =
  Ok ((fun r => Network.sum (dict_values r.2)) <$> rows).
Proof.
  induction rows as [|[n row] rows IH]; intros Hrows.
  - done.
  - change (dict_keys ((n, row) :: rows)) with (n :: dict_keys rows).
    cbn [Network.row_sums]. unfold dict_getitem.
    rewrite (Hrows n row) by left. cbn [rbind].
    rewrite IH; [done|]. intros m r Hm. apply Hrows. by right.
Qed.

Lemma row_sums_returns self ns :
  (forall n, n ∈ ns -> n ∈ dict_keys self) ->
  exists sums, Network.row_sums self ns = Ok sums.
Proof.
  induction ns as [|n ns IH]; intros Hns; simpl; [eauto|].
  destruct (dict_getitem_keys self n) as (row & -> & _).
  { apply Hns. by left. }
  simpl. destruct IH as [sums ->]; [|simpl; eauto].
  intros m Hm. apply Hns. by right.
Qed.
End NetworkMore.

Section NetworkEdges.
Context {N : Type} `{EqDecision N}.
Implicit Types self : @Network.net N.


Lemma sum_app (l1 l2 : list Z) :
  Network.sum (l1 ++ l2) = (Network.sum l1 + Network.sum l2)%Z.
Proof.
  unfold Network.sum. induction l1 as [|z l1 IH]; simpl; [done|].
  rewrite IH. lia.
Qed.

Lemma sum_ones (l : list Z) :
  Forall (fun z => z = 1%Z) l -> Network.sum l = Z.of_nat (length l).
Proof.
  unfold Network.sum. induction 1 as [|z l -> _ IH]; [done|].
  cbn [foldr length]. rewrite IH. lia.
Qed.

Lemma entries_cons (n : N) (row : list (N * Z)) self :
  RSTree.entries ((n, row) :: self) = dict_keys row ++ RSTree.entries self.
Proof. reflexivity. Qed.

Lemma sum_rows_ones self :
  Forall (fun r => Forall (fun e => e.2 = 1%Z) r.2) self ->
  Network.sum ((fun r => Network.sum (dict_values r.2)) <$> self)
  = Z.of_nat (length (RSTree.entries self)).
Proof.
  induction 1 as [|[n row] self Hrow _ IH]; [done|].
  rewrite fmap_cons, entries_cons, length_app, Nat2Z.inj_add.
  change (Network.sum (?z :: ?l)) with (z + Network.sum l)%Z.
  rewrite IH. f_equal.
  unfold dict_values, dict_keys. rewrite sum_ones.
  - by rewrite !length_fmap.
  - simpl in Hrow. by apply Forall_fmap.
Qed.
End NetworkEdges.

(** X9: [add_node] returns [None] and never touches a link. A new node is
    added at the end with an empty row; for a node already there the network
    stays as it is, and its links are kept. *)
Theorem add_node_effect {N : Type} `{EqDecision N}
    (node : N) (self : Network.net) :
  (Network.add_node node self).1 = Ok PyNone /\
  (Network.nodes (Network.add_node node self).2).1 =
    Ok (if dict_in node self then dict_keys self
        else dict_keys self ++ [node]) /\
  (Network.node_count (Network.add_node node self).2).1 =
    Ok (if dict_in node self then length self else S (length self)) /\
  (forall a b, Network.weight (Network.add_node node self).2 a b
               = Network.weight self a b) /\
  Network.add_node node (Network.add_node node self).2
    = (Ok PyNone, (Network.add_node node self).2).
Proof.
  split_and!.
  - by rewrite add_node_eq.
  - rewrite add_node_eq. simpl.
    destruct (dict_in node self) eqn:E; [done|].
    apply dict_in_false in E. rewrite (dict_set_fresh _ _ _ E).
    unfold Network.nodes, bind, get, ret, dict_keys. simpl.
    by rewrite fmap_app.
  - rewrite add_node_eq. simpl.
    destruct (dict_in node self) eqn:E; [done|].
    apply dict_in_false in E. rewrite (dict_set_fresh _ _ _ E).
    unfold Network.node_count, bind, get, ret. simpl.
    rewrite length_app. simpl. f_equal. lia.
  - intros a b. apply weight_add_node.
  - rewrite (add_node_eq node (Network.add_node node self).2).
    rewrite add_node_eq. simpl.
    destruct (dict_in node self) eqn:E; [by rewrite E|].
    assert (dict_in node (dict_set self node []) = true) as ->; [|done].
    apply dict_in_true. rewrite dict_get_set_eq. eauto.
Qed.


(** X11: on a network all of whose weights are 1, with fewer than [2**53]
    neighbor entries so that the float quotient is exact, [link_count]
    returns half the number of neighbor entries, rounded down; it raises
    nothing and leaves the network as it is. *)
Theorem link_count_halves_entries {N : Type} `{EqDecision N}
    (self : Network.net) :
  NoDup (dict_keys self) ->
  Forall (fun r : N * list (N * Z) => Forall (fun e => e.2 = 1%Z) r.2) self ->
  (Z.of_nat (length (RSTree.entries self)) < 2 ^ 53)%Z ->
  Network.link_count self =
  (Ok (Z.of_nat (length (RSTree.entries self) / 2)), self).
Proof.
  intros Hnd Hone _. unfold Network.link_count, bind, get, lift, ret.
  rewrite (row_sums_keys self self).
  - rewrite sum_rows_ones by done.
    rewrite Z.quot_div_nonneg by lia. by rewrite Nat2Z.inj_div.
  - intros n row Hin. by apply dict_get_NoDup.
Qed.

Lemma link_count_halves_entries_witness :
  NoDup (dict_keys ring4) /\
  Forall (fun r : Z * list (Z * Z) => Forall (fun e => e.2 = 1%Z) r.2) ring4 /\
  (Z.of_nat (length (RSTree.entries ring4)) < 2 ^ 53)%Z /\
  Network.link_count ring4 =
  (Ok (Z.of_nat (length (RSTree.entries ring4) / 2)), ring4).
Proof.
  assert (Hnd : NoDup (dict_keys ring4)).
  { apply (bool_decide_unpack _). vm_compute. exact I. }
  assert (Hone : Forall (fun r : Z * list (Z * Z) =>
                   Forall (fun e => e.2 = 1%Z) r.2) ring4).
  { repeat constructor. }
  assert (Hlen : (Z.of_nat (length (RSTree.entries ring4)) < 2 ^ 53)%Z)
    by (vm_compute; reflexivity).
  exact (conj Hnd (conj Hone (conj Hlen
    (link_count_halves_entries ring4 Hnd Hone Hlen)))).
Defined.

(** * Further properties of the rooted spanning tree *)

Section RSTreeComponent.
Context {N : Type} `{EqDecision N}.
Variable self : @Network.net N.
Variable root : N.
Hypothesis Hsym : Network.symmetric self.
Implicit Types (st : @RSTree.locals N) (a b c n : N).

(** The rows of [tree] belong to marked nodes only. *)
Lemma visit_tree_keys c n st st' :
  c ∈ RSTree.marked st ->
  (forall m, dict_in m (RSTree.tree st) = true -> m ∈ RSTree.marked st) ->
  RSTree.visit c n st = Ok st' ->
  (forall m, dict_in m (RSTree.tree st') = true -> m ∈ RSTree.marked st') /\
  c ∈ RSTree.marked st'.
Proof.
  intros Hc Hkeys Hv. unfold RSTree.visit in Hv.
  destruct (bool_decide (n ∈ RSTree.marked st)) eqn:Em; simpl in Hv.
  - apply bool_decide_eq_true in Em.
    destruct (dict_getitem (RSTree.tree st) c) as [row_c|]; simpl in Hv; [|done].
    destruct (dict_in n row_c); simpl in Hv; [by injection Hv as <-|].
    destruct (dict_getitem (RSTree.tree st) n) as [row_n|]; simpl in Hv; [|done].
    destruct (dict_in c row_n); simpl in Hv; [by injection Hv as <-|].
    destruct (tree_add_link_spec (RSTree.tree st) c n red)
      as (tr' & Ha & _ & Hin).
    rewrite Ha in Hv. simpl in Hv. injection Hv as <-. simpl.
    split; [|done]. intros m [->|[->|Hm]]%Hin; auto.
  - apply bool_decide_eq_false in Em.
    destruct (tree_add_link_spec (RSTree.tree st) c n green)
      as (tr' & Ha & _ & Hin).
    rewrite Ha in Hv. simpl in Hv. injection Hv as <-. simpl.
    split; [|apply elem_of_app; auto].
    intros m [->|[->|Hm]]%Hin; apply elem_of_app; auto.
    right. by apply list_elem_of_singleton.
Qed.

Lemma for_neighbors_tree_keys c l st st' :
  c ∈ RSTree.marked st ->
  (forall m, dict_in m (RSTree.tree st) = true -> m ∈ RSTree.marked st) ->
  RSTree.for_neighbors c l st = Ok st' ->
  forall m, dict_in m (RSTree.tree st') = true -> m ∈ RSTree.marked st'.
Proof.
  revert st. induction l as [|n l IH]; intros st Hc Hkeys; simpl.
  - by intros [= <-].
  - destruct (RSTree.visit c n st) as [st1|] eqn:Ev; simpl; [|done].
    destruct (visit_tree_keys c n st st1 Hc Hkeys Ev) as [Hkeys1 Hc1].
    by apply IH.
Qed.

Lemma while_open_tree_keys fuel st st' :
  between self root st ->
  (forall m, dict_in m (RSTree.tree st) = true -> m ∈ RSTree.marked st) ->
  (RSTree.while_open fuel st self).1 = Ok (Some st') ->
  forall m, dict_in m (RSTree.tree st') = true -> m ∈ RSTree.marked st'.
Proof.
  revert st. induction fuel as [|fuel IH]; intros st Hb Hkeys.
  - simpl. destruct (RSTree.open_list st) eqn:E; [|done].
    by intros [= <-].
  - destruct (RSTree.open_list st) as [|c rest] eqn:E.
    + rewrite while_open_nil by done. by intros [= <-].
    + rewrite (while_open_cons _ _ _ _ _ E).
      destruct (dict_get self c) as [row|] eqn:Ec; [|done].
      destruct (RSTree.for_neighbors _ _ _) as [st1|] eqn:Ef; [|done].
      assert (Hl : forall n, n ∈ dict_keys row -> linked self c n).
      { intros n Hn. by apply (linked_keys self c row). }
      pose proof (between_during self root _ _ _ Hb E) as Hdur.
      apply IH.
      * pose proof (for_neighbors_during self root Hsym c _ [] _ _ Hdur Hl Ef)
          as Hdur1.
        apply (during_between self root Hsym c _ _ Hdur1).
        intros n Hn. by apply (linked_keys self c row).
      * by apply (for_neighbors_tree_keys c (dict_keys row) _ st1 (proj1 Hdur)).
Qed.
End RSTreeComponent.

(** X12: without assuming the network connected. On a network with a
    symmetric adjacency and a root that is a node, the tree has a row for
    exactly the nodes that can be reached from the root; every edge at such
    a node is recorded (once green or twice red), a self-link as a red entry
    of the node to itself; and nothing is tagged outside the edges of these
    nodes. *)
Theorem rstree_spans_reachable {N : Type} `{EqDecision N}
    (self : Network.net) (root : N) (fuel : nat) :
  Network.symmetric self -> dict_in root self = true ->
  RSTree.enough self <= fuel ->
  exists t, (RSTree.init fuel root self).1 = Ok (Some t) /\
    (forall n, dict_in n (RSTree._tree t) = true <->
       RSTree.reachable self root n) /\
    (forall a b w, RSTree.reachable self root a ->
       Network.weight self a b = Some w ->
       RSTree.classified (RSTree._tree t) a b) /\
    (forall a w, RSTree.reachable self root a ->
       Network.weight self a a = Some w ->
       RSTree.tag (RSTree._tree t) a a = Some red) /\
    (forall a b, is_Some (RSTree.tag (RSTree._tree t) a b) ->
       RSTree.reachable self root a /\ RSTree.reachable self root b /\
       is_Some (Network.weight self a b)).
Proof.
  intros Hsym Hroot Hfuel.
  destruct (init_returns self fuel root (symmetric_closed self Hsym)
              Hfuel Hroot) as [st Hst].
  destruct (while_open_between self root Hsym _ _ _
              (between_init self root) Hst) as [Hb Hopen].
  assert (Hkeys : forall m, dict_in m (RSTree.tree st) = true ->
                    m ∈ RSTree.marked st).
  { apply (while_open_tree_keys self root Hsym fuel _ st
             (between_init self root)); [|done].
    simpl. intros m Hm. apply list_elem_of_singleton.
    unfold dict_in in Hm. simpl in Hm. by case_decide. }
  assert (Hclass : forall a b w, RSTree.reachable self root a ->
            Network.weight self a b = Some w ->
            RSTree.classified (RSTree.tree st) a b).
  { intros a b w Ha Hw.
    apply (between_end self root st a b Hb Hopen Ha). by exists w. }
  rewrite init_eq. cbv zeta. rewrite Hst. simpl.
  eexists. split; [done|]. simpl. split_and!.
  - intros n. split.
    + intros Hn. by apply (inv_reach self root _ _ _ Hb), Hkeys.
    + intros Hn. apply (inv_rows self root _ _ _ Hb).
      by apply (between_marked self root st n Hb Hopen).
  - done.
  - intros a w Ha Hw. destruct (Hclass a a w Ha Hw) as [[? ?]|[[? ?]|[? _]]];
      congruence.
  - intros a b Ht.
    destruct (inv_tags self root _ _ _ Hb a b Ht) as [[w Hw] Hcl].
    assert (Hab : forall x y v, Network.weight self x y = Some v ->
              RSTree.reachable self root x -> RSTree.reachable self root y).
    { intros x y v Hv Hx. by apply (RSTree.reach_step self root x y v). }
    assert (Hba : Network.weight self b a = Some w) by by apply Hsym.
    destruct Hcl as [[Ha _]|[Hb' _]].
    + apply (inv_reach self root _ _ _ Hb) in Ha. eauto.
    + apply (inv_reach self root _ _ _ Hb) in Hb'. eauto.
Qed.

Lemma rstree_spans_reachable_witness :
  Network.symmetric two_parts /\ dict_in 0%Z two_parts = true /\
  RSTree.enough two_parts <= 6 /\
  exists t, (RSTree.init 6 0%Z two_parts).1 = Ok (Some t) /\
    (forall n, dict_in n (RSTree._tree t) = true <->
       RSTree.reachable two_parts 0%Z n) /\
    (forall a b w, RSTree.reachable two_parts 0%Z a ->
       Network.weight two_parts a b = Some w ->
       RSTree.classified (RSTree._tree t) a b) /\
    (forall a w, RSTree.reachable two_parts 0%Z a ->
       Network.weight two_parts a a = Some w ->
       RSTree.tag (RSTree._tree t) a a = Some red) /\
    (forall a b, is_Some (RSTree.tag (RSTree._tree t) a b) ->
       RSTree.reachable two_parts 0%Z a /\ RSTree.reachable two_parts 0%Z b /\
       is_Some (Network.weight two_parts a b)).
Proof.
  assert (Hs : Network.symmetric two_parts)
    by (apply symmetricb_sound; vm_compute; reflexivity).
  assert (Hr : dict_in 0%Z two_parts = true) by reflexivity.
  assert (Hf : RSTree.enough two_parts <= 6) by (vm_compute; lia).
  exact (conj Hs (conj Hr (conj Hf
    (rstree_spans_reachable two_parts 0%Z 6 Hs Hr Hf)))).
Defined.

(** X13: a root with no neighbor gives a tree of one node and no edge,
    whatever else the network holds. *)
Theorem rstree_isolated_root {N : Type} `{EqDecision N}
    (self : Network.net) (root : N) (fuel : nat) :
  dict_get self root = Some [] ->
  exists t, RSTree.init (S fuel) root self = (Ok (Some t), self) /\
    RSTree.root t = root /\ RSTree._tree t = [(root, [])].
Proof.
  intros Hrow. rewrite init_eq. cbv zeta.
  rewrite (while_open_cons fuel
    {| RSTree.tree := [(root, [])]; RSTree.marked := [root];
       RSTree.open_list := [root] |} self root [] eq_refl).
  rewrite Hrow. simpl. rewrite while_open_nil by done. simpl. eauto.
Qed.

Lemma rstree_isolated_root_witness :
  dict_get [(7, []); (8, [(9, 1)])]%Z 7%Z = Some [] /\
  exists t, RSTree.init 1 7%Z [(7, []); (8, [(9, 1)])]%Z
              = (Ok (Some t), [(7, []); (8, [(9, 1)])]%Z) /\
    RSTree.root t = 7%Z /\ RSTree._tree t = [(7%Z, [])].
Proof.
  assert (Hrow : dict_get [(7, []); (8, [(9, 1)])]%Z 7%Z = Some [])
    by reflexivity.
  exact (conj Hrow
    (rstree_isolated_root [(7, []); (8, [(9, 1)])]%Z 7%Z 0 Hrow)).
Defined.

(** * Properties of the hypercube builder *)

Section DictAppend.
Context {K V : Type} `{EqDecision K}.
Implicit Types d : list (K * V).

Lemma dict_get_app d1 d2 k :
  dict_get (d1 ++ d2) k =
  match dict_get d1 k with Some v => Some v | None => dict_get d2 k end.
Proof.
  induction d1 as [|[k' v'] d1 IH]; simpl; [done|]. by case_decide.
Qed.

Lemma dict_set_app_r d1 d2 k v :
  dict_get d1 k = None -> dict_set (d1 ++ d2) k v = d1 ++ dict_set d2 k v.
Proof.
  induction d1 as [|[k' v'] d1 IH]; simpl; [done|].
  case_decide as E; [done|]. intros Hd. by rewrite IH.
Qed.

Lemma dict_get_snoc d k v k' :
  dict_get (d ++ [(k, v)]) k' =
  match dict_get d k' with
  | Some v' => Some v'
  | None => if decide (k' = k) then Some v else None
  end.
Proof. rewrite dict_get_app. simpl. done. Qed.
End DictAppend.

Section Hypercube.
Local Open Scope Z_scope.
Implicit Types (done todo : list (Z * list (Z * Z))).
Implicit Types (m a b : Z).

(** The row of [node1 + m]: the neighbors of [node1], moved up by [m]. *)
Local Abbreviation srow m ks := ((fun b : Z => (b + m, 1)) <$> ks).

Lemma dict_get_srow m (ks : list Z) b :
  dict_get (srow m ks) b = if decide (b - m ∈ ks) then Some 1 else None.
Proof.
  induction ks as [|k ks IH].
  - by destruct (decide (b - m ∈ [])) as [?%elem_of_nil|].
  - rewrite fmap_cons. cbn [dict_get].
    destruct (decide (b = k + m)) as [->|Hne].
    + destruct (decide (k + m - m ∈ k :: ks)) as [|Hn]; [done|].
      destruct Hn. replace (k + m - m) with k by lia. left.
    + rewrite IH. destruct (decide (b - m ∈ ks)) as [Hin|Hin];
        destruct (decide (b - m ∈ k :: ks)) as [Hin'|Hin']; try done.
      * destruct Hin'. by right.
      * apply elem_of_cons in Hin' as [?|?]; [lia|done].
Qed.

Lemma double_row_srow m (r : Z * list (Z * Z)) :
  NetworkFactory.double_row m r =
  [(r.1, r.2 ++ [(r.1 + m, 1)]);
   (r.1 + m, srow m (dict_keys r.2) ++ [(r.1, 1)])].
Proof.
  unfold NetworkFactory.double_row, dict_keys.
  by rewrite <- list_fmap_compose.
Qed.

Lemma for_node2_spec m (node1 : Z) (pre : list (Z * list (Z * Z)))
    (todo_keys : list Z) :
  forall done_keys : list Z,
  NoDup (done_keys ++ todo_keys) ->
  dict_get pre (node1 + m) = None ->
  NetworkFactory.for_node2 m node1 todo_keys
    (pre ++ [(node1 + m, srow m done_keys)])
  = Ok (pre ++ [(node1 + m, srow m (done_keys ++ todo_keys))]).
Proof.
  induction todo_keys as [|n2 rest IH]; intros done_keys Hnd Hpre; simpl.
  - by rewrite app_nil_r.
  - unfold NetworkFactory.set_shifted, dict_getitem.
    rewrite dict_get_snoc, Hpre, decide_True by done. simpl.
    rewrite dict_set_app_r by done. simpl. rewrite decide_True by done.
    rewrite dict_set_fresh; cycle 1.
    { rewrite dict_get_srow, decide_False; [done|].
      replace (n2 + m - m) with n2 by lia.
      apply NoDup_app in Hnd as (_ & Hdis & _). intros Hin.
      apply (Hdis n2 Hin). left. }
    change [(n2 + m, 1)] with (srow m [n2]). rewrite <- fmap_app.
    rewrite (IH (done_keys ++ [n2])).
    + by rewrite <- app_assoc.
    + by rewrite <- app_assoc.
    + done.
Qed.

(** One turn of [for node1 in network1] appends the two rows made of the
    row of [node1]. *)
Lemma copy_node_spec m (network1 acc : list (Z * list (Z * Z)))
    (node1 : Z) (row1 : list (Z * Z)) :
  m <> 0 ->
  dict_get network1 node1 = Some row1 ->
  dict_get acc node1 = None -> dict_get acc (node1 + m) = None ->
  NoDup (dict_keys row1) ->
  node1 + m ∉ dict_keys row1 -> node1 - m ∉ dict_keys row1 ->
  NetworkFactory.copy_node m network1 acc node1 =
  Ok (acc ++ NetworkFactory.double_row m (node1, row1)).
Proof.
  intros Hm Hrow Hacc Haccm Hnd Hup Hdown.
  unfold NetworkFactory.copy_node, dict_getitem. rewrite Hrow. simpl.
  rewrite (dict_set_fresh acc) by done.
  rewrite (dict_set_fresh (acc ++ _)); cycle 1.
  { rewrite dict_get_snoc, Haccm. rewrite decide_False; [done|lia]. }
  change [(node1 + m, [])] with [(node1 + m, srow m [])].
  rewrite (for_node2_spec m node1 (acc ++ [(node1, row1)]) _ []); cycle 1.
  { done. }
  { rewrite dict_get_snoc, Haccm. rewrite decide_False; [done|lia]. }
  simpl. rewrite <- app_assoc. simpl.
  set (rowm := srow m (dict_keys row1)).
  rewrite (dict_get_app acc _ node1), Hacc. cbn [dict_get].
  rewrite decide_True by done. cbn [rbind].
  rewrite (dict_set_app_r acc) by done. cbn [dict_set].
  rewrite decide_True by done.
  rewrite (dict_get_app acc _ (node1 + m)), Haccm. cbn [dict_get].
  rewrite decide_False by lia. rewrite decide_True by done. cbn [rbind].
  rewrite (dict_set_app_r acc) by done. cbn [dict_set].
  rewrite decide_False by lia. rewrite decide_True by done.
  rewrite double_row_srow. cbn [fst snd]. fold rowm. do 3 f_equal.
  - f_equal. apply dict_set_fresh. by apply dict_get_None_keys.
  - do 2 f_equal. apply dict_set_fresh.
    unfold rowm. rewrite dict_get_srow. by rewrite decide_False.
Qed.
Lemma double_net_cons m (r : Z * list (Z * Z)) todo :
  NetworkFactory.double_net m (r :: todo) =
  NetworkFactory.double_row m r ++ NetworkFactory.double_net m todo.
Proof. reflexivity. Qed.

Lemma double_net_app m done todo :
  NetworkFactory.double_net m (done ++ todo) =
  NetworkFactory.double_net m done ++ NetworkFactory.double_net m todo.
Proof. unfold NetworkFactory.double_net. apply bind_app. Qed.

Lemma dict_keys_app {K V : Type} (d1 d2 : list (K * V)) :
  dict_keys (d1 ++ d2) = dict_keys d1 ++ dict_keys d2.
Proof. unfold dict_keys. apply fmap_app. Qed.

Lemma dict_keys_double_net m todo x :
  x ∈ dict_keys (NetworkFactory.double_net m todo) <->
  exists n, n ∈ dict_keys todo /\ (x = n \/ x = n + m).
Proof.
  induction todo as [|[n row] todo IH].
  - split; [by intros ?%elem_of_nil|]. by intros (n & ?%elem_of_nil & _).
  - rewrite double_net_cons, dict_keys_app, elem_of_app, IH.
    change (dict_keys ((n, row) :: todo)) with (n :: dict_keys todo).
    change (dict_keys (NetworkFactory.double_row m (n, row)))
      with [n; n + m].
    split.
    + intros [Hx|(n' & Hn' & Hx)].
      * exists n. split; [left|].
        apply elem_of_cons in Hx as [->|Hx]; [by left|].
        apply list_elem_of_singleton in Hx. by right.
      * exists n'. split; [by right|done].
    + intros (n' & [->|Hn']%elem_of_cons & Hx).
      * left. destruct Hx as [->| ->]; [left|right; left].
      * right. eauto.
Qed.

Lemma below_app m done todo :
  NetworkFactory.below m (done ++ todo) ->
  NetworkFactory.below m done /\ NetworkFactory.below m todo /\
  forall n, n ∈ dict_keys done -> n ∉ dict_keys todo.
Proof.
  unfold NetworkFactory.below. rewrite dict_keys_app.
  intros [(Hd & Hdis & Ht)%NoDup_app [Hfd Hft]%Forall_app]. auto.
Qed.

(** The whole loop [for node1 in network1] builds the doubled network. *)
Lemma for_node1_spec m (network1 : list (Z * list (Z * Z))) todo :
  0 < m ->
  (forall r, r ∈ todo -> dict_get network1 r.1 = Some r.2) ->
  forall done, NetworkFactory.below m (done ++ todo) ->
  NetworkFactory.for_node1 m network1 (dict_keys todo)
    (NetworkFactory.double_net m done)
  = Ok (NetworkFactory.double_net m (done ++ todo)).
Proof.
  intros Hm. induction todo as [|[node1 row1] todo IH]; intros Hrows done Hbelow.
  - by rewrite app_nil_r.
  - change (dict_keys ((node1, row1) :: todo)) with (node1 :: dict_keys todo).
    cbn [NetworkFactory.for_node1].
    destruct (below_app _ _ _ Hbelow) as (Hbd & [Hndt Hft] & Hdis).
    apply Forall_cons in Hft as [(Hrange & Hndrow & Hrowrange) Hft].
    simpl in Hrange, Hndrow, Hrowrange.
    rewrite Forall_forall in Hrowrange.
    assert (Hdone : forall n, n ∈ dict_keys done -> 0 <= n < m /\ n <> node1).
    { intros n Hn. split.
      - destruct Hbd as [_ Hfd]. rewrite Forall_forall in Hfd.
        apply list_elem_of_fmap in Hn as ([n' row'] & -> & Hin).
        by destruct (Hfd _ Hin).
      - intros ->. apply (Hdis _ Hn). left. }
    rewrite (copy_node_spec m network1 _ node1 row1); try done; try lia.
    + cbn [rbind].
      replace (NetworkFactory.double_net m done ++
               NetworkFactory.double_row m (node1, row1))
        with (NetworkFactory.double_net m (done ++ [(node1, row1)])); cycle 1.
      { rewrite double_net_app, double_net_cons. by rewrite app_nil_r. }
      rewrite (IH (fun r Hr => Hrows r (list_elem_of_further _ _ _ Hr))
                 (done ++ [(node1, row1)])).
      * by rewrite <- app_assoc.
      * by rewrite <- app_assoc.
    + apply (Hrows (node1, row1)). left.
    + apply dict_get_None_keys. intros (n & Hn & Hx)%dict_keys_double_net.
      destruct (Hdone n Hn). lia.
    + apply dict_get_None_keys. intros (n & Hn & Hx)%dict_keys_double_net.
      destruct (Hdone n Hn). lia.
    + intros Hin%Hrowrange. lia.
    + intros Hin%Hrowrange. lia.
Qed.
Lemma dict_keys_srow m (ks : list Z) :
  dict_keys (srow m ks) = (fun b => b + m) <$> ks.
Proof. unfold dict_keys. by rewrite <- list_fmap_compose. Qed.

(** One level of the recursion keeps the keys apart and below twice the
    bound. *)
Lemma below_double m todo :
  0 < m -> NetworkFactory.below m todo ->
  NetworkFactory.below (2 * m) (NetworkFactory.double_net m todo).
Proof.
  intros Hm [Hnd Hall]. split.
  - induction todo as [|[n row] todo IH]; [constructor|].
    change (dict_keys ((n, row) :: todo)) with (n :: dict_keys todo) in Hnd.
    apply NoDup_cons in Hnd as [Hn Hnd].
    apply Forall_cons in Hall as [(Hrange & _) Hall]. simpl in Hrange.
    assert (Hother : forall n', n' ∈ dict_keys todo -> 0 <= n' < m /\ n' <> n).
    { intros n' Hn'. split; [|by intros ->].
      rewrite Forall_forall in Hall.
      apply list_elem_of_fmap in Hn' as ([n'' row'] & -> & Hin).
      by destruct (Hall _ Hin). }
    rewrite double_net_cons, dict_keys_app.
    change (dict_keys (NetworkFactory.double_row m (n, row))) with [n; n + m].
    apply NoDup_cons. split.
    { intros [?|Hin]%elem_of_cons; [lia|].
      apply dict_keys_double_net in Hin as (n' & Hn' & Hx).
      destruct (Hother n' Hn'). lia. }
    apply NoDup_cons. split; [|by apply IH].
    intros (n' & Hn' & Hx)%dict_keys_double_net.
    destruct (Hother n' Hn'). lia.
  - unfold NetworkFactory.double_net. apply Forall_bind.
    eapply Forall_impl; [exact Hall|].
    intros [n row] (Hrange & Hndrow & Hrowrange). simpl in *.
    rewrite Forall_forall in Hrowrange.
    rewrite double_row_srow. cbn [fst snd].
    apply Forall_cons; split; [|apply Forall_cons; split; [|constructor]];
      cbn [fst snd].
    + split; [lia|]. rewrite dict_keys_app.
      change (dict_keys [(n + m, 1)]) with [n + m]. split.
      * apply NoDup_app. split_and!; [done| |apply NoDup_singleton].
        intros b Hb%Hrowrange ?%list_elem_of_singleton. lia.
      * apply Forall_app. split; [|by repeat constructor; lia].
        apply Forall_forall. intros b Hb%Hrowrange. lia.
    + split; [lia|]. rewrite dict_keys_app, dict_keys_srow.
      change (dict_keys [(n, 1)]) with [n]. split.
      * apply NoDup_app. split_and!; [| |apply NoDup_singleton].
        -- apply NoDup_fmap; [|done]. intros x y. lia.
        -- intros b (b' & -> & Hb'%Hrowrange)%list_elem_of_fmap
             ?%list_elem_of_singleton. lia.
      * apply Forall_app. split; [|by repeat constructor; lia].
        apply Forall_forall.
        intros b (b' & -> & Hb'%Hrowrange)%list_elem_of_fmap. lia.
Qed.

Lemma below_cube (k : nat) :
  NetworkFactory.below (2 ^ Z.of_nat k) (NetworkFactory.cube k).
Proof.
  induction k as [|k IH].
  - split; [apply NoDup_singleton|]. repeat constructor; simpl; lia.
  - rewrite Nat2Z.inj_succ, Z.pow_succ_r by lia.
    apply below_double; [|done]. apply Z.pow_pos_nonneg; lia.
Qed.
(** ** The arithmetic of [n == 1] and [int(n/2)] *)

Lemma py_int_half (q : Q) (z : Z) :
  (q == inject_Z z)%Q -> NetworkFactory.py_int (q / 2) = Z.quot z 2.
Proof.
  destruct q as [a d]. unfold Qeq, NetworkFactory.py_int. simpl.
  rewrite !Z.mul_1_r. intros ->.
  rewrite Pos2Z.inj_mul, (Z.mul_comm (Z.pos d) (Z.pos 2)).
  rewrite Z.quot_mul_cancel_r; [done| |]; lia.
Qed.

Lemma is_one_inject (q : Q) (z : Z) :
  (q == inject_Z z)%Q -> Qeq_bool q 1 = bool_decide (z = 1).
Proof.
  intros Hq. destruct (Qeq_bool q 1) eqn:E.
  - apply Qeq_bool_iff in E. rewrite Hq in E.
    unfold Qeq in E. simpl in E. by rewrite bool_decide_eq_true_2 by lia.
  - rewrite bool_decide_eq_false_2; [done|]. intros ->.
    apply Qeq_bool_neq in E. by apply E.
Qed.

(** With room for [k + 1] calls, [_rec_build_hc_net(2**k)] returns the cube
    of dimension [k]. *)
Lemma rec_build_cube (k : nat) :
  forall (depth : nat) (q : Q),
    (k < depth)%nat -> (q == inject_Z (2 ^ Z.of_nat k))%Q ->
    NetworkFactory._rec_build_hc_net depth q
    = Some (Ok (NetworkFactory.cube k)).
Proof.
  induction k as [|k IH]; intros [|depth] q Hd Hq; try lia.
  - cbn [NetworkFactory._rec_build_hc_net].
    by rewrite (is_one_inject q _ Hq).
  - cbn [NetworkFactory._rec_build_hc_net].
    assert (Hpos : 0 < 2 ^ Z.of_nat k) by (apply Z.pow_pos_nonneg; lia).
    assert (Hpow : 2 ^ Z.of_nat (S k) = 2 * 2 ^ Z.of_nat k).
    { rewrite Nat2Z.inj_succ, Z.pow_succ_r; lia. }
    rewrite (is_one_inject q _ Hq).
    rewrite bool_decide_eq_false_2 by lia. cbv zeta.
    rewrite (py_int_half q _ Hq), Hpow.
    rewrite Z.mul_comm, Z.quot_mul by lia.
    rewrite (IH depth) by (lia || reflexivity).
    f_equal.
    pose proof (below_cube k) as Hb.
    apply (for_node1_spec _ (NetworkFactory.cube k) (NetworkFactory.cube k)
             Hpos) with (done := []); [|done].
    intros [n row] Hin. apply dict_get_NoDup; [by destruct Hb|done].
Qed.

Lemma rec_build_zero (depth : nat) :
  NetworkFactory._rec_build_hc_net depth (inject_Z 0) = None.
Proof.
  induction depth as [|depth IH]; [done|].
  cbn [NetworkFactory._rec_build_hc_net].
  rewrite (is_one_inject (inject_Z 0) 0) by reflexivity.
  rewrite bool_decide_eq_false_2 by lia. cbv zeta.
  rewrite (py_int_half (inject_Z 0) 0) by reflexivity.
  change (Z.quot 0 2) with 0. by rewrite IH.
Qed.

(** The doubling loop stops at the first power of two above [size]. *)
Lemma double_past_spec (size : Z) (nn : positive) :
  exists i : nat,
    Z.pos (NetworkFactory.double_past size nn) = Z.pos nn * 2 ^ Z.of_nat i /\
    size < Z.pos (NetworkFactory.double_past size nn) /\
    (i <> 0%nat -> Z.pos (NetworkFactory.double_past size nn) <= 2 * size).
Proof.
  funelim (NetworkFactory.double_past size nn); try rewrite <- Heqcall.
  - destruct H as (i & Hr & Hlt & Hle). exists (S i). split_and!.
    + rewrite Hr, Nat2Z.inj_succ, Z.pow_succ_r by lia. lia.
    + done.
    + intros _. destruct i as [|i]; [|apply Hle; lia].
      rewrite Hr. simpl. lia.
  - exists 0%nat. simpl. split_and!; try lia.
Qed.

Lemma double_past_one (size : Z) :
  1 <= size ->
  Z.pos (NetworkFactory.double_past size 1) = 2 * 2 ^ Z.log2 size.
Proof.
  intros Hsize. destruct (double_past_spec size 1) as ([|i] & Hr & Hlt & Hle).
  - simpl in Hr. lia.
  - specialize (Hle ltac:(lia)). rewrite Hr in Hlt, Hle. rewrite Hr.
    rewrite Nat2Z.inj_succ, Z.pow_succ_r in Hlt, Hle |- * by lia.
    assert (Hlog : Z.log2 size = Z.of_nat i).
    { apply Z.log2_unique; [lia|]. rewrite Z.pow_succ_r by lia. lia. }
    rewrite Hlog. lia.
Qed.
(** ** One binary digit apart *)

Lemma land_pow2_small a k :
  0 <= k -> 0 <= a < 2 ^ k -> Z.land a (2 ^ k) = 0.
Proof.
  intros Hk Ha. apply Z.bits_inj'. intros n Hn.
  rewrite Z.land_spec, Z.pow2_bits_eqb, Z.bits_0 by done.
  destruct (Z.eqb_spec k n) as [->|Hne]; [|apply andb_false_r].
  rewrite andb_true_r. destruct (decide (a = 0)) as [->|Hnz].
  - apply Z.bits_0.
  - apply Z.bits_above_log2; [lia|]. apply Z.log2_lt_pow2; lia.
Qed.

Lemma add_pow2_lxor a k :
  0 <= k -> 0 <= a < 2 ^ k -> a + 2 ^ k = Z.lxor a (2 ^ k).
Proof. intros Hk Ha. by apply Z.add_nocarry_lxor, land_pow2_small. Qed.

Lemma sub_pow2_lxor a k :
  0 <= k -> 2 ^ k <= a < 2 * 2 ^ k -> a - 2 ^ k = Z.lxor a (2 ^ k).
Proof.
  intros Hk Ha.
  replace a with (a - 2 ^ k + 2 ^ k) at 2 by lia.
  rewrite (add_pow2_lxor (a - 2 ^ k) k) by lia.
  by rewrite Z.lxor_assoc, Z.lxor_nilpotent, Z.lxor_0_r.
Qed.

Lemma lxor_pow2_small a j k :
  0 <= j < k -> 0 <= a < 2 ^ k -> 0 <= Z.lxor a (2 ^ j) < 2 ^ k.
Proof.
  intros Hj Ha.
  assert (H2j : 0 < 2 ^ j) by (apply Z.pow_pos_nonneg; lia).
  assert (Hnn : 0 <= Z.lxor a (2 ^ j)) by (apply Z.lxor_nonneg; lia).
  split; [done|].
  destruct (decide (Z.lxor a (2 ^ j) = 0)) as [->|Hnz].
  { apply Z.pow_pos_nonneg; lia. }
  apply Z.log2_lt_pow2; [lia|].
  pose proof (Z.log2_lxor a (2 ^ j) ltac:(lia) ltac:(lia)) as Hlog.
  rewrite Z.log2_pow2 in Hlog by lia.
  assert (Z.log2 a < k).
  { destruct (decide (a = 0)) as [->|]; [simpl; lia|].
    apply Z.log2_lt_pow2; lia. }
  lia.
Qed.

(** Adjacency one dimension up: inside the lower half, inside the upper
    half, or across by the new digit. *)
Lemma adjacent_succ (k : nat) a b :
  NetworkFactory.adjacent (S k) a b <->
  (0 <= a < 2 ^ Z.of_nat k /\
   (NetworkFactory.adjacent k a b \/ b = a + 2 ^ Z.of_nat k)) \/
  (2 ^ Z.of_nat k <= a < 2 * 2 ^ Z.of_nat k /\
   (NetworkFactory.adjacent k (a - 2 ^ Z.of_nat k) (b - 2 ^ Z.of_nat k) \/
    b = a - 2 ^ Z.of_nat k)).
Proof.
  unfold NetworkFactory.adjacent.
  rewrite Nat2Z.inj_succ, Z.pow_succ_r by lia.
  set (K := Z.of_nat k). set (m := 2 ^ K).
  assert (HK : 0 <= K) by lia.
  assert (Hm : 0 < m) by (apply Z.pow_pos_nonneg; lia).
  assert (Hshift : forall a' j, 0 <= a' < m -> 0 <= j < K ->
    Z.lxor (a' + m) (2 ^ j) = Z.lxor a' (2 ^ j) + m).
  { intros a' j Ha' Hj. unfold m.
    rewrite (add_pow2_lxor a' K), (add_pow2_lxor (Z.lxor a' (2 ^ j)) K);
      try done; [|by apply lxor_pow2_small].
    rewrite !Z.lxor_assoc. f_equal. apply Z.lxor_comm. }
  split.
  - intros [Ha (j & Hj & ->)].
    destruct (decide (a < m)) as [Hlow|Hhigh].
    + left. split; [lia|]. destruct (decide (j = K)) as [->|Hne].
      * right. symmetry. apply add_pow2_lxor; lia.
      * left. split; [lia|]. exists j. split; [lia|done].
    + right. split; [lia|]. destruct (decide (j = K)) as [->|Hne].
      * right. symmetry. apply sub_pow2_lxor; lia.
      * left. split; [lia|]. exists j. split; [lia|].
        replace a with (a - m + m) at 1 by lia.
        rewrite Hshift by lia. lia.
  - intros [[Ha [[_ (j & Hj & ->)]| ->]]|[Ha [[_ (j & Hj & Hb)]| ->]]].
    + split; [lia|]. exists j. split; [lia|done].
    + split; [lia|]. exists K. split; [lia|]. apply add_pow2_lxor; lia.
    + split; [lia|]. exists j. split; [lia|].
      replace a with (a - m + m) at 1 by lia.
      rewrite Hshift by lia. lia.
    + split; [lia|]. exists K. split; [lia|]. apply sub_pow2_lxor; lia.
Qed.
(** ** Looking up the doubled network *)

Lemma below_get m todo n (row : list (Z * Z)) :
  NetworkFactory.below m todo -> dict_get todo n = Some row ->
  0 <= n < m /\ forall b, b ∈ dict_keys row -> 0 <= b < m.
Proof.
  intros [_ Hall] Hn%dict_get_Some_elem.
  rewrite Forall_forall in Hall. destruct (Hall _ Hn) as (? & _ & Hrow).
  rewrite Forall_forall in Hrow. auto.
Qed.

Lemma below_get_None m todo n :
  NetworkFactory.below m todo -> ~ 0 <= n < m -> dict_get todo n = None.
Proof.
  intros Hb Hn. destruct (dict_get todo n) as [row|] eqn:E; [|done].
  by destruct (below_get _ _ _ _ Hb E).
Qed.

Lemma dict_get_double_net m todo a :
  0 < m -> NetworkFactory.below m todo ->
  dict_get (NetworkFactory.double_net m todo) a =
  match dict_get todo a with
  | Some row => Some (row ++ [(a + m, 1)])
  | None =>
    match dict_get todo (a - m) with
    | Some row => Some (srow m (dict_keys row) ++ [(a - m, 1)])
    | None => None
    end
  end.
Proof.
  intros Hm. induction todo as [|[n row] todo IH]; intros Hb; [done|].
  destruct (below_app m [(n, row)] todo Hb) as (Hb1 & Hb2 & _).
  assert (Hn : 0 <= n < m).
  { destruct Hb1 as [_ Hall]. apply Forall_cons in Hall as [(? & _) _]. done. }
  rewrite double_net_cons, double_row_srow. cbn [fst snd app dict_get].
  destruct (decide (a = n)) as [->|Han]; [done|].
  destruct (decide (a = n + m)) as [->|Hanm].
  - rewrite (below_get_None m todo (n + m)) by (done || lia).
    replace (n + m - m) with n by lia. by rewrite decide_True.
  - rewrite decide_False by lia. by apply IH.
Qed.

Lemma weight_double_net m todo a b :
  0 < m -> NetworkFactory.below m todo ->
  Network.weight (NetworkFactory.double_net m todo) a b =
  match dict_get todo a with
  | Some row =>
    match dict_get row b with
    | Some w => Some w
    | None => if decide (b = a + m) then Some 1 else None
    end
  | None =>
    match dict_get todo (a - m) with
    | Some row =>
      if decide (b - m ∈ dict_keys row) then Some 1
      else if decide (b = a - m) then Some 1 else None
    | None => None
    end
  end.
Proof.
  intros Hm Hb. unfold Network.weight.
  rewrite (dict_get_double_net m todo a Hm Hb).
  destruct (dict_get todo a) as [row|].
  - apply dict_get_snoc.
  - destruct (dict_get todo (a - m)) as [row|]; [|done].
    rewrite dict_get_snoc, dict_get_srow. by case_decide.
Qed.

(** The cube of dimension [k]: its nodes are the numbers below [2**k],
    every weight is 1, and two nodes are linked exactly when they are one
    binary digit apart. *)
Lemma cube_spec (k : nat) :
  (forall a, is_Some (dict_get (NetworkFactory.cube k) a) <->
     0 <= a < 2 ^ Z.of_nat k) /\
  (forall a b w, Network.weight (NetworkFactory.cube k) a b = Some w -> w = 1) /\
  (forall a b, is_Some (Network.weight (NetworkFactory.cube k) a b) <->
     NetworkFactory.adjacent k a b).
Proof.
  induction k as [|k (IHn & IHw & IHa)].
  - split_and!.
    + intros a. simpl. case_decide as E.
      * subst. split; [lia|eauto].
      * split; [by intros [? ?]|lia].
    + intros a b w. unfold Network.weight. simpl. by case_decide.
    + intros a b. unfold Network.weight, NetworkFactory.adjacent. simpl.
      split.
      * case_decide; by intros [? ?].
      * intros (_ & j & Hj & _). lia.
  - pose proof (below_cube k) as Hb.
    set (m := 2 ^ Z.of_nat k) in *.
    assert (Hm : 0 < m) by (apply Z.pow_pos_nonneg; lia).
    assert (Hrow : forall a row, dict_get (NetworkFactory.cube k) a = Some row ->
      forall b, dict_get row b = Network.weight (NetworkFactory.cube k) a b).
    { intros a row Ha b. unfold Network.weight. by rewrite Ha. }
    change (NetworkFactory.cube (S k))
      with (NetworkFactory.double_net m (NetworkFactory.cube k)).
    split_and!.
    + intros a. rewrite (dict_get_double_net m _ a Hm Hb).
      rewrite Nat2Z.inj_succ, Z.pow_succ_r by lia. fold m.
      destruct (dict_get (NetworkFactory.cube k) a) as [row|] eqn:Ea.
      * assert (0 <= a < m) by (apply IHn; eauto). split; [lia|eauto].
      * assert (~ 0 <= a < m).
        { intros Ha%IHn. rewrite Ea in Ha. by destruct Ha. }
        destruct (dict_get (NetworkFactory.cube k) (a - m)) as [row|] eqn:Eam.
        -- assert (0 <= a - m < m) by (apply IHn; eauto). split; [lia|eauto].
        -- split; [by intros [? ?]|]. intros Ha.
           assert (Hs : is_Some (dict_get (NetworkFactory.cube k) (a - m)))
             by (apply IHn; lia).
           rewrite Eam in Hs. by destruct Hs.
    + intros a b w. rewrite (weight_double_net m _ a b Hm Hb).
      destruct (dict_get (NetworkFactory.cube k) a) as [row|] eqn:Ea.
      * rewrite (Hrow a row Ea).
        destruct (Network.weight (NetworkFactory.cube k) a b) eqn:Ew.
        -- intros [= <-]. eauto.
        -- case_decide; [by intros [= <-]|done].
      * destruct (dict_get (NetworkFactory.cube k) (a - m)); [|done].
        repeat case_decide; by intros [= <-].
    + intros a b. rewrite adjacent_succ. fold m.
      rewrite (weight_double_net m _ a b Hm Hb).
      destruct (dict_get (NetworkFactory.cube k) a) as [row|] eqn:Ea.
      * assert (Ha : 0 <= a < m) by (apply IHn; eauto).
        rewrite (Hrow a row Ea), <- IHa.
        destruct (Network.weight (NetworkFactory.cube k) a b) eqn:Ew.
        -- split; [left; eauto|eauto].
        -- case_decide as E.
           ++ split; [left; auto|eauto].
           ++ split; [by intros [? ?]|].
              intros [[_ [[? ?]|?]]|[? _]]; (done || lia).
      * assert (Hna : ~ 0 <= a < m).
        { intros Ha%IHn. rewrite Ea in Ha. by destruct Ha. }
        destruct (dict_get (NetworkFactory.cube k) (a - m)) as [row|] eqn:Eam.
        -- assert (Ha : 0 <= a - m < m) by (apply IHn; eauto).
           rewrite <- (IHa (a - m) (b - m)). unfold Network.weight. rewrite Eam.
           rewrite <- dict_in_true, dict_in_keys.
           destruct (decide (b - m ∈ dict_keys row)) as [Hin|Hin].
           ++ split; [right; split; [lia|auto]|eauto].
           ++ case_decide as E.
              ** split; [right; split; [lia|auto]|eauto].
              ** split; [by intros [? ?]|].
                 intros [[? _]|[_ [?|?]]]; (done || lia).
        -- split; [by intros [? ?]|].
           intros [[? _]|[Ha _]]; [done|].
           assert (Hs : is_Some (dict_get (NetworkFactory.cube k) (a - m)))
             by (apply IHn; lia).
           rewrite Eam in Hs. by destruct Hs.
Qed.
(** ** What the builder returns *)

Lemma build_hypercube_eq (depth : nat) (size : Z) :
  1 <= size -> (Z.to_nat (Z.log2 size) < depth)%nat ->
  NetworkFactory.build_hypercube_network depth size
  = Some (Ok (NetworkFactory.cube (Z.to_nat (Z.log2 size)))).
Proof.
  intros Hsize Hdepth. unfold NetworkFactory.build_hypercube_network.
  cbv zeta.
  rewrite (rec_build_cube (Z.to_nat (Z.log2 size))); [done|done|].
  rewrite double_past_one by done.
  rewrite Z2Nat.id by apply Z.log2_nonneg.
  unfold Qeq, Qdiv, Qmult, Qinv, inject_Z. simpl. lia.
Qed.

Lemma build_hypercube_None (depth : nat) (size : Z) :
  size < 1 -> NetworkFactory.build_hypercube_network depth size = None.
Proof.
  intros Hsize. unfold NetworkFactory.build_hypercube_network. cbv zeta.
  assert (Hnn : NetworkFactory.double_past size 1 = 1%positive).
  { funelim (NetworkFactory.double_past size 1); [lia|done]. }
  rewrite Hnn. destruct depth as [|depth]; [done|].
  cbn [NetworkFactory._rec_build_hc_net].
  replace (Qeq_bool (inject_Z 1 / 2) 1) with false by done.
  replace (NetworkFactory.py_int (inject_Z 1 / 2 / 2)) with 0 by done.
  cbv zeta. by rewrite rec_build_zero.
Qed.

Lemma adjacent_sym (k : nat) a b :
  NetworkFactory.adjacent k a b -> NetworkFactory.adjacent k b a.
Proof.
  intros (Ha & j & Hj & ->). split.
  - apply lxor_pow2_small; [lia|done].
  - exists j. split; [done|].
    by rewrite Z.lxor_assoc, Z.lxor_nilpotent, Z.lxor_0_r.
Qed.

Lemma adjacent_irrefl (k : nat) a : ~ NetworkFactory.adjacent k a a.
Proof.
  intros (Ha & j & Hj & E).
  assert (H0 : Z.lxor a a = Z.lxor a (Z.lxor a (2 ^ j))) by congruence.
  rewrite <- Z.lxor_assoc, !Z.lxor_nilpotent, Z.lxor_0_l in H0.
  assert (0 < 2 ^ j) by (apply Z.pow_pos_nonneg; lia). lia.
Qed.

Lemma cube_weight (k : nat) a b w :
  Network.weight (NetworkFactory.cube k) a b = Some w <->
  w = 1 /\ NetworkFactory.adjacent k a b.
Proof.
  destruct (cube_spec k) as (_ & Hw & Hadj). split.
  - intros H. split; [by apply (Hw a b)|]. apply Hadj. eauto.
  - intros [-> [w' Hw']%Hadj]. by rewrite Hw', (Hw a b w' Hw').
Qed.

Lemma cube_symmetric (k : nat) : Network.symmetric (NetworkFactory.cube k).
Proof.
  intros a b w. rewrite !cube_weight.
  split; intros [? ?]; split; auto using adjacent_sym.
Qed.

Lemma cube_no_self_links (k : nat) :
  RSTree.no_self_links (NetworkFactory.cube k).
Proof.
  intros a.
  destruct (Network.weight (NetworkFactory.cube k) a a) as [w|] eqn:E; [|done].
  apply cube_weight in E as [_ E]. by apply adjacent_irrefl in E.
Qed.

Lemma cube_dict_in (k : nat) a :
  dict_in a (NetworkFactory.cube k) = true <-> 0 <= a < 2 ^ Z.of_nat k.
Proof. rewrite dict_in_true. apply cube_spec. Qed.

(** ** The cube is connected *)

Lemma reachable_trans {N : Type} `{EqDecision N} (self : @Network.net N)
    (x y z : N) :
  RSTree.reachable self x y -> RSTree.reachable self y z ->
  RSTree.reachable self x z.
Proof.
  intros Hxy Hyz. induction Hyz as [|z d w _ IH Hw]; [done|].
  by apply (RSTree.reach_step self x z d w).
Qed.

Lemma reachable_sym {N : Type} `{EqDecision N} (self : @Network.net N)
    (x y : N) :
  Network.symmetric self ->
  RSTree.reachable self x y -> RSTree.reachable self y x.
Proof.
  intros Hsym Hxy. induction Hxy as [|y z w _ IH Hw]; [constructor|].
  apply (reachable_trans self z y x); [|done].
  apply (RSTree.reach_step self z z y w); [constructor|]. by apply Hsym.
Qed.

Lemma cube_reachable_zero (k j : nat) :
  (j <= k)%nat -> forall a, 0 <= a < 2 ^ Z.of_nat j ->
  RSTree.reachable (NetworkFactory.cube k) 0 a.
Proof.
  induction j as [|j IH]; intros Hj a Ha.
  - replace a with 0 by (simpl in Ha; lia). constructor.
  - rewrite Nat2Z.inj_succ, Z.pow_succ_r in Ha by lia.
    assert (Hle : 2 ^ Z.of_nat j < 2 ^ Z.of_nat k)
      by (apply Z.pow_lt_mono_r; lia).
    destruct (decide (a < 2 ^ Z.of_nat j)) as [Hlt|Hge]; [apply IH; lia|].
    apply (RSTree.reach_step _ 0 (a - 2 ^ Z.of_nat j) a 1).
    + apply IH; lia.
    + apply cube_weight. split; [done|]. split; [lia|].
      exists (Z.of_nat j). split; [lia|].
      rewrite <- add_pow2_lxor by lia. lia.
Qed.

Lemma cube_connected (k : nat) root :
  0 <= root < 2 ^ Z.of_nat k ->
  RSTree.connected_from (NetworkFactory.cube k) root.
Proof.
  intros Hroot n Hn%cube_dict_in.
  apply (reachable_trans _ root 0 n).
  - apply reachable_sym; [apply cube_symmetric|].
    by apply (cube_reachable_zero k k).
  - by apply (cube_reachable_zero k k).
Qed.

Lemma cube_reachable (k : nat) root n :
  0 <= root < 2 ^ Z.of_nat k ->
  RSTree.reachable (NetworkFactory.cube k) root n <-> 0 <= n < 2 ^ Z.of_nat k.
Proof.
  intros Hroot. split.
  - induction 1 as [|b c w _ IH Hw]; [done|].
    apply cube_weight in Hw as [_ Hw]. by destruct (adjacent_sym _ _ _ Hw).
  - intros Hn. by apply cube_connected, cube_dict_in.
Qed.

(** ** Counting the cube *)

Lemma double_net_rows m (k : nat) todo :
  Forall (fun r : Z * list (Z * Z) =>
            length r.2 = k /\ Forall (fun e => e.2 = 1) r.2) todo ->
  length (NetworkFactory.double_net m todo) = (2 * length todo)%nat /\
  Forall (fun r : Z * list (Z * Z) =>
            length r.2 = S k /\ Forall (fun e => e.2 = 1) r.2)
         (NetworkFactory.double_net m todo).
Proof.
  induction 1 as [|[n row] todo [Hlen Hone] _ [IHl IHr]]; [done|].
  rewrite double_net_cons. simpl in Hlen, Hone. split.
  - simpl. rewrite IHl. lia.
  - unfold NetworkFactory.double_row. cbn [fst snd app].
    apply Forall_cons. split; [|apply Forall_cons; split; [|done]]; simpl.
    + rewrite length_app, Hlen. simpl. split; [lia|].
      apply Forall_app. split; [done|]. by repeat constructor.
    + rewrite length_app, length_fmap, Hlen. simpl. split; [lia|].
      apply Forall_app. split; [|by repeat constructor].
      by apply Forall_fmap, Forall_true.
Qed.

Lemma cube_rows (k : nat) :
  length (NetworkFactory.cube k) = (2 ^ k)%nat /\
  Forall (fun r : Z * list (Z * Z) =>
            length r.2 = k /\ Forall (fun e => e.2 = 1) r.2)
         (NetworkFactory.cube k).
Proof.
  induction k as [|k [IHl IHr]].
  - split; [done|]. by repeat constructor.
  - destruct (double_net_rows (2 ^ Z.of_nat k) k _ IHr) as [Hl Hr].
    split; [|done].
    change (NetworkFactory.cube (S k))
      with (NetworkFactory.double_net (2 ^ Z.of_nat k) (NetworkFactory.cube k)).
    rewrite Hl, IHl. simpl. lia.
Qed.

Lemma entries_rows {N : Type} `{EqDecision N} (k : nat)
    (self : @Network.net N) :
  Forall (fun r : N * list (N * Z) => length r.2 = k) self ->
  length (RSTree.entries self) = (length self * k)%nat.
Proof.
  induction 1 as [|[n row] self Hrow _ IH]; [done|].
  rewrite entries_cons, length_app, IH. unfold dict_keys.
  rewrite length_fmap. simpl in *. lia.
Qed.

Lemma cube_entries (k : nat) :
  length (RSTree.entries (NetworkFactory.cube k)) = (2 ^ k * k)%nat.
Proof.
  destruct (cube_rows k) as [Hl Hr]. rewrite <- Hl.
  apply entries_rows. eapply Forall_impl; [exact Hr|]. by intros r [? _].
Qed.

Lemma cube_link_count (k : nat) :
  Network.link_count (NetworkFactory.cube k) =
  (Ok (Z.of_nat k * 2 ^ Z.of_nat k / 2), NetworkFactory.cube k).
Proof.
  destruct (cube_rows k) as [_ Hr].
  unfold Network.link_count, bind, get, lift, ret.
  rewrite (row_sums_keys (NetworkFactory.cube k) (NetworkFactory.cube k)).
  - rewrite sum_rows_ones by (eapply Forall_impl; [exact Hr|]; by intros r [_ ?]).
    rewrite cube_entries, Z.quot_div_nonneg by lia.
    by rewrite Nat2Z.inj_mul, Nat2Z.inj_pow, Z.mul_comm.
  - intros n row Hin. apply dict_get_NoDup; [|done]. apply below_cube.
Qed.

(** ** The tree of a cube *)

Lemma cube_tree (k : nat) root :
  0 <= root < 2 ^ Z.of_nat k ->
  exists t,
    RSTree.init (RSTree.enough (NetworkFactory.cube k)) root
                (NetworkFactory.cube k)
    = (Ok (Some t), NetworkFactory.cube k) /\
    (forall n, dict_in n (RSTree._tree t) = true <-> 0 <= n < 2 ^ Z.of_nat k) /\
    (forall a b, NetworkFactory.adjacent k a b ->
       RSTree.classified (RSTree._tree t) a b).
Proof.
  intros Hroot. set (self := NetworkFactory.cube k).
  pose proof (cube_symmetric k) as Hsym. fold self in Hsym.
  assert (Hin : dict_in root self = true) by by apply cube_dict_in.
  destruct (init_returns self (RSTree.enough self) root
              (symmetric_closed self Hsym) (le_n _) Hin) as [st Hst].
  destruct (while_open_between self root Hsym _ _ _
              (between_init self root) Hst) as [Hb Hopen].
  assert (Hkeys : forall m, dict_in m (RSTree.tree st) = true ->
                    m ∈ RSTree.marked st).
  { apply (while_open_tree_keys self root Hsym (RSTree.enough self) _ st
             (between_init self root)); [|done].
    simpl. intros m Hm. apply list_elem_of_singleton.
    unfold dict_in in Hm. simpl in Hm. by case_decide. }
  rewrite init_eq. cbv zeta. rewrite Hst.
  eexists. split; [done|]. simpl. split.
  - intros n. rewrite <- (cube_reachable k root n Hroot). fold self. split.
    + intros Hn. by apply (inv_reach self root _ _ _ Hb), Hkeys.
    + intros Hn. apply (inv_rows self root _ _ _ Hb).
      by apply (between_marked self root st n Hb Hopen).
  - intros a b Hadj.
    apply (between_end self root st a b Hb Hopen).
    + apply cube_reachable; [done|]. by destruct Hadj.
    + exists 1. apply cube_weight. by split.
Qed.
(** ** The builder, from outside *)

(** X14: for [1 <= size < 2**1024] and a recursion limit above
    [log2 size], [build_hypercube_network(size)] returns a network whose nodes are the
    numbers [0 .. 2**log2(size) - 1], each once; two nodes are linked
    exactly when their binary forms differ in one digit, and every weight
    is 1. A size between two powers of two gives the network of the lower
    one. *)
Theorem hypercube_structure (depth : nat) (size : Z) :
  1 <= size < 2 ^ 1024 -> (Z.to_nat (Z.log2 size) < depth)%nat ->
  exists network,
    NetworkFactory.build_hypercube_network depth size = Some (Ok network) /\
    NetworkFactory.build_hypercube_network depth (2 ^ Z.log2 size)
      = Some (Ok network) /\
    NoDup (dict_keys network) /\
    (forall a, dict_in a network = true <-> 0 <= a < 2 ^ Z.log2 size) /\
    (forall a b w, Network.weight network a b = Some w <->
       w = 1 /\ NetworkFactory.adjacent (Z.to_nat (Z.log2 size)) a b).
Proof.
  intros [Hsize _] Hdepth. pose proof (Z.log2_nonneg size) as Hlog.
  exists (NetworkFactory.cube (Z.to_nat (Z.log2 size))). split_and!.
  - by apply build_hypercube_eq.
  - assert (H1 : 1 <= 2 ^ Z.log2 size)
      by (pose proof (Z.pow_pos_nonneg 2 (Z.log2 size)); lia).
    rewrite build_hypercube_eq; rewrite ?Z.log2_pow2 by done; done.
  - apply below_cube.
  - intros a. rewrite cube_dict_in. by rewrite Z2Nat.id.
  - apply cube_weight.
Qed.

Lemma hypercube_structure_witness :
  1 <= 5 < 2 ^ 1024 /\ (Z.to_nat (Z.log2 5) < 3)%nat /\
  exists network,
    NetworkFactory.build_hypercube_network 3 5 = Some (Ok network) /\
    NetworkFactory.build_hypercube_network 3 (2 ^ Z.log2 5)
      = Some (Ok network) /\
    NoDup (dict_keys network) /\
    (forall a, dict_in a network = true <-> 0 <= a < 2 ^ Z.log2 5) /\
    (forall a b w, Network.weight network a b = Some w <->
       w = 1 /\ NetworkFactory.adjacent (Z.to_nat (Z.log2 5)) a b).
Proof.
  assert (H1 : 1 <= 5 < 2 ^ 1024) by (split; [lia | vm_compute; reflexivity]).
  assert (H2 : (Z.to_nat (Z.log2 5) < 3)%nat) by (vm_compute; lia).
  exact (conj H1 (conj H2 (hypercube_structure 3 5 H1 H2))).
Defined.

(** X15: the network that [build_hypercube_network(size)] returns, for
    [1 <= size < 2**1024], keeps the invariants of the data model: its adjacency is symmetric, no node is
    its own neighbor, and every node can be reached from every node. *)
Theorem hypercube_symmetric_connected (depth : nat) (size : Z) :
  1 <= size < 2 ^ 1024 -> (Z.to_nat (Z.log2 size) < depth)%nat ->
  exists network,
    NetworkFactory.build_hypercube_network depth size = Some (Ok network) /\
    Network.symmetric network /\
    RSTree.no_self_links network /\
    (forall root, match dict_in root network with
                  | true => RSTree.connected_from network root
                  | false => True
                  end).
Proof.
  intros [Hsize _] Hdepth.
  exists (NetworkFactory.cube (Z.to_nat (Z.log2 size))). split_and!.
  - by apply build_hypercube_eq.
  - apply cube_symmetric.
  - apply cube_no_self_links.
  - intros root.
    destruct (dict_in root (NetworkFactory.cube _)) eqn:E; [|done].
    by apply cube_connected, cube_dict_in.
Qed.

Lemma hypercube_symmetric_connected_witness :
  1 <= 8 < 2 ^ 1024 /\ (Z.to_nat (Z.log2 8) < 4)%nat /\
  exists network,
    NetworkFactory.build_hypercube_network 4 8 = Some (Ok network) /\
    Network.symmetric network /\
    RSTree.no_self_links network /\
    (forall root, match dict_in root network with
                  | true => RSTree.connected_from network root
                  | false => True
                  end).
Proof.
  assert (H1 : 1 <= 8 < 2 ^ 1024) by (split; [lia | vm_compute; reflexivity]).
  assert (H2 : (Z.to_nat (Z.log2 8) < 4)%nat) by (vm_compute; lia).
  exact (conj H1 (conj H2 (hypercube_symmetric_connected 4 8 H1 H2))).
Defined.

(** X16: on the network that [build_hypercube_network(size)] returns for
    [1 <= size < 2**1000], with [k = log2 size], [node_count] is [2**k]
    and [link_count] is [k * 2**k / 2]; both leave the network as it
    is. *)
Theorem hypercube_counts (depth : nat) (size : Z) :
  1 <= size < 2 ^ 1000 -> (Z.to_nat (Z.log2 size) < depth)%nat ->
  exists network,
    NetworkFactory.build_hypercube_network depth size = Some (Ok network) /\
    Network.node_count network
      = (Ok (Z.to_nat (2 ^ Z.log2 size)), network) /\
    Network.link_count network
      = (Ok (Z.log2 size * 2 ^ Z.log2 size / 2), network).
Proof.
  intros [Hsize _] Hdepth. pose proof (Z.log2_nonneg size) as Hlog.
  exists (NetworkFactory.cube (Z.to_nat (Z.log2 size))). split_and!.
  - by apply build_hypercube_eq.
  - unfold Network.node_count, bind, get, ret.
    destruct (cube_rows (Z.to_nat (Z.log2 size))) as [-> _].
    do 2 f_equal. apply Nat2Z.inj.
    rewrite Nat2Z.inj_pow, (Z2Nat.id (Z.log2 size)) by done.
    by rewrite Z2Nat.id by (apply Z.pow_nonneg; lia).
  - rewrite cube_link_count. by rewrite Z2Nat.id.
Qed.

Lemma hypercube_counts_witness :
  1 <= 9 < 2 ^ 1000 /\ (Z.to_nat (Z.log2 9) < 4)%nat /\
  exists network,
    NetworkFactory.build_hypercube_network 4 9 = Some (Ok network) /\
    Network.node_count network
      = (Ok (Z.to_nat (2 ^ Z.log2 9)), network) /\
    Network.link_count network
      = (Ok (Z.log2 9 * 2 ^ Z.log2 9 / 2), network).
Proof.
  assert (H1 : 1 <= 9 < 2 ^ 1000) by (split; [lia | vm_compute; reflexivity]).
  assert (H2 : (Z.to_nat (Z.log2 9) < 4)%nat) by (vm_compute; lia).
  exact (conj H1 (conj H2 (hypercube_counts 4 9 H1 H2))).
Defined.

(** X17: the rooted spanning tree of a hypercube. From any node of the
    network that [build_hypercube_network(size)] returns for
    [1 <= size < 2**1024], [RSTree] returns a tree, leaves the network as it is, has a row for every node of the
    cube and for nothing else, and records every link of the cube, which
    joins two different nodes, once green or twice red. *)
Theorem rstree_on_hypercube (depth : nat) (size root : Z) :
  1 <= size < 2 ^ 1024 -> (Z.to_nat (Z.log2 size) < depth)%nat ->
  0 <= root < 2 ^ Z.log2 size ->
  exists network t,
    NetworkFactory.build_hypercube_network depth size = Some (Ok network) /\
    RSTree.init (RSTree.enough network) root network
      = (Ok (Some t), network) /\
    (forall n, dict_in n (RSTree._tree t) = true <->
       0 <= n < 2 ^ Z.log2 size) /\
    (forall a b, match Network.weight network a b with
                 | Some _ => a <> b /\ RSTree.classified (RSTree._tree t) a b
                 | None => True
                 end).
Proof.
  intros [Hsize _] Hdepth Hroot. pose proof (Z.log2_nonneg size) as Hlog.
  set (k := Z.to_nat (Z.log2 size)).
  assert (Hk : Z.of_nat k = Z.log2 size) by (unfold k; lia).
  destruct (cube_tree k root) as (t & Ht & Hrows & Hcl).
  { by rewrite Hk. }
  exists (NetworkFactory.cube k), t. split_and!.
  - by apply build_hypercube_eq.
  - done.
  - intros n. by rewrite Hrows, Hk.
  - intros a b.
    destruct (Network.weight (NetworkFactory.cube k) a b) as [v|] eqn:E; [|done].
    apply cube_weight in E as [_ E]. split; [|by apply Hcl].
    intros ->. by apply adjacent_irrefl in E.
Qed.
Lemma rstree_on_hypercube_witness :
  1 <= 4 < 2 ^ 1024 /\ (Z.to_nat (Z.log2 4) < 3)%nat /\ 0 <= 3 < 2 ^ Z.log2 4 /\
  exists network t,
    NetworkFactory.build_hypercube_network 3 4 = Some (Ok network) /\
    RSTree.init (RSTree.enough network) 3 network
      = (Ok (Some t), network) /\
    (forall n, dict_in n (RSTree._tree t) = true <->
       0 <= n < 2 ^ Z.log2 4) /\
    (forall a b, match Network.weight network a b with
                 | Some _ => a <> b /\ RSTree.classified (RSTree._tree t) a b
                 | None => True
                 end).
Proof.
  assert (H1 : 1 <= 4 < 2 ^ 1024) by (split; [lia | vm_compute; reflexivity]).
  assert (H2 : (Z.to_nat (Z.log2 4) < 3)%nat) by (vm_compute; lia).
  assert (H3 : 0 <= 3 < 2 ^ Z.log2 4) by (vm_compute; intuition congruence).
  exact (conj H1 (conj H2 (conj H3 (rstree_on_hypercube 3 4 3 H1 H2 H3)))).
Defined.

Lemma rec_build_shallow (depth : nat) :
  forall (k : nat) (q : Q),
    (depth <= k)%nat -> (q == inject_Z (2 ^ Z.of_nat k))%Q ->
    NetworkFactory._rec_build_hc_net depth q = None.
Proof.
  induction depth as [|depth IH]; intros [|k] q Hd Hq; try done; try lia.
  cbn [NetworkFactory._rec_build_hc_net].
  assert (Hpos : 0 < 2 ^ Z.of_nat k) by (apply Z.pow_pos_nonneg; lia).
  assert (Hpow : 2 ^ Z.of_nat (S k) = 2 * 2 ^ Z.of_nat k).
  { rewrite Nat2Z.inj_succ, Z.pow_succ_r; lia. }
  rewrite (is_one_inject q _ Hq).
  rewrite bool_decide_eq_false_2 by lia. cbv zeta.
  rewrite (py_int_half q _ Hq), Hpow.
  rewrite Z.mul_comm, Z.quot_mul by lia.
  by rewrite (IH k) by (lia || reflexivity).
Qed.

(** X18: for [size < 2**1024], [build_hypercube_network(size)] runs out
    of recursion depth exactly when [size < 1], where the recursion reaches
    [n = 0] and [int(0/2)] is 0 again at every level, or when the limit
    does not exceed [log2 size]; in every other case it returns a network,
    and it raises nothing else. *)
Theorem hypercube_recursion (depth : nat) (size : Z) :
  size < 2 ^ 1024 ->
  (NetworkFactory.build_hypercube_network depth size = None <->
   size < 1 \/ (depth <= Z.to_nat (Z.log2 size))%nat) /\
  (forall e, NetworkFactory.build_hypercube_network depth size
             <> Some (Raise e)).
Proof.
  intros _. destruct (decide (size < 1)) as [Hlt|Hge].
  - rewrite build_hypercube_None by done. split; [|done]. split; auto.
  - destruct (decide (Z.to_nat (Z.log2 size) < depth)%nat) as [Hd|Hd].
    + rewrite build_hypercube_eq by lia. split; [|done].
      split; [done|]. lia.
    + assert (Hnone : NetworkFactory.build_hypercube_network depth size = None).
      { unfold NetworkFactory.build_hypercube_network. cbv zeta.
        rewrite (rec_build_shallow depth (Z.to_nat (Z.log2 size))); [done|lia|].
        rewrite double_past_one by lia.
        rewrite Z2Nat.id by apply Z.log2_nonneg.
        unfold Qeq, Qdiv, Qmult, Qinv, inject_Z. simpl. lia. }
      rewrite Hnone. split; [|done]. split; [|done]. intros _. right. lia.
Qed.
Lemma hypercube_recursion_witness :
  0 < 2 ^ 1024 /\
  (NetworkFactory.build_hypercube_network 1000 0 = None <->
   0 < 1 \/ (1000 <= Z.to_nat (Z.log2 0))%nat) /\
  (forall e, NetworkFactory.build_hypercube_network 1000 0
             <> Some (Raise e)).
Proof.
  assert (H1 : 0 < 2 ^ 1024) by (vm_compute; reflexivity).
  exact (conj H1 (hypercube_recursion 1000 0 H1)).
Defined.
End Hypercube.
